(** * SafeWalking: route-graph construction and safest-path search

    A shallow embedding of the core of the SafeWalking application
    (Final_Product/map.js, Final_Product/routing.js and the zone tables),
    with the properties of its specification stated and settled on it.

    Conventions of the embedding:
    - A finite JavaScript number is the rational ([Q]) it stands for;
      [Infinity] and [-Infinity] are separate constructors of [num].  The
      additions of [dijkstra] are additions of doubles: the exact sum is
      rounded to the nearest binary64 value, ties to even, and overflows to
      an infinity ([round_double]).  The formulas of map.js over coordinates
      are taken over the rationals.
    - [NaN] arises in [getDistance], from the square root of a negative
      number: [getDistance_NaN] tells when, [getDistance] is the result when
      it is a number, and the comparison of [findNearestNode] is false on
      [NaN].  A stored [NaN] (an edge weight, a route length) is not
      represented.
    - Node identifiers are natural numbers, OSM identifiers are integers.
    - JavaScript objects used as dictionaries are [gmap]s; a missing key is
      [undefined].  The [Set] of unvisited nodes is a duplicate-free list in
      insertion order, which is the order [Set.prototype.forEach] follows.
    - Loops that the source does not bound are given fuel; [None] is
      "still running when the fuel ran out". *)

From Stdlib Require Import QArith Qround Qabs Qpower Lqa Lia.
From stdpp Require Import gmap strings list fin_maps.

(** ** Data model (map.js, "GRAPH & MAP STATE") *)

Record node := mkNode {
  node_id : nat;
  node_lat : Q;
  node_lng : Q;
  node_osmId : Z
}.

Record edge := mkEdge {
  edge_from : nat;
  edge_to : nat;
  edge_crimes : Z;
  edge_weight : Q;
  edge_wayId : Z;
  edge_streetName : string;
  edge_neighborhood : string
}.

Record graph := mkGraph {
  graph_nodes : list node;
  graph_edges : list edge
}.

(** ** routing.js: [dijkstra] *)

(** Values held in [distances] and [minDist]: a finite number, [Infinity]
    or [-Infinity]. *)
Inductive num :=
  | Fin (q : Q)
  | Infinity
  | NegInfinity.

(** [a < b] on JavaScript numbers. *)
Definition num_lt (a b : num) : bool :=
  match a, b with
  | Fin x, Fin y => negb (Qle_bool y x)
  | Fin _, Infinity => true
  | Fin _, NegInfinity => false
  | Infinity, _ => false
  | NegInfinity, NegInfinity => false
  | NegInfinity, _ => true
  end.

(** *** Rounding to binary64

    JavaScript numbers are IEEE 754 binary64 values, and [x + y] is the
    exact sum rounded to the nearest of them, ties to the one with an even
    significand (ECMAScript, Number::add). *)

Definition pow2 (e : Z) : Q := (2 ^ e)%Q.

(** The exponent [e] with [2^e <= q < 2^(e+1)], for [0 < q]. *)
Definition binade (q : Q) : Z :=
  let e := (Z.log2 (Qnum q) - Z.log2 (Zpos (Qden q)))%Z in
  if Qle_bool (pow2 e) q then e else (e - 1)%Z.

(** The nearest integer, ties to even. *)
Definition round_half_even (q : Q) : Z :=
  let f := Qfloor q in
  match (q - inject_Z f ?= 1 # 2)%Q with
  | Lt => f
  | Gt => (f + 1)%Z
  | Eq => if Z.even f then f else (f + 1)%Z
  end.

(** The exponent of the gap between the doubles around [q], for [0 < q]:
    53 significant bits, and [2^-1074] below the normal range. *)
Definition spacing (q : Q) : Z := Z.max (binade q - 52) (-1074).

(** The multiple of that gap nearest to [q], for [0 < q]. *)
Definition nearest (q : Q) : Q :=
  (inject_Z (round_half_even (q / pow2 (spacing q))) * pow2 (spacing q))%Q.

(** The double nearest to [q], for [0 < q]; [None] when the result exceeds
    the largest double, [2^1024 - 2^971]. *)
Definition round_magnitude (q : Q) : option Q :=
  let r := nearest q in
  if Qle_bool (pow2 1024) r then None else Some (Qred r).

Definition round_double (q : Q) : num :=
  match (q ?= 0)%Q with
  | Eq => Fin 0
  | Gt => match round_magnitude q with Some r => Fin r | None => Infinity end
  | Lt => match round_magnitude (- q) with Some r => Fin (- r) | None => NegInfinity end
  end.

(** [a + w] on JavaScript numbers, for a finite [w]: the rounded sum of two
    finite numbers, and an infinity stays what it is. *)
Definition num_add (a : num) (w : Q) : num :=
  match a with
  | Fin x => round_double (x + w)
  | Infinity => Infinity
  | NegInfinity => NegInfinity
  end.

(** [current] in the reconstruction loop: [null], [undefined] or a node id. *)
Inductive ref :=
  | Null
  | Undefined
  | Ref (n : nat).

(** The three local tables of [dijkstra]. [previous] maps a key to [None]
    for [null] and to [Some u] for the node id [u]. *)
Record dstate := mkState {
  unvisited : list nat;
  distances : gmap nat num;
  previous : gmap nat (option nat)
}.

(** [s.add(x)] on a [Set] or a fresh key of a [Map]: the first insertion
    fixes the position. *)
Definition set_add {A} `{EqDecision A} (x : A) (s : list A) : list A :=
  if bool_decide (x ∈ s) then s else s ++ [x].

(** [unvisited.delete(x)]. *)
Definition set_delete (x : nat) (s : list nat) : list nat :=
  filter (λ y, y ≠ x) s.

(** Body of [graph.nodes.forEach(node => ...)] (lines 15-19). *)
Definition init_node (st : dstate) (n : node) : dstate :=
  {| unvisited := set_add (node_id n) (unvisited st);
     distances := <[node_id n := Infinity]> (distances st);
     previous := <[node_id n := None]> (previous st) |}.

(** Lines 10-20. *)
Definition init_state (g : graph) (startNodeId : nat) : dstate :=
  let st := fold_left init_node (graph_nodes g) (mkState [] ∅ ∅) in
  {| unvisited := unvisited st;
     distances := <[startNodeId := Fin 0%Q]> (distances st);
     previous := previous st |}.

(** Body of [unvisited.forEach(nodeId => ...)] (lines 28-33); the
    accumulator is [(currentNode, minDist)].  A missing key reads as
    [undefined], and [undefined < minDist] is false. *)
Definition pick_min (dist : gmap nat num) (acc : option nat * num) (nodeId : nat)
  : option nat * num :=
  match dist !! nodeId with
  | Some d => if num_lt d (snd acc) then (Some nodeId, d) else acc
  | None => acc
  end.

Definition select_min (dist : gmap nat num) (unv : list nat) : option nat * num :=
  fold_left (pick_min dist) unv (None, Infinity).

(** Lines 42-50: the other endpoint of [e] when [e] touches [currentNode]. *)
Definition neighbor_of (currentNode : nat) (e : edge) : option nat :=
  if Nat.eqb (edge_from e) currentNode then Some (edge_to e)
  else if Nat.eqb (edge_to e) currentNode then Some (edge_from e)
  else None.

(** Body of [graph.edges.forEach(edge => ...)] (lines 41-60).  [unv] is the
    unvisited set after [currentNode] was deleted from it.  [edge.weight] is
    a finite number.  An [undefined] operand makes
    [alt < distances[neighbor]] false. *)
Definition relax (currentNode : nat) (unv : list nat)
    (tabs : gmap nat num * gmap nat (option nat)) (e : edge)
  : gmap nat num * gmap nat (option nat) :=
  match neighbor_of currentNode e with
  | Some neighbor =>
      if bool_decide (neighbor ∈ unv) then
        match fst tabs !! currentNode, fst tabs !! neighbor with
        | Some dc, Some dn =>
            let alt := num_add dc (edge_weight e) in
            if num_lt alt dn
            then (<[neighbor := alt]> (fst tabs), <[neighbor := Some currentNode]> (snd tabs))
            else tabs
        | _, _ => tabs
        end
      else tabs
  | None => tabs
  end.

(** One pass of the main loop after [currentNode] was chosen (lines 38-60). *)
Definition visit (g : graph) (currentNode : nat) (st : dstate) : dstate :=
  let unv := set_delete currentNode (unvisited st) in
  let tabs := fold_left (relax currentNode unv) (graph_edges g)
                        (distances st, previous st) in
  {| unvisited := unv; distances := fst tabs; previous := snd tabs |}.

(** The main loop (lines 23-61). *)
Fixpoint main_loop (fuel : nat) (g : graph) (endNodeId : nat) (st : dstate)
  : option dstate :=
  match unvisited st with
  | [] => Some st
  | _ :: _ =>
      match fuel with
      | O => None
      | S fuel' =>
          match fst (select_min (distances st) (unvisited st)) with
          | None => Some st
          | Some currentNode =>
              if Nat.eqb currentNode endNodeId then Some st
              else main_loop fuel' g endNodeId (visit g currentNode st)
          end
      end
  end.

Definition get_previous (prev : gmap nat (option nat)) (n : nat) : ref :=
  match prev !! n with
  | None => Undefined
  | Some None => Null
  | Some (Some u) => Ref u
  end.

(** Lines 64-69.  [path.unshift] is a cons.  Once [current] is [undefined]
    it stays so ([previous[undefined]] is [undefined] and
    [undefined !== null]): the loop never exits, for any fuel. *)
Fixpoint reconstruct (fuel : nat) (prev : gmap nat (option nat)) (current : ref)
    (path : list nat) : option (list nat) :=
  match current with
  | Null => Some path
  | Undefined => None
  | Ref n =>
      match fuel with
      | O => None
      | S fuel' => reconstruct fuel' prev (get_previous prev n) (n :: path)
      end
  end.

(** [dijkstra(startNodeId, endNodeId)] on the global [graph].  The result is
    [None] when the fuel does not suffice, [Some None] for [null] and
    [Some (Some path)] for a path. *)
Definition dijkstra (fuel : nat) (g : graph) (startNodeId endNodeId : nat)
  : option (option (list nat)) :=
  match main_loop fuel g endNodeId (init_state g startNodeId) with
  | None => None
  | Some st =>
      match reconstruct fuel (previous st) (Ref endNodeId) [] with
      | None => None
      | Some path => Some (if Nat.ltb 1 (length path) then Some path else None)
      end
  end.

(** The same loop without the early exit at the destination: only the
    "no reachable node" break is kept, so the loop runs until the unvisited
    set is exhausted or holds unreachable nodes only. *)
Fixpoint main_loop_exhaustive (fuel : nat) (g : graph) (st : dstate)
  : option dstate :=
  match unvisited st with
  | [] => Some st
  | _ :: _ =>
      match fuel with
      | O => None
      | S fuel' =>
          match fst (select_min (distances st) (unvisited st)) with
          | None => Some st
          | Some currentNode =>
              main_loop_exhaustive fuel' g (visit g currentNode st)
          end
      end
  end.

Definition dijkstra_exhaustive (fuel : nat) (g : graph) (startNodeId endNodeId : nat)
  : option (option (list nat)) :=
  match main_loop_exhaustive fuel g (init_state g startNodeId) with
  | None => None
  | Some st =>
      match reconstruct fuel (previous st) (Ref endNodeId) [] with
      | None => None
      | Some path => Some (if Nat.ltb 1 (length path) then Some path else None)
      end
  end.

(** ** External functions

    [Math.sin], [Math.cos], [Math.sqrt], [Math.atan2] and [Math.PI] of the
    JavaScript runtime and [turf.booleanPointInPolygon] of Turf.js are not
    part of the repository; the development is parametric in them.  A point
    and a ring vertex are [(lng, lat)] pairs, as Turf takes them. *)

Class Platform := {
  Math_sin : Q → Q;
  Math_cos : Q → Q;
  Math_sqrt : Q → Q;
  Math_atan2 : Q → Q → Q;
  Math_PI : Q;
  booleanPointInPolygon : Q * Q → list (list (Q * Q)) → bool;
  (** the results depend on the numbers passed, not on how they are written *)
  Math_sin_proper : ∀ x y, (x == y)%Q → (Math_sin x == Math_sin y)%Q;
  Math_cos_proper : ∀ x y, (x == y)%Q → (Math_cos x == Math_cos y)%Q;
  booleanPointInPolygon_proper : ∀ x y x' y' poly,
    (x == x')%Q → (y == y')%Q →
    booleanPointInPolygon (x, y) poly = booleanPointInPolygon (x', y') poly
}.

(** ** Zone tables (neighborhoodSafetyFactors, neighborhoodPolygons) *)

Definition neighborhoodSafetyFactors : gmap string Q :=
  list_to_map
    [ ("Yale Campus", 25 # 100); ("Westville", 30 # 100);
      ("Wooster Square", 32 # 100); ("East Rock", 35 # 100);
      ("Downtown", 1 # 1); ("The Hill", 14 # 10); ("Fair Haven", 15 # 10);
      ("Dwight", 16 # 10); ("Newhallville", 18 # 10); ("default", 1 # 1) ]%Q.

Record feature := mkFeature {
  feature_name : string;
  feature_coordinates : list (list (Q * Q))
}.

(** A decimal with four fractional digits, e.g. [-72.9320]. *)
Definition dec4 (z : Z) : Q := Qmake z 10000.

Definition neighborhoodPolygons : list feature :=
  [ mkFeature "Yale Campus"
      [[ (dec4 (-729320), dec4 413050); (dec4 (-729320), dec4 413110);
         (dec4 (-729240), dec4 413110); (dec4 (-729240), dec4 413050);
         (dec4 (-729320), dec4 413050) ]];
    mkFeature "East Rock"
      [[ (dec4 (-729280), dec4 413110); (dec4 (-729280), dec4 413180);
         (dec4 (-729180), dec4 413180); (dec4 (-729180), dec4 413110);
         (dec4 (-729280), dec4 413110) ]];
    mkFeature "Westville"
      [[ (dec4 (-729450), dec4 413050); (dec4 (-729450), dec4 413130);
         (dec4 (-729320), dec4 413130); (dec4 (-729320), dec4 413050);
         (dec4 (-729450), dec4 413050) ]];
    mkFeature "Wooster Square"
      [[ (dec4 (-729200), dec4 413020); (dec4 (-729200), dec4 413100);
         (dec4 (-729100), dec4 413100); (dec4 (-729100), dec4 413020);
         (dec4 (-729200), dec4 413020) ]];
    mkFeature "The Hill"
      [[ (dec4 (-729400), dec4 412980); (dec4 (-729400), dec4 413050);
         (dec4 (-729280), dec4 413050); (dec4 (-729280), dec4 412980);
         (dec4 (-729400), dec4 412980) ]];
    mkFeature "Dwight"
      [[ (dec4 (-729500), dec4 413050); (dec4 (-729500), dec4 413120);
         (dec4 (-729450), dec4 413120); (dec4 (-729450), dec4 413050);
         (dec4 (-729500), dec4 413050) ]];
    mkFeature "Downtown"
      [[ (dec4 (-729320), dec4 413050); (dec4 (-729320), dec4 413110);
         (dec4 (-729240), dec4 413110); (dec4 (-729240), dec4 413050);
         (dec4 (-729320), dec4 413050) ]] ].

(** ** map.js: neighborhood and crime functions *)

(** The [for ... of] loop of [getNeighborhoodForPoint] over a feature list. *)
Fixpoint first_containing `{Platform} (point : Q * Q) (features : list feature)
  : string :=
  match features with
  | [] => "default"
  | f :: rest =>
      if booleanPointInPolygon point (feature_coordinates f)
      then feature_name f
      else first_containing point rest
  end.

Definition getNeighborhoodForPoint `{Platform} (lat lng : Q) : string :=
  first_containing (lng, lat) neighborhoodPolygons.

(** [a || b] on a looked-up number: [undefined] and [0] are falsy. *)
Definition or_else (a : option Q) (b : Q) : Q :=
  match a with
  | Some x => if Qeq_bool x 0 then b else x
  | None => b
  end.

Definition getCrimeLevel `{Platform} (lat lng : Q) : Z :=
  let neighborhood := getNeighborhoodForPoint lat lng in
  let safeFactor :=
    or_else (neighborhoodSafetyFactors !! neighborhood)
            (default 0%Q (neighborhoodSafetyFactors !! "default")) in
  let hash := Qabs (Math_sin (lat * 1000) * Math_cos (lng * 1000))%Q in
  let pseudoRandom := (hash - inject_Z (Qfloor hash))%Q in
  let baseCrime := Qfloor (pseudoRandom * 8 * safeFactor)%Q in
  Z.min 14 baseCrime.

(** ** map.js: utility functions *)

(** [getDistance] (lines 147-156): the value returned when it is a number;
    [getDistance_NaN] below tells when it is [NaN] instead. *)
Definition getDistance `{Platform} (lat1 lng1 lat2 lng2 : Q) : Q :=
  let R := 6371%Q in
  let dLat := ((lat2 - lat1) * Math_PI / 180)%Q in
  let dLng := ((lng2 - lng1) * Math_PI / 180)%Q in
  let a := (Math_sin (dLat / 2) * Math_sin (dLat / 2) +
            Math_cos (lat1 * Math_PI / 180) * Math_cos (lat2 * Math_PI / 180) *
            Math_sin (dLng / 2) * Math_sin (dLng / 2))%Q in
  let c := (2 * Math_atan2 (Math_sqrt a) (Math_sqrt (1 - a)))%Q in
  (R * c)%Q.

(** Line 154 takes [Math.sqrt(a)] and [Math.sqrt(1 - a)].  The square root
    of a negative number is [NaN], and an operand that is [NaN] makes every
    later result [NaN]: [getDistance] returns [NaN] exactly when [a] is
    below 0 or above 1. *)
Definition getDistance_NaN `{Platform} (lat1 lng1 lat2 lng2 : Q) : bool :=
  let dLat := ((lat2 - lat1) * Math_PI / 180)%Q in
  let dLng := ((lng2 - lng1) * Math_PI / 180)%Q in
  let a := (Math_sin (dLat / 2) * Math_sin (dLat / 2) +
            Math_cos (lat1 * Math_PI / 180) * Math_cos (lat2 * Math_PI / 180) *
            Math_sin (dLng / 2) * Math_sin (dLng / 2))%Q in
  negb (Qle_bool 0 a) || negb (Qle_bool a 1).

(** Body of the [forEach] of [findNearestNode]; the accumulator is
    [(minDist, nearestNode)].  [dist < minDist] is false when [dist] is
    [NaN]. *)
Definition nearer `{Platform} (lat lng : Q) (acc : num * option node) (n : node)
  : num * option node :=
  let dist := getDistance lat lng (node_lat n) (node_lng n) in
  if negb (getDistance_NaN lat lng (node_lat n) (node_lng n))
     && num_lt (Fin dist) (fst acc)
  then (Fin dist, Some n) else acc.

(** [findNearestNode(lat, lng)]; [None] is [null]. *)
Definition findNearestNode `{Platform} (g : graph) (lat lng : Q) : option node :=
  snd (fold_left (nearer lat lng) (graph_nodes g) (Infinity, None)).

(** ** map.js: [loadStreetData], from the parsed Overpass response on *)

(** One element of [data.elements]; a field the element lacks is [None]
    (or unused for its type). *)
Record element := mkElement {
  el_type : string;
  el_id : Z;
  el_lat : Q;
  el_lon : Q;
  el_nodes : option (list Z);
  el_tags : option (gmap string string)
}.

Record way := mkWay {
  way_id : Z;
  way_nodes : list Z;
  way_tags : gmap string string
}.

(** First pass (lines 223-227). *)
Definition collect_node (osmNodes : gmap Z (Q * Q)) (el : element) : gmap Z (Q * Q) :=
  if bool_decide (el_type el = "node")
  then <[el_id el := (el_lat el, el_lon el)]> osmNodes
  else osmNodes.

(** Second pass (lines 230-234). *)
Definition collect_way (ways : list way) (el : element) : list way :=
  if bool_decide (el_type el = "way") then
    match el_nodes el with
    | Some ns =>
        if Nat.ltb 1 (length ns)
        then ways ++ [mkWay (el_id el) ns (default ∅ (el_tags el))]
        else ways
    | None => ways
    end
  else ways.

(** The node-creation state: [graph.nodes], [nodeMap], [nodeIdCounter]. *)
Record nstate := mkNState {
  ns_nodes : list node;
  ns_nodeMap : gmap Z nat;
  ns_counter : nat
}.

(** Body of [way.nodes.forEach(osmNodeId => ...)] (lines 241-253). *)
Definition add_node (osmNodes : gmap Z (Q * Q)) (st : nstate) (osmNodeId : Z) : nstate :=
  match ns_nodeMap st !! osmNodeId, osmNodes !! osmNodeId with
  | None, Some osmNode =>
      {| ns_nodes := ns_nodes st ++
           [mkNode (ns_counter st) (fst osmNode) (snd osmNode) osmNodeId];
         ns_nodeMap := <[osmNodeId := ns_counter st]> (ns_nodeMap st);
         ns_counter := S (ns_counter st) |}
  | _, _ => st
  end.

Definition add_way_nodes (osmNodes : gmap Z (Q * Q)) (st : nstate) (w : way) : nstate :=
  fold_left (add_node osmNodes) (way_nodes w) st.

(** [way.tags.name || 'Unnamed Street']: a missing or empty name is falsy. *)
Definition street_name (w : way) : string :=
  match way_tags w !! "name" with
  | Some n => if bool_decide (n = "") then "Unnamed Street" else n
  | None => "Unnamed Street"
  end.

(** Body of the [for] loop of the edge pass (lines 259-284) for one pair of
    consecutive OSM ids.  [None] is the [TypeError] raised when
    [fromNode] or [toNode] is [undefined]. *)
Definition add_edge `{Platform} (osmNodes : gmap Z (Q * Q)) (st : nstate) (w : way)
    (fromOsmId toOsmId : Z) (edges : list edge) : option (list edge) :=
  match osmNodes !! fromOsmId, osmNodes !! toOsmId with
  | Some _, Some _ =>
      match ns_nodeMap st !! fromOsmId, ns_nodeMap st !! toOsmId with
      | Some fromId, Some toId =>
          match ns_nodes st !! fromId, ns_nodes st !! toId with
          | Some fromNode, Some toNode =>
              let midLat := ((node_lat fromNode + node_lat toNode) / 2)%Q in
              let midLng := ((node_lng fromNode + node_lng toNode) / 2)%Q in
              let crimes := getCrimeLevel midLat midLng in
              let distance := getDistance (node_lat fromNode) (node_lng fromNode)
                                          (node_lat toNode) (node_lng toNode) in
              Some (edges ++
                [mkEdge fromId toId crimes (inject_Z crimes + distance * 100)%Q
                        (way_id w) (street_name w)
                        (getNeighborhoodForPoint midLat midLng)])
          | _, _ => None
          end
      | _, _ => None
      end
  | _, _ => Some edges
  end.

(** The [for (let i = 0; i < way.nodes.length - 1; i++)] loop, on the
    remaining suffix of [way.nodes]. *)
Fixpoint add_way_edges `{Platform} (osmNodes : gmap Z (Q * Q)) (st : nstate) (w : way)
    (ids : list Z) (edges : list edge) : option (list edge) :=
  match ids with
  | [] => Some edges
  | fromOsmId :: rest =>
      match rest with
      | [] => Some edges
      | toOsmId :: _ =>
          match add_edge osmNodes st w fromOsmId toOsmId edges with
          | Some edges' => add_way_edges osmNodes st w rest edges'
          | None => None
          end
      end
  end.

Fixpoint add_all_edges `{Platform} (osmNodes : gmap Z (Q * Q)) (st : nstate)
    (ways : list way) (edges : list edge) : option (list edge) :=
  match ways with
  | [] => Some edges
  | w :: rest =>
      match add_way_edges osmNodes st w (way_nodes w) edges with
      | Some edges' => add_all_edges osmNodes st rest edges'
      | None => None
      end
  end.

Definition collect_ways (elements : list element) : list way :=
  fold_left collect_way elements [].

Definition collect_nodes (elements : list element) : gmap Z (Q * Q) :=
  fold_left collect_node elements ∅.

Definition build_nodes (osmNodes : gmap Z (Q * Q)) (ways : list way) : nstate :=
  fold_left (add_way_nodes osmNodes) ways (mkNState [] ∅ O).

(** Graph construction of [loadStreetData] (lines 219-286) from
    [data.elements]; [None] is an exception raised while building. *)
Definition loadStreetData `{Platform} (elements : list element) : option graph :=
  let osmNodes := collect_nodes elements in
  let ways := collect_ways elements in
  let st := build_nodes osmNodes ways in
  match add_all_edges osmNodes st ways [] with
  | Some edges => Some (mkGraph (ns_nodes st) edges)
  | None => None
  end.

(** ** routing.js: [findSafestRoute] *)

(** The globals [findSafestRoute] reads; a point is [(lat, lng)]. *)
Record app_state := mkApp {
  app_graph : graph;
  startPoint : option (Q * Q);
  endPoint : option (Q * Q)
}.

Record route_info := mkRoute {
  route_path : list nat;
  route_coords : list (Q * Q);
  route_miles : Q;
  route_crime_score : Z;
  route_segments : nat;
  route_avg : Q;
  safetyRating : string;
  safetyColor : string
}.

Inductive outcome :=
  | Alert (msg : string)
  | TypeError
  | OutOfFuel
  | RouteShown (r : route_info).

(** [path.map(nodeId => ...)] (lines 111-114); [None] when a node is
    [undefined]. *)
Fixpoint path_coords (g : graph) (path : list nat) : option (list (Q * Q)) :=
  match path with
  | [] => Some []
  | nodeId :: rest =>
      match graph_nodes g !! nodeId with
      | Some n =>
          match path_coords g rest with
          | Some cs => Some ((node_lat n, node_lng n) :: cs)
          | None => None
          end
      | None => None
      end
  end.

(** [graph.edges.find(...)] (lines 133-136). *)
Definition find_edge (g : graph) (fromId toId : nat) : option edge :=
  List.find (λ e, (Nat.eqb (edge_from e) fromId && Nat.eqb (edge_to e) toId) ||
                  (Nat.eqb (edge_to e) fromId && Nat.eqb (edge_from e) toId))
            (graph_edges g).

(** The statistics loop (lines 128-145) on the remaining suffix of [path];
    the accumulator is [(totalCrimes, totalDistance)]. *)
Fixpoint route_totals `{Platform} (g : graph) (path : list nat) (acc : Z * Q)
  : option (Z * Q) :=
  match path with
  | [] => Some acc
  | fromId :: rest =>
      match rest with
      | [] => Some acc
      | toId :: _ =>
          let totalCrimes :=
            match find_edge g fromId toId with
            | Some e => (fst acc + edge_crimes e)%Z
            | None => fst acc
            end in
          match graph_nodes g !! fromId, graph_nodes g !! toId with
          | Some fromNode, Some toNode =>
              route_totals g rest
                (totalCrimes,
                 (snd acc + getDistance (node_lat fromNode) (node_lng fromNode)
                                        (node_lat toNode) (node_lng toNode))%Q)
          | _, _ => None
          end
      end
  end.

(** Lines 157-169. *)
Definition classify (avgCrimes : Q) : string * string :=
  if Qle_bool avgCrimes 2 then ("Very Safe", "#22c55e")
  else if Qle_bool avgCrimes 5 then ("Safe", "#eab308")
  else if Qle_bool avgCrimes 8 then ("Moderate", "#f97316")
  else ("Caution Advised", "#ef4444").

(** Lines 124-169 for a path that [dijkstra] returned. *)
Definition route_summary `{Platform} (g : graph) (path : list nat) : outcome :=
  match path_coords g path with
  | None => TypeError
  | Some coords =>
      match route_totals g path (0%Z, 0%Q) with
      | None => TypeError
      | Some (totalCrimes, totalDistance) =>
          let miles := (totalDistance * (621371 # 1000000))%Q in
          let avgCrimes :=
            (inject_Z totalCrimes / inject_Z (Z.of_nat (length path) - 1))%Q in
          RouteShown
            (mkRoute path coords miles totalCrimes (length path - 1) avgCrimes
                     (fst (classify avgCrimes)) (snd (classify avgCrimes)))
      end
  end.

Definition findSafestRoute `{Platform} (fuel : nat) (app : app_state) : outcome :=
  match startPoint app, endPoint app with
  | Some sp, Some ep =>
      if Nat.eqb (length (graph_nodes (app_graph app))) 0 then
        Alert "Street data not loaded yet. Please wait..."
      else
        match findNearestNode (app_graph app) (fst sp) (snd sp),
              findNearestNode (app_graph app) (fst ep) (snd ep) with
        | Some startNode, Some endNode =>
            match dijkstra fuel (app_graph app) (node_id startNode) (node_id endNode) with
            | None => OutOfFuel
            | Some None => Alert "No route found!"
            | Some (Some path) => route_summary (app_graph app) path
            end
        | _, _ => TypeError
        end
  | _, _ => Alert "Please select both start and end points!"
  end.

(** ** Vocabulary of the statements about [dijkstra] *)

Definition node_ids (g : graph) : list nat := map node_id (graph_nodes g).

(** [e] connects [x] and [y], in either direction. *)
Definition joins (e : edge) (x y : nat) : Prop :=
  (edge_from e = x ∧ edge_to e = y) ∨ (edge_to e = x ∧ edge_from e = y).

(** [is_path g p es]: [p] is a non-empty sequence of node ids of [g] and
    [es] lists, in order, an edge of [g] between each two consecutive ones. *)
Fixpoint is_path (g : graph) (p : list nat) (es : list edge) : Prop :=
  match p with
  | [] => False
  | x :: p' =>
      x ∈ node_ids g ∧
      match p' with
      | [] => es = []
      | y :: _ =>
          match es with
          | [] => False
          | e :: es' => e ∈ graph_edges g ∧ joins e x y ∧ is_path g p' es'
          end
      end
  end.

Definition total_weight (es : list edge) : Q :=
  fold_right (λ e acc, edge_weight e + acc)%Q 0%Q es.

Definition nonneg_weights (g : graph) : Prop :=
  Forall (λ e, (0 <= edge_weight e)%Q) (graph_edges g).

(** The weight of a walk as [dijkstra] adds it up: from 0, one addition of
    doubles per edge, in the order of the walk. *)
Definition path_cost (es : list edge) : num :=
  fold_left (λ acc e, num_add acc (edge_weight e)) es (Fin 0%Q).

(** [reach g s v W]: some walk from [s] to [v] over nodes of [g] costs [W],
    added up as [path_cost] does; walks grow at their far end. *)
Inductive reach (g : graph) (s : nat) : nat → num → Prop :=
  | reach_start : reach g s s (Fin 0%Q)
  | reach_step x y e W :
      reach g s x W → e ∈ graph_edges g → joins e x y → y ∈ node_ids g →
      reach g s y (num_add W (edge_weight e)).

(** [a <= b] on JavaScript numbers. *)
Definition num_le (a b : num) : Prop :=
  match a, b with
  | Fin x, Fin y => (x <= y)%Q
  | _, Infinity => True
  | NegInfinity, _ => True
  | _, _ => False
  end.

(** A double that is not negative, or [Infinity]. *)
Definition double_nonneg (a : num) : Prop :=
  match a with
  | Fin q => (0 <= q)%Q ∧ round_double q = Fin q
  | Infinity => True
  | NegInfinity => False
  end.

(** [chain prev v p]: following [previous] from [v] reaches [null] and
    visits, read backwards, the nodes of [p]. *)
Inductive chain (prev : gmap nat (option nat)) : nat → list nat → Prop :=
  | chain_root v : prev !! v = Some None → chain prev v [v]
  | chain_link v u p :
      prev !! v = Some (Some u) → chain prev u p → chain prev v (p ++ [v]).

Definition visited (g : graph) (unv : list nat) (v : nat) : Prop :=
  v ∈ node_ids g ∧ v ∉ unv.

(** The invariant of the main loop of [dijkstra] from source [s].  [cur] is
    the node visited last and [rest] the edges its relaxation pass has still
    to look at ([[]] between two passes). *)
Record Inv (g : graph) (s : nat) (cur : option nat) (rest : list edge)
    (unv : list nat) (dist : gmap nat num) (prev : gmap nat (option nat))
  : Prop := mkInv {
  inv_nodup : NoDup unv;
  inv_sub : ∀ v, v ∈ unv → v ∈ node_ids g;
  inv_dom : ∀ v, v ∈ node_ids g → is_Some (dist !! v);
  inv_fresh : s ∈ unv → ∀ v, v ∈ node_ids g → v ∈ unv;
  inv_source : dist !! s = Some (Fin 0%Q) ∧ prev !! s = Some None;
  inv_double : ∀ v d, dist !! v = Some d → double_nonneg d;
  inv_label : ∀ v, v ∈ node_ids g → v ≠ s →
    (dist !! v = Some Infinity ∧ prev !! v = Some None) ∨
    (∃ u du e q, prev !! v = Some (Some u) ∧ visited g unv u ∧
       dist !! u = Some du ∧ e ∈ graph_edges g ∧ joins e u v ∧
       num_add du (edge_weight e) = Fin q ∧ dist !! v = Some (Fin q));
  inv_chain : ∀ v, visited g unv v →
    ∃ d p es, dist !! v = Some (Fin d) ∧ chain prev v p ∧ NoDup p ∧
      (∀ x, x ∈ p → visited g unv x) ∧ head p = Some s ∧ last p = Some v ∧
      is_path g p es ∧ path_cost es = Fin d;
  inv_relaxed : ∀ x e y, visited g unv x → e ∈ graph_edges g → joins e x y →
    y ∈ node_ids g →
    (∃ dx dy, dist !! x = Some dx ∧ dist !! y = Some dy ∧
       num_le dy (num_add dx (edge_weight e))) ∨
    (cur = Some x ∧ e ∈ rest);
  inv_mono : ∀ x y dx dy, visited g unv x → y ∈ unv →
    dist !! x = Some dx → dist !! y = Some dy → num_le dx dy;
  inv_cur : ∀ u y du dy, cur = Some u → visited g unv y →
    dist !! u = Some du → dist !! y = Some dy → num_le dy du
}.

(** What the scan for the minimum knows after the nodes [seen]: [m] bounds
    their distances from below and is attained at [c], or nothing below
    [Infinity] was seen. *)
Definition scan_ok (dist : gmap nat num) (seen : list nat)
    (acc : option nat * num) : Prop :=
  (∀ y dy, y ∈ seen → dist !! y = Some dy → num_le (snd acc) dy) ∧
  match fst acc with
  | None => snd acc = Infinity
  | Some u => u ∈ seen ∧ dist !! u = Some (snd acc) ∧ snd acc ≠ Infinity
  end.

(** The invariant between two passes of the main loop. *)
Definition loop_inv (g : graph) (s : nat) (cur : option nat) (st : dstate) : Prop :=
  Inv g s cur [] (unvisited st) (distances st) (previous st).

(** [es] takes [p] from [s] to [t]. *)
Definition walk_between (g : graph) (s t : nat) (p : list nat) (es : list edge)
  : Prop :=
  is_path g p es ∧ head p = Some s ∧ last p = Some t.

(** [p] goes from [s] to [t] along edges whose weights sum to no more than
    those of any other walk from [s] to [t]. *)
Definition cheapest_between (g : graph) (s t : nat) (p : list nat) : Prop :=
  ∃ es, walk_between g s t p es ∧
    ∀ q es', walk_between g s t q es' → (total_weight es <= total_weight es')%Q.

(** The same with every sum taken in doubles, as [path_cost] takes it. *)
Definition cheapest_in_doubles (g : graph) (s t : nat) (p : list nat) : Prop :=
  ∃ es, walk_between g s t p es ∧
    ∀ q es', walk_between g s t q es' → num_le (path_cost es) (path_cost es').

(** ** Sample data *)

(** Node [i] lies at latitude [i], longitude 0. *)
Definition sample_node (i : nat) : node := mkNode i (inject_Z (Z.of_nat i)) 0 0.

Definition sample_edge (a b : nat) (crimes : Z) (w : Q) : edge :=
  mkEdge a b crimes w 0 "Unnamed Street" "default".

(** Four nodes in a row with a costly shortcut from 0 to 2. *)
Definition sample_graph : graph :=
  mkGraph [sample_node 0; sample_node 1; sample_node 2; sample_node 3]
          [sample_edge 0 1 1 5; sample_edge 1 2 4 1; sample_edge 0 2 9 7;
           sample_edge 2 3 10 (1 # 2)].

(** Three nodes: the street from 0 to 2 weighs 0.30000000000000004, the
    detour over 1 weighs 0.1 and then 0.2 (the doubles written so). *)
Definition detour_graph : graph :=
  mkGraph [sample_node 0; sample_node 1; sample_node 2]
          [sample_edge 0 2 0 (5404319552844596 # 18014398509481984);
           sample_edge 0 1 0 (3602879701896397 # 36028797018963968);
           sample_edge 1 2 0 (3602879701896397 # 18014398509481984)].

(** Three nodes in a row; each street weighs 1e308, the double
    [5010420900022432 * 2^971]. *)
Definition heavy_graph : graph :=
  mkGraph [sample_node 0; sample_node 1; sample_node 2]
          [sample_edge 0 1 0 (inject_Z (5010420900022432 * 2 ^ 971));
           sample_edge 1 2 0 (inject_Z (5010420900022432 * 2 ^ 971))].

(** A square: from 0 over 1 to 2 the streets weigh 1e16 and 1, from 0 over
    3 to 2 they weigh 1e16 and 0.5. *)
Definition square_graph : graph :=
  mkGraph [sample_node 0; sample_node 1; sample_node 2; sample_node 3]
          [sample_edge 0 1 0 (inject_Z (10 ^ 16)); sample_edge 1 2 0 1;
           sample_edge 0 3 0 (inject_Z (10 ^ 16)); sample_edge 3 2 0 (1 # 2)].

(** The boundary configured for a zone name. *)
Definition polygon_of (name : string) : option (list (list (Q * Q))) :=
  feature_coordinates <$>
    List.find (λ f, bool_decide (feature_name f = name)) neighborhoodPolygons.

(** A stand-in for the runtime, for running the definitions on sample data:
    every point lies in every polygon. *)
Definition sample_platform : Platform :=
  {| Math_sin := λ x, x;
     Math_cos := λ x, x;
     Math_sqrt := λ x, x;
     Math_atan2 := λ y x, y;
     Math_PI := 355 # 113;
     booleanPointInPolygon := λ _ _, true;
     Math_sin_proper := λ x y E, E;
     Math_cos_proper := λ x y E, E;
     booleanPointInPolygon_proper := λ x y x' y' poly _ _, eq_refl |}.

(** ** Vocabulary of the statements about the graph builder *)

(** The distinct elements of [l], in the order of their first occurrence. *)
Definition first_seen (l : list Z) : list Z :=
  fold_left (λ acc x, set_add x acc) l [].

(** The OSM ids that the ways refer to and the response has coordinates
    for, in input order. *)
Definition resolved_ids (osmNodes : gmap Z (Q * Q)) (ways : list way) : list Z :=
  filter (λ a, is_Some (osmNodes !! a)) (concat (map way_nodes ways)).

(** No two neighbours in [l] are equal. *)
Definition no_repeat (l : list Z) : Prop :=
  ∀ i a b, l !! i = Some a → l !! S i = Some b → a ≠ b.

(** What the node pass has established after the OSM ids [seen]. *)
Record nodes_ok (osmNodes : gmap Z (Q * Q)) (seen : list Z) (st : nstate)
  : Prop := mkNodesOk {
  nok_counter : ns_counter st = length (ns_nodes st);
  nok_node : ∀ i n, ns_nodes st !! i = Some n →
    node_id n = i ∧ ns_nodeMap st !! node_osmId n = Some i ∧
    osmNodes !! node_osmId n = Some (node_lat n, node_lng n);
  nok_map : ∀ a i, ns_nodeMap st !! a = Some i →
    ∃ n, ns_nodes st !! i = Some n ∧ node_osmId n = a;
  nok_order : map node_osmId (ns_nodes st) =
    first_seen (filter (λ a, is_Some (osmNodes !! a)) seen)
}.

(** [e] is the edge the edge pass makes for the consecutive OSM ids [a] and
    [b] of way [w]. *)
Definition built_edge `{Platform} (st : nstate) (w : way) (a b : Z) (e : edge)
  : Prop :=
  ∃ fromNode toNode,
    ns_nodeMap st !! a = Some (edge_from e) ∧
    ns_nodeMap st !! b = Some (edge_to e) ∧
    ns_nodes st !! edge_from e = Some fromNode ∧
    ns_nodes st !! edge_to e = Some toNode ∧
    edge_crimes e = getCrimeLevel ((node_lat fromNode + node_lat toNode) / 2)
                                  ((node_lng fromNode + node_lng toNode) / 2) ∧
    edge_weight e =
      (inject_Z (edge_crimes e) +
       getDistance (node_lat fromNode) (node_lng fromNode)
                   (node_lat toNode) (node_lng toNode) * 100)%Q.

(** Three crossings on two streets. *)
Definition sample_elements : list element :=
  [ mkElement "node" 101 (413080 # 10000) (-729280 # 10000) None None;
    mkElement "node" 102 (413090 # 10000) (-729280 # 10000) None None;
    mkElement "node" 103 (413090 # 10000) (-729270 # 10000) None None;
    mkElement "way" 7 0 0 (Some [101; 102; 103]%Z)
              (Some {[ "name" := "Elm Street" ]});
    mkElement "way" 8 0 0 (Some [103; 101]%Z) None ].

(** A way that names the same OSM node twice in a row. *)
Definition stutter_elements : list element :=
  [ mkElement "node" 101 (413080 # 10000) (-729280 # 10000) None None;
    mkElement "way" 9 0 0 (Some [101; 101]%Z) None ].

(** The graphs built from the two samples with the stand-in runtime. *)
Definition sample_built : graph :=
  Eval vm_compute in
    default (mkGraph [] []) (@loadStreetData sample_platform sample_elements).

Definition stutter_built : graph :=
  Eval vm_compute in
    default (mkGraph [] []) (@loadStreetData sample_platform stutter_elements).

(** ** Vocabulary of the statements about the route summary *)

(** The risk scores of the edges that the statistics loop finds along
    [path], in order. *)
Fixpoint traversed_risks (g : graph) (path : list nat) : list Z :=
  match path with
  | [] => []
  | fromId :: rest =>
      match rest with
      | [] => []
      | toId :: _ =>
          match find_edge g fromId toId with
          | Some e => edge_crimes e :: traversed_risks g rest
          | None => traversed_risks g rest
          end
      end
  end.

Definition sum_risks (risks : list Z) : Z := fold_right Z.add 0%Z risks.

(** Start at node 0 and end at node 3 of [sample_graph]. *)
Definition sample_app : app_state :=
  mkApp sample_graph (Some (0, 0)%Q) (Some (3, 0)%Q).

(** ** map.js: presentation of the edges *)

Definition getCrimeColor (crimes : Z) : string :=
  if Z.leb crimes 2 then "#22c55e"
  else if Z.leb crimes 5 then "#eab308"
  else if Z.leb crimes 8 then "#f97316"
  else "#ef4444".

(** Line width in pixels. *)
Definition getCrimeWidth (crimes : Z) : nat :=
  if Z.leb crimes 2 then 2
  else if Z.leb crimes 5 then 3
  else if Z.leb crimes 8 then 4
  else 5.

(** The "Safety:" entry of the popup of a street (map.js, line 128). *)
Definition popup_safety (crimes : Z) : string :=
  if Z.leb crimes 2 then "Safe"
  else if Z.leb crimes 5 then "Moderate"
  else if Z.leb crimes 8 then "Unsafe"
  else "Very Unsafe".

(** One polyline of [streetLayers]: its two points, its options and the
    values interpolated into its popup. *)
Record street_line := mkLine {
  line_from : Q * Q;
  line_to : Q * Q;
  line_color : string;
  line_weight : nat;
  line_opacity : Q;
  popup_streetName : string;
  popup_neighborhood : string;
  popup_crimes : Z;
  popup_label : string
}.

(** Body of [graph.edges.forEach(edge => ...)] of [visualizeStreets]; [None]
    is the [TypeError] raised when an end node is [undefined]. *)
Definition draw_edge (g : graph) (e : edge) : option street_line :=
  match graph_nodes g !! edge_from e, graph_nodes g !! edge_to e with
  | Some fromNode, Some toNode =>
      Some (mkLine (node_lat fromNode, node_lng fromNode)
                   (node_lat toNode, node_lng toNode)
                   (getCrimeColor (edge_crimes e)) (getCrimeWidth (edge_crimes e))
                   (7 # 10) (edge_streetName e) (edge_neighborhood e)
                   (edge_crimes e) (popup_safety (edge_crimes e)))
  | _, _ => None
  end.

(** [visualizeStreets()]: the new content of [streetLayers]. *)
Fixpoint draw_edges (g : graph) (edges : list edge) (layers : list street_line)
  : option (list street_line) :=
  match edges with
  | [] => Some layers
  | e :: rest =>
      match draw_edge g e with
      | Some line => draw_edges g rest (layers ++ [line])
      | None => None
      end
  end.

Definition visualizeStreets (g : graph) : option (list street_line) :=
  draw_edges g (graph_edges g) [].

(** ** main.js: [debugGraph] *)

(** [Math.min(...xs)] and [Math.max(...xs)] on a non-empty list. *)
Definition list_min (x : Z) (xs : list Z) : Z := fold_left Z.min xs x.
Definition list_max (x : Z) (xs : list Z) : Z := fold_left Z.max xs x.

(** The three crime figures that [debugGraph] logs: minimum, maximum and
    average; nothing is logged for a graph without edges. *)
Definition crime_statistics (g : graph) : option (Z * Z * Q) :=
  match map edge_crimes (graph_edges g) with
  | [] => None
  | c :: cs =>
      Some (list_min c cs, list_max c cs,
            (inject_Z (fold_left Z.add (c :: cs) 0%Z) /
             inject_Z (Z.of_nat (length (c :: cs))))%Q)
  end.

(** ** Vocabulary of the further statements *)

(** The factor [getCrimeLevel] uses for a zone name. *)
Definition safe_factor_of (name : string) : Q :=
  or_else (neighborhoodSafetyFactors !! name)
          (default 0%Q (neighborhoodSafetyFactors !! "default")).

(** Consecutive pairs of a list. *)
Fixpoint way_pairs (l : list Z) : list (Z * Z) :=
  match l with
  | [] => []
  | a :: rest =>
      match rest with
      | [] => []
      | b :: _ => (a, b) :: way_pairs rest
      end
  end.

(** The segments of the ways, in input order, whose two OSM ids both have
    coordinates in the response. *)
Definition resolved_segments (osmNodes : gmap Z (Q * Q)) (ways : list way)
  : list (way * (Z * Z)) :=
  filter (λ seg, is_Some (osmNodes !! fst (snd seg)) ∧
                 is_Some (osmNodes !! snd (snd seg)))
         (concat (map (λ w, map (pair w) (way_pairs (way_nodes w))) ways)).

(** [e] is the edge made for segment [seg], field by field. *)
Definition edge_for `{Platform} (nodes : list node) (seg : way * (Z * Z)) (e : edge)
  : Prop :=
  ∃ fromNode toNode,
    nodes !! edge_from e = Some fromNode ∧ node_osmId fromNode = fst (snd seg) ∧
    nodes !! edge_to e = Some toNode ∧ node_osmId toNode = snd (snd seg) ∧
    let midLat := ((node_lat fromNode + node_lat toNode) / 2)%Q in
    let midLng := ((node_lng fromNode + node_lng toNode) / 2)%Q in
    edge_crimes e = getCrimeLevel midLat midLng ∧
    edge_neighborhood e = getNeighborhoodForPoint midLat midLng ∧
    edge_wayId e = way_id (fst seg) ∧
    edge_streetName e = street_name (fst seg).

(** The elements [loadStreetData] reads: nodes, and ways with two node
    references or more. *)
Definition relevant (el : element) : Prop :=
  el_type el = "node" ∨
  (el_type el = "way" ∧ (1 < length (default [] (el_nodes el)))%nat).

(** [e] with its two ends exchanged. *)
Definition flip_edge (e : edge) : edge :=
  mkEdge (edge_to e) (edge_from e) (edge_crimes e) (edge_weight e)
         (edge_wayId e) (edge_streetName e) (edge_neighborhood e).

(** An edge that can carry a route: two different ends, both nodes of [g]. *)
Definition usable_edge (g : graph) (e : edge) : Prop :=
  edge_from e ≠ edge_to e ∧ edge_from e ∈ node_ids g ∧ edge_to e ∈ node_ids g.

(** A stand-in for the runtime on which [getDistance] is the square of the
    difference in latitude, up to a factor. *)
Definition plane_platform : Platform :=
  {| Math_sin := λ x, x;
     Math_cos := λ x, 0%Q;
     Math_sqrt := λ x, x;
     Math_atan2 := λ y x, y;
     Math_PI := 355 # 113;
     booleanPointInPolygon := λ _ _, false;
     Math_sin_proper := λ x y E, E;
     Math_cos_proper := λ x y E, Qeq_refl 0;
     booleanPointInPolygon_proper := λ x y x' y' poly _ _, eq_refl |}.

(** The distance from the point to [n] is a number. *)
Definition measurable `{Platform} (lat lng : Q) (n : node) : Prop :=
  getDistance_NaN lat lng (node_lat n) (node_lng n) = false.

(** What the scan of [findNearestNode] knows after the nodes [seen]: the
    node kept is the first of the nearest ones among those whose distance
    is a number, and none is kept when there are none. *)
Definition near_ok `{Platform} (lat lng : Q) (seen : list node)
    (acc : num * option node) : Prop :=
  match snd acc with
  | None => (∀ m, m ∈ seen → ¬ measurable lat lng m) ∧ fst acc = Infinity
  | Some n =>
      ∃ i, seen !! i = Some n ∧ measurable lat lng n ∧
        fst acc = Fin (getDistance lat lng (node_lat n) (node_lng n)) ∧
        ∀ j m, seen !! j = Some m → measurable lat lng m →
          (getDistance lat lng (node_lat n) (node_lng n)
           <= getDistance lat lng (node_lat m) (node_lng m))%Q ∧
          ((j < i)%nat →
           (getDistance lat lng (node_lat n) (node_lng n)
            < getDistance lat lng (node_lat m) (node_lng m))%Q)
  end.

(** The graph built from the first sample on [plane_platform]. *)
Definition plane_built : graph :=
  Eval vm_compute in
    default (mkGraph [] []) (@loadStreetData plane_platform sample_elements).

(** [g] with the edges chosen by [turn] drawn the other way round. *)
Definition reorient (turn : edge → bool) (g : graph) : graph :=
  mkGraph (graph_nodes g)
          (map (λ e, if turn e then flip_edge e else e) (graph_edges g)).

(** [g] without its loops and without the edges that leave its nodes. *)
Definition usable_part (g : graph) : graph :=
  mkGraph (graph_nodes g) (filter (usable_edge g) (graph_edges g)).

(** From the first crossing of [plane_built] to the third. *)
Definition plane_app : app_state :=
  mkApp plane_built (Some (413080 # 10000, -729280 # 10000)%Q)
                    (Some (413090 # 10000, -729270 # 10000)%Q).

(** * Properties *)

(** A decidable fact about concrete data, settled by evaluation. *)
Ltac by_compute := apply (bool_decide_unpack _); vm_compute; exact I.

(** ** Numbers *)

Lemma num_le_refl a : num_le a a.
Proof. destruct a; simpl; [apply Qle_refl | exact I | exact I]. Qed.

Lemma num_le_trans a b c : num_le a b → num_le b c → num_le a c.
Proof.
  destruct a, b, c; simpl; try tauto. apply Qle_trans.
Qed.

Lemma num_lt_le a b : num_lt a b = true → num_le a b.
Proof.
  destruct a, b; simpl; try done.
  intros H. apply negb_true_iff in H.
  destruct (Qlt_le_dec q q0) as [Hlt | Hle]; [by apply Qlt_le_weak |].
  apply Qle_bool_iff in Hle. congruence.
Qed.

Lemma num_lt_false_le a b : num_lt a b = false → num_le b a.
Proof.
  destruct a, b; simpl; try done.
  intros H. apply negb_false_iff in H. by apply Qle_bool_iff.
Qed.

Lemma num_lt_finite a b : num_lt a b = true → a ≠ Infinity.
Proof. by destruct a. Qed.

Lemma num_le_infinity a : num_le Infinity a → a = Infinity.
Proof. by destruct a. Qed.

Lemma double_nonneg_finite a : double_nonneg a → a ≠ Infinity → ∃ q, a = Fin q.
Proof. destruct a; [eauto | done | done]. Qed.

Lemma double_nonneg_zero : double_nonneg (Fin 0%Q).
Proof. split; [apply Qle_refl | reflexivity]. Qed.

(** *** Powers of two *)

Lemma pow2_pos e : (0 < pow2 e)%Q.
Proof. apply Qpower_0_lt. reflexivity. Qed.

Lemma pow2_add a b : (pow2 (a + b) == pow2 a * pow2 b)%Q.
Proof. apply Qpower_plus. discriminate. Qed.

Lemma pow2_le a b : (a <= b)%Z → (pow2 a <= pow2 b)%Q.
Proof. intros. apply Qpower_le_compat_l; [done|discriminate]. Qed.

Lemma pow2_lt a b : (a < b)%Z → (pow2 a < pow2 b)%Q.
Proof. intros. apply Qpower_lt_compat_l; [done|reflexivity]. Qed.

Lemma pow2_lt_inv a b : (pow2 a < pow2 b)%Q → (a < b)%Z.
Proof. intros. apply (Qpower_lt_compat_l_inv 2); [done|reflexivity]. Qed.

Lemma pow2_Z a : (0 <= a)%Z → (pow2 a == inject_Z (2 ^ a))%Q.
Proof. intros. symmetry. apply (Zpower_Qpower 2 a). done. Qed.

Lemma pow2_succ a : (pow2 (a + 1) == 2 * pow2 a)%Q.
Proof. rewrite pow2_add. change (pow2 1) with 2%Q. ring. Qed.

Lemma pow2_pred a : (2 * pow2 (a - 1) == pow2 a)%Q.
Proof. rewrite <- pow2_succ. replace (a - 1 + 1)%Z with a by lia. reflexivity. Qed.

Lemma binade_spec q :
  (0 < q)%Q → (pow2 (binade q) <= q)%Q ∧ (q < pow2 (binade q + 1))%Q.
Proof.
  intros Hq. unfold binade.
  destruct q as [n d]. cbn [Qnum Qden].
  assert (Hn : (0 < n)%Z).
  { unfold Qlt in Hq. cbn in Hq. lia. }
  pose proof (Z.log2_spec n Hn) as [Ha1 Ha2].
  pose proof (Z.log2_spec (Z.pos d) (Pos2Z.is_pos d)) as [Hb1 Hb2].
  pose proof (Z.log2_nonneg n) as Ha0.
  pose proof (Z.log2_nonneg (Z.pos d)) as Hb0.
  set (a := Z.log2 n) in *. set (b := Z.log2 (Z.pos d)) in *.
  assert (HN : (pow2 a <= inject_Z n)%Q ∧ (inject_Z n < 2 * pow2 a)%Q).
  { rewrite <- pow2_succ, !pow2_Z by lia. rewrite <- Zle_Qle, <- Zlt_Qlt.
    split; [done|]. replace (a + 1)%Z with (Z.succ a) by lia. done. }
  assert (HD : (pow2 b <= inject_Z (Z.pos d))%Q ∧ (inject_Z (Z.pos d) < 2 * pow2 b)%Q).
  { rewrite <- pow2_succ, !pow2_Z by lia. rewrite <- Zle_Qle, <- Zlt_Qlt.
    split; [done|]. replace (b + 1)%Z with (Z.succ b) by lia. done. }
  assert (HE : (pow2 (a - b) * pow2 b == pow2 a)%Q).
  { rewrite <- pow2_add. replace (a - b + b)%Z with a by lia. reflexivity. }
  assert (Hq' : ((n # d) * inject_Z (Z.pos d) == inject_Z n)%Q).
  { rewrite (Qmake_Qdiv n d). field. discriminate. }
  pose proof (pow2_pos (a - b)) as HE0. pose proof (pow2_pos b) as HB0.
  pose proof (pow2_succ (a - b)) as Hs. pose proof (pow2_pred (a - b)) as Hp.
  destruct HN as [HN1 HN2], HD as [HD1 HD2].
  assert (HD0 : (0 < inject_Z (Z.pos d))%Q) by (by rewrite <- (Zlt_Qlt 0)).
  destruct (Qle_bool (pow2 (a - b)) (n # d)) eqn:Hc.
  - apply Qle_bool_iff in Hc. split; [done|].
    set (E2 := pow2 (a - b + 1)) in *. set (E := pow2 (a - b)) in *.
    set (A := pow2 a) in *. set (B := pow2 b) in *.
    set (N := inject_Z n) in *. set (D := inject_Z (Z.pos d)) in *.
    set (q := n # d) in *. clearbody E2 E A B N D q.
    apply Qnot_le_lt. intros Hle.
    assert (q * D < 2 * E * D)%Q by nra. nra.
  - assert (Hc' : ((n # d) < pow2 (a - b))%Q).
    { apply Qnot_le_lt. intros Hle. apply Qle_bool_iff in Hle. congruence. }
    clear Hc. replace (a - b - 1 + 1)%Z with (a - b)%Z by lia. split; [|done].
    set (P := pow2 (a - b - 1)) in *. set (E := pow2 (a - b)) in *.
    set (A := pow2 a) in *. set (B := pow2 b) in *.
    set (N := inject_Z n) in *. set (D := inject_Z (Z.pos d)) in *.
    set (q := n # d) in *. clearbody P E A B N D q.
    apply Qnot_lt_le. intros Hlt.
    assert (E * D < 2 * q * D)%Q by nra. nra.
Qed.

Lemma binade_unique q e :
  (pow2 e <= q)%Q → (q < pow2 (e + 1))%Q → binade q = e.
Proof.
  intros H1 H2.
  assert (Hq : (0 < q)%Q) by (pose proof (pow2_pos e); lra).
  destruct (binade_spec q Hq) as [H3 H4].
  assert (binade q < e + 1)%Z by (apply pow2_lt_inv; lra).
  assert (e < binade q + 1)%Z by (apply pow2_lt_inv; lra).
  lia.
Qed.

Lemma binade_proper x y : (x == y)%Q → (0 < x)%Q → binade x = binade y.
Proof.
  intros Hxy Hx. destruct (binade_spec x Hx) as [H1 H2].
  symmetry. apply binade_unique; lra.
Qed.

Lemma binade_mono x y : (0 < x)%Q → (x <= y)%Q → (binade x <= binade y)%Z.
Proof.
  intros Hx Hxy.
  destruct (binade_spec x Hx) as [H1 _].
  destruct (binade_spec y) as [_ H2]; [lra|].
  assert (binade x < binade y + 1)%Z by (apply pow2_lt_inv; lra).
  lia.
Qed.

(** *** Rounding to the nearest integer, ties to even *)

Lemma round_half_even_proper x y : (x == y)%Q → round_half_even x = round_half_even y.
Proof.
  intros Hxy. unfold round_half_even.
  rewrite (Qfloor_comp x y Hxy).
  assert (Hc : (x - inject_Z (Qfloor y) ?= 1 # 2)%Q = (y - inject_Z (Qfloor y) ?= 1 # 2)%Q).
  { apply Qcompare_comp; [|reflexivity]. lra. }
  by rewrite Hc.
Qed.

Lemma round_half_even_Z k : round_half_even (inject_Z k) = k.
Proof.
  unfold round_half_even. rewrite Qfloor_Z.
  assert (Hc : (inject_Z k - inject_Z k ?= 1 # 2)%Q = Lt).
  { apply (proj1 (Qlt_alt _ _)). lra. }
  by rewrite Hc.
Qed.

Lemma round_half_even_bounds x :
  (Qfloor x <= round_half_even x <= Qfloor x + 1)%Z.
Proof.
  unfold round_half_even.
  destruct (x - inject_Z (Qfloor x) ?= 1 # 2)%Q; [destruct (Z.even (Qfloor x))| |]; lia.
Qed.

Lemma round_half_even_mono x y :
  (x <= y)%Q → (round_half_even x <= round_half_even y)%Z.
Proof.
  intros Hxy.
  pose proof (Qfloor_resp_le x y Hxy) as Hf.
  pose proof (round_half_even_bounds x) as Hx.
  pose proof (round_half_even_bounds y) as Hy.
  destruct (decide (Qfloor x = Qfloor y)) as [Heq|Hne]; [|lia].
  unfold round_half_even in *. rewrite Heq in *.
  destruct (x - inject_Z (Qfloor y) ?= 1 # 2)%Q eqn:Hcx;
    destruct (y - inject_Z (Qfloor y) ?= 1 # 2)%Q eqn:Hcy;
    try destruct (Z.even (Qfloor y)); try lia;
    try apply (proj2 (Qeq_alt _ _)) in Hcx; try apply (proj2 (Qlt_alt _ _)) in Hcx;
    try apply (proj2 (Qgt_alt _ _)) in Hcx;
    try apply (proj2 (Qeq_alt _ _)) in Hcy; try apply (proj2 (Qlt_alt _ _)) in Hcy;
    try apply (proj2 (Qgt_alt _ _)) in Hcy;
    pose proof (Qfloor_le x); pose proof (Qlt_floor x); rewrite Heq in *;
    lra.
Qed.

Lemma round_half_even_le x k : (x <= inject_Z k)%Q → (round_half_even x <= k)%Z.
Proof.
  intros H. rewrite <- (round_half_even_Z k). by apply round_half_even_mono.
Qed.

Lemma round_half_even_ge x k : (inject_Z k <= x)%Q → (k <= round_half_even x)%Z.
Proof.
  intros H. rewrite <- (round_half_even_Z k). by apply round_half_even_mono.
Qed.

Lemma pow2_le_inv a b : (pow2 a <= pow2 b)%Q → (a <= b)%Z.
Proof. intros. apply (Qpower_le_compat_l_inv 2); [done|reflexivity]. Qed.

Lemma pow2_sub a b : (pow2 (a - b) * pow2 b == pow2 a)%Q.
Proof. rewrite <- pow2_add. replace (a - b + b)%Z with a by lia. reflexivity. Qed.

Lemma scale_spec q g : (q / pow2 g * pow2 g == q)%Q.
Proof. field. pose proof (pow2_pos g). lra. Qed.

Lemma scale_le x y g : (x <= y)%Q → (x / pow2 g <= y / pow2 g)%Q.
Proof.
  intros Hxy. pose proof (scale_spec x g). pose proof (scale_spec y g).
  pose proof (pow2_pos g).
  set (u := (x / pow2 g)%Q) in *. set (v := (y / pow2 g)%Q) in *.
  set (p := pow2 g) in *. clearbody u v p.
  apply Qnot_lt_le. intros Hlt. nra.
Qed.

Lemma scale_pow2 a g : (g <= a)%Z → (pow2 a / pow2 g == inject_Z (2 ^ (a - g)))%Q.
Proof.
  intros Hga. rewrite <- pow2_Z by lia.
  pose proof (pow2_sub a g). pose proof (pow2_pos g).
  field_simplify_eq; [lra|lra].
Qed.

Lemma scale_Z m g g' :
  (g' <= g)%Z → (inject_Z m * pow2 g / pow2 g' == inject_Z (m * 2 ^ (g - g')))%Q.
Proof.
  intros Hg. rewrite inject_Z_mult, <- pow2_Z by lia.
  pose proof (pow2_sub g g'). pose proof (pow2_pos g').
  field_simplify_eq; [|lra].
  rewrite <- H. ring.
Qed.

Lemma spacing_ge q : (binade q - 52 <= spacing q)%Z ∧ (-1074 <= spacing q)%Z.
Proof. unfold spacing. lia. Qed.

Lemma round_half_even_small u : (0 <= u)%Q → (u < 1 # 2)%Q → round_half_even u = 0%Z.
Proof.
  intros H0 H1.
  assert (Hf : Qfloor u = 0%Z).
  { assert (0 <= Qfloor u)%Z by (change 0%Z with (Qfloor 0); by apply Qfloor_resp_le).
    assert (Qfloor u < 1)%Z; [|lia].
    rewrite Zlt_Qlt. eapply Qle_lt_trans; [apply Qfloor_le|].
    change (inject_Z 1) with 1%Q. lra. }
  unfold round_half_even. rewrite Hf.
  assert (Hc : (u - inject_Z 0 ?= 1 # 2)%Q = Lt).
  { apply (proj1 (Qlt_alt _ _)). change (inject_Z 0) with 0%Q. lra. }
  by rewrite Hc.
Qed.

Lemma scale_nonneg q g : (0 <= q)%Q → (0 <= q / pow2 g)%Q.
Proof.
  intros Hq. pose proof (scale_spec q g) as Hs. pose proof (pow2_pos g).
  set (u := (q / pow2 g)%Q) in *. set (p := pow2 g) in *. clearbody u p.
  apply Qnot_lt_le. intros Hneg. nra.
Qed.

(** *** Rounding to the nearest double *)

Lemma nearest_proper x y : (x == y)%Q → (0 < x)%Q → (nearest x == nearest y)%Q.
Proof.
  intros Hxy Hx. unfold nearest, spacing.
  rewrite <- (binade_proper x y Hxy Hx).
  rewrite (round_half_even_proper (x / _) (y / pow2 (Z.max (binade x - 52) (-1074)))).
  - reflexivity.
  - apply Qdiv_comp; [done|reflexivity].
Qed.

Lemma nearest_upper q : (0 < q)%Q → (nearest q <= pow2 (binade q + 1))%Q.
Proof.
  intros Hq. destruct (binade_spec q Hq) as [_ Hub].
  unfold nearest. set (g := spacing q).
  pose proof (pow2_pos g) as Hg.
  destruct (Z_le_gt_dec g (binade q + 1)) as [Hle|Hgt].
  - assert (Hm : (round_half_even (q / pow2 g) <= 2 ^ (binade q + 1 - g))%Z).
    { apply round_half_even_le. rewrite <- scale_pow2 by done.
      apply scale_le. lra. }
    rewrite Zle_Qle in Hm. rewrite <- scale_pow2 in Hm by done.
    pose proof (scale_spec (pow2 (binade q + 1)) g) as Hs.
    set (u := (pow2 (binade q + 1) / pow2 g)%Q) in *.
    set (m := inject_Z (round_half_even (q / pow2 g))) in *.
    set (P := pow2 (binade q + 1)) in *. set (p := pow2 g) in *.
    clearbody u m P p. nra.
  - rewrite round_half_even_small.
    + pose proof (pow2_pos (binade q + 1)). change (inject_Z 0) with 0%Q. lra.
    + apply scale_nonneg. lra.
    + pose proof (scale_spec q g) as Hs. pose proof (pow2_pred g) as Hp.
      assert (Hle : (pow2 (binade q + 1) <= pow2 (g - 1))%Q) by (apply pow2_le; lia).
      set (u := (q / pow2 g)%Q) in *. set (p := pow2 g) in *.
      set (P := pow2 (binade q + 1)) in *. set (p' := pow2 (g - 1)) in *.
      clearbody u p P p'. apply Qnot_le_lt. intros Hge. nra.
Qed.

Lemma nearest_lower q :
  (0 < q)%Q → (spacing q <= binade q)%Z → (pow2 (binade q) <= nearest q)%Q.
Proof.
  intros Hq Hg. destruct (binade_spec q Hq) as [Hlb _].
  unfold nearest. set (g := spacing q) in *.
  assert (Hm : (2 ^ (binade q - g) <= round_half_even (q / pow2 g))%Z).
  { apply round_half_even_ge. rewrite <- scale_pow2 by done. by apply scale_le. }
  rewrite Zle_Qle in Hm. rewrite <- scale_pow2 in Hm by done.
  pose proof (scale_spec (pow2 (binade q)) g) as Hs.
  pose proof (pow2_pos g).
  set (u := (pow2 (binade q) / pow2 g)%Q) in *.
  set (m := inject_Z (round_half_even (q / pow2 g))) in *.
  set (P := pow2 (binade q)) in *. set (p := pow2 g) in *.
  clearbody u m P p. nra.
Qed.

Lemma nearest_nonneg q : (0 < q)%Q → (0 <= nearest q)%Q.
Proof.
  intros Hq. unfold nearest.
  assert (Hm : (0 <= round_half_even (q / pow2 (spacing q)))%Z).
  { apply round_half_even_ge. apply scale_nonneg. lra. }
  rewrite Zle_Qle in Hm. pose proof (pow2_pos (spacing q)).
  change (inject_Z 0) with 0%Q in Hm. nra.
Qed.

Lemma nearest_mono x y : (0 < x)%Q → (x <= y)%Q → (nearest x <= nearest y)%Q.
Proof.
  intros Hx Hxy.
  assert (Hy : (0 < y)%Q) by lra.
  pose proof (binade_mono x y Hx Hxy) as Hb.
  destruct (decide (spacing x = spacing y)) as [Heq|Hne].
  - unfold nearest. rewrite Heq.
    pose proof (round_half_even_mono _ _ (scale_le x y (spacing y) Hxy)) as Hm.
    rewrite Zle_Qle in Hm. pose proof (pow2_pos (spacing y)). nra.
  - assert (Hb' : (binade x + 1 <= binade y)%Z) by (unfold spacing in *; lia).
    assert (Hg : (spacing y <= binade y)%Z) by (unfold spacing in *; lia).
    pose proof (nearest_upper x Hx). pose proof (nearest_lower y Hy Hg).
    pose proof (pow2_le _ _ Hb'). lra.
Qed.

Lemma nearest_idempotent q :
  (0 < q)%Q → (0 < nearest q)%Q → (nearest (nearest q) == nearest q)%Q.
Proof.
  intros Hq Hv.
  pose proof (nearest_upper q Hq) as Hub.
  destruct (binade_spec _ Hv) as [Hv1 Hv2].
  assert (Hbv : (binade (nearest q) <= binade q + 1)%Z) by (apply pow2_le_inv; lra).
  destruct (Z_le_gt_dec (spacing (nearest q)) (spacing q)) as [Hle|Hgt].
  - unfold nearest at 1.
    rewrite (round_half_even_proper _
      (inject_Z (round_half_even (q / pow2 (spacing q)) *
                 2 ^ (spacing q - spacing (nearest q))))).
    2:{ unfold nearest at 1. by apply scale_Z. }
    rewrite round_half_even_Z, <- scale_Z by done.
    apply scale_spec.
  - assert (Hbq : binade (nearest q) = (binade q + 1)%Z) by (unfold spacing in *; lia).
    assert (Hsp : spacing (nearest q) = (binade (nearest q) - 52)%Z)
      by (unfold spacing in *; lia).
    assert (Heq : (nearest q == pow2 (binade (nearest q)))%Q) by (rewrite Hbq in *; lra).
    pose proof (pow2_sub (binade (nearest q)) (spacing (nearest q))) as Hsub.
    replace (binade (nearest q) - spacing (nearest q))%Z with 52%Z in Hsub by lia.
    pose proof (pow2_Z 52 ltac:(lia)) as H52.
    pose proof (pow2_pos (spacing (nearest q))) as Hpos.
    unfold nearest at 1.
    rewrite (round_half_even_proper _ (inject_Z (2 ^ 52))).
    + rewrite round_half_even_Z.
      eapply Qeq_trans; [|apply Qeq_sym, Heq]. eapply Qeq_trans; [|apply Hsub].
      apply Qmult_comp; [apply Qeq_sym, H52|reflexivity].
    + apply (Qmult_inj_r _ _ (pow2 (spacing (nearest q)))); [lra|].
      eapply Qeq_trans; [apply scale_spec|]. eapply Qeq_trans; [apply Heq|].
      eapply Qeq_trans; [apply Qeq_sym, Hsub|].
      apply Qmult_comp; [apply H52|reflexivity].
Qed.

Lemma Qle_bool_proper x y x' y' :
  (x == x')%Q → (y == y')%Q → Qle_bool x y = Qle_bool x' y'.
Proof.
  intros Hx Hy. apply eq_true_iff_eq. rewrite !Qle_bool_iff. split; intros; lra.
Qed.

Lemma round_magnitude_proper x y :
  (x == y)%Q → (0 < x)%Q → round_magnitude x = round_magnitude y.
Proof.
  intros Hxy Hx. unfold round_magnitude.
  pose proof (nearest_proper x y Hxy Hx) as Hn.
  rewrite (Qle_bool_proper _ (nearest x) (pow2 1024) (nearest y)) by (done || reflexivity).
  by rewrite (Qred_complete _ _ Hn).
Qed.

Lemma round_double_proper x y : (x == y)%Q → round_double x = round_double y.
Proof.
  intros Hxy. unfold round_double.
  assert (Hc : (x ?= 0)%Q = (y ?= 0)%Q) by (apply Qcompare_comp; [done|reflexivity]).
  rewrite <- Hc. destruct (x ?= 0)%Q eqn:Hx; [done| |].
  - apply (proj2 (Qlt_alt _ _)) in Hx.
    rewrite (round_magnitude_proper (- x) (- y)); [done|lra|lra].
  - apply (proj2 (Qgt_alt _ _)) in Hx.
    rewrite (round_magnitude_proper x y); [done|lra|lra].
Qed.

Lemma round_double_zero x : (x == 0)%Q → round_double x = Fin 0.
Proof. intros Hx. by rewrite (round_double_proper x 0 Hx). Qed.

Lemma round_double_pos x :
  (0 < x)%Q →
  round_double x =
    if Qle_bool (pow2 1024) (nearest x) then Infinity else Fin (Qred (nearest x)).
Proof.
  intros Hx. unfold round_double.
  assert (Hc : (x ?= 0)%Q = Gt) by (apply (proj1 (Qgt_alt _ _)); lra).
  rewrite Hc. unfold round_magnitude. by destruct (Qle_bool _ _).
Qed.

Lemma round_double_mono x y :
  (0 <= x)%Q → (x <= y)%Q → num_le (round_double x) (round_double y).
Proof.
  intros Hx Hxy.
  destruct (Qlt_le_dec 0 x) as [Hx0|Hx0].
  - assert (Hy0 : (0 < y)%Q) by lra.
    pose proof (nearest_mono x y Hx0 Hxy) as Hn.
    rewrite (round_double_pos x Hx0), (round_double_pos y Hy0).
    destruct (Qle_bool (pow2 1024) (nearest x)) eqn:Hox;
      destruct (Qle_bool (pow2 1024) (nearest y)) eqn:Hoy; cbn; try done.
    + apply Qle_bool_iff in Hox.
      assert (Hoy' : Qle_bool (pow2 1024) (nearest y) = true) by (apply Qle_bool_iff; lra).
      congruence.
    + rewrite !Qred_correct. done.
  - rewrite (round_double_zero x) by lra.
    destruct (Qlt_le_dec 0 y) as [Hy0|Hy0].
    + rewrite (round_double_pos y Hy0).
      destruct (Qle_bool (pow2 1024) (nearest y)); cbn; [done|].
      rewrite Qred_correct. by apply nearest_nonneg.
    + rewrite (round_double_zero y) by lra. cbn. lra.
Qed.

Lemma round_double_nonneg x : (0 <= x)%Q → double_nonneg (round_double x).
Proof.
  intros Hx.
  destruct (Qlt_le_dec 0 x) as [Hx0|Hx0].
  - rewrite (round_double_pos x Hx0).
    destruct (Qle_bool (pow2 1024) (nearest x)) eqn:Hox; cbn; [done|].
    pose proof (nearest_nonneg x Hx0) as Hn.
    pose proof (Qred_correct (nearest x)) as Hr.
    split; [lra|].
    destruct (Qlt_le_dec 0 (nearest x)) as [Hn0|Hn0].
    + rewrite round_double_pos by lra.
      assert (He : (nearest (Qred (nearest x)) == nearest x)%Q).
      { eapply Qeq_trans; [apply nearest_proper; [exact Hr|lra]|].
        by apply nearest_idempotent. }
      rewrite (Qle_bool_proper (pow2 1024) _ (pow2 1024) (nearest x))
        by (done || reflexivity).
      rewrite Hox. f_equal. by apply Qred_complete.
    + rewrite round_double_zero by lra.
      f_equal. symmetry. apply (Qred_complete (nearest x) 0). lra.
  - rewrite (round_double_zero x) by lra. cbn. split; [lra|done].
Qed.

(** [round_double] on the sums that decide the examples below: 0.1 + 0.2
    is 0.30000000000000004, 1e16 + 1 is 1e16, 1e308 + 1e308 is [Infinity],
    and half of the least positive double is 0. *)
Example round_double_tenths :
  round_double ((3602879701896397 # 36028797018963968)
                + (3602879701896397 # 18014398509481984))
  = Fin (1351079888211149 # 4503599627370496).
Proof. vm_compute. reflexivity. Qed.

Example round_double_absorbs :
  round_double (inject_Z (10 ^ 16) + 1) = Fin (inject_Z (10 ^ 16)).
Proof. vm_compute. reflexivity. Qed.

Example round_double_ties_to_even :
  round_double (inject_Z (2 ^ 53) + 1) = Fin (inject_Z (2 ^ 53)) ∧
  round_double (inject_Z (2 ^ 53) + 3) = Fin (inject_Z (2 ^ 53 + 4)).
Proof. split; vm_compute; reflexivity. Qed.

Example round_double_overflows :
  round_double (inject_Z (5010420900022432 * 2 ^ 971)
                + inject_Z (5010420900022432 * 2 ^ 971)) = Infinity ∧
  round_double (inject_Z (2 ^ 1024 - 2 ^ 970 - 1))
  = Fin (inject_Z (2 ^ 1024 - 2 ^ 971)).
Proof. split; vm_compute; reflexivity. Qed.

Example round_double_underflows :
  round_double (1 # 2 ^ 1075) = Fin 0 ∧
  round_double (3 # 2 ^ 1076) = Fin (1 # 2 ^ 1074).
Proof. split; vm_compute; reflexivity. Qed.

(** *** Addition of doubles

    Adding a weight that is not negative keeps a sum a non-negative
    double, does not decrease it, and keeps the order of two sums. *)

Lemma num_add_nonneg a w :
  double_nonneg a → (0 <= w)%Q → double_nonneg (num_add a w).
Proof.
  destruct a as [q| |]; cbn; [|done..].
  intros [Hq _] Hw. apply round_double_nonneg. lra.
Qed.

Lemma num_add_ge a w :
  double_nonneg a → (0 <= w)%Q → num_le a (num_add a w).
Proof.
  destruct a as [q| |]; cbn; [|done..].
  intros [Hq Hr] Hw.
  pose proof (round_double_mono q (q + w) Hq ltac:(lra)) as Hm.
  by rewrite Hr in Hm.
Qed.

Lemma num_add_mono a b w :
  double_nonneg a → num_le a b → (0 <= w)%Q → num_le (num_add a w) (num_add b w).
Proof.
  destruct a as [x| |], b as [y| |]; cbn; try done.
  - intros [Hx _] Hxy Hw. apply round_double_mono; lra.
  - intros _ _ _. by destruct (round_double (x + w)).
Qed.
(** ** The [Set] of unvisited nodes *)

Lemma elem_of_set_add {A} `{EqDecision A} (x y : A) (s : list A) :
  x ∈ set_add y s ↔ x = y ∨ x ∈ s.
Proof.
  unfold set_add. case_bool_decide.
  - split; [auto | intros [-> | ?]; done].
  - rewrite elem_of_app, list_elem_of_singleton. tauto.
Qed.

Lemma NoDup_set_add {A} `{EqDecision A} (y : A) (s : list A) :
  NoDup s → NoDup (set_add y s).
Proof.
  intros Hs. unfold set_add. case_bool_decide; [done |].
  apply NoDup_app. split_and!; [done | | apply NoDup_singleton].
  intros x Hx Hy. apply list_elem_of_singleton in Hy. by subst.
Qed.

Lemma elem_of_set_delete x y s : x ∈ set_delete y s ↔ x ≠ y ∧ x ∈ s.
Proof. unfold set_delete. by rewrite list_elem_of_filter. Qed.

Lemma NoDup_set_delete y s : NoDup s → NoDup (set_delete y s).
Proof. apply NoDup_filter. Qed.

Lemma length_set_delete y s :
  y ∈ s → (length (set_delete y s) < length s)%nat.
Proof.
  unfold set_delete. induction s as [| a s IH]; intros Hy.
  - by apply elem_of_nil in Hy.
  - rewrite filter_cons. case_decide as Ha.
    + simpl. apply elem_of_cons in Hy as [-> | Hy]; [done |].
      specialize (IH Hy). lia.
    + simpl. pose proof (length_filter (λ z, z ≠ y) s). lia.
Qed.

(** ** Initialisation (lines 10-20) *)

Lemma init_fold_spec (ns : list node) (st : dstate) :
  let st' := fold_left init_node ns st in
  (NoDup (unvisited st) → NoDup (unvisited st')) ∧
  (∀ v, v ∈ unvisited st' ↔ v ∈ unvisited st ∨ v ∈ map node_id ns) ∧
  (∀ v, distances st' !! v =
        if bool_decide (v ∈ map node_id ns) then Some Infinity
        else distances st !! v) ∧
  (∀ v, previous st' !! v =
        if bool_decide (v ∈ map node_id ns) then Some None
        else previous st !! v).
Proof.
  revert st. induction ns as [| n ns IH]; intros st; simpl.
  - split_and!; [done | | done | done].
    intros v. rewrite elem_of_nil. tauto.
  - destruct (IH (init_node st n)) as (IH1 & IH2 & IH3 & IH4).
    split_and!.
    + intros Hnd. apply IH1. simpl. by apply NoDup_set_add.
    + intros v. rewrite IH2. simpl. rewrite elem_of_set_add, elem_of_cons. tauto.
    + intros v. rewrite IH3. simpl. destruct (decide (v = node_id n)) as [-> | Hne].
      * rewrite lookup_insert_eq.
        rewrite (bool_decide_eq_true_2 (node_id n ∈ node_id n :: map node_id ns))
          by (apply elem_of_cons; by left).
        by case_bool_decide.
      * rewrite lookup_insert_ne by done.
        rewrite (bool_decide_ext (v ∈ node_id n :: map node_id ns)
                                 (v ∈ map node_id ns)); [done |].
        rewrite elem_of_cons. tauto.
    + intros v. rewrite IH4. simpl. destruct (decide (v = node_id n)) as [-> | Hne].
      * rewrite lookup_insert_eq.
        rewrite (bool_decide_eq_true_2 (node_id n ∈ node_id n :: map node_id ns))
          by (apply elem_of_cons; by left).
        by case_bool_decide.
      * rewrite lookup_insert_ne by done.
        rewrite (bool_decide_ext (v ∈ node_id n :: map node_id ns)
                                 (v ∈ map node_id ns)); [done |].
        rewrite elem_of_cons. tauto.
Qed.

Lemma init_unvisited g s v : v ∈ unvisited (init_state g s) ↔ v ∈ node_ids g.
Proof.
  unfold init_state. simpl.
  destruct (init_fold_spec (graph_nodes g) (mkState [] ∅ ∅)) as (_ & H & _).
  rewrite H. simpl. rewrite elem_of_nil. unfold node_ids. tauto.
Qed.

Lemma init_nodup g s : NoDup (unvisited (init_state g s)).
Proof.
  unfold init_state. simpl.
  destruct (init_fold_spec (graph_nodes g) (mkState [] ∅ ∅)) as (H & _).
  apply H. simpl. apply NoDup_nil_2.
Qed.

Lemma init_distances g s v :
  distances (init_state g s) !! v =
  if decide (v = s) then Some (Fin 0%Q)
  else if bool_decide (v ∈ node_ids g) then Some Infinity else None.
Proof.
  unfold init_state. simpl.
  destruct (init_fold_spec (graph_nodes g) (mkState [] ∅ ∅)) as (_ & _ & H & _).
  case_decide as Hv.
  - subst. by rewrite lookup_insert_eq.
  - rewrite lookup_insert_ne by done. rewrite H. simpl. unfold node_ids.
    by rewrite lookup_empty.
Qed.

Lemma init_previous g s v :
  previous (init_state g s) !! v =
  if bool_decide (v ∈ node_ids g) then Some None else None.
Proof.
  unfold init_state. simpl.
  destruct (init_fold_spec (graph_nodes g) (mkState [] ∅ ∅)) as (_ & _ & _ & H).
  rewrite H. simpl. unfold node_ids. by rewrite lookup_empty.
Qed.

Lemma init_length g s :
  (length (unvisited (init_state g s)) <= length (graph_nodes g))%nat.
Proof.
  unfold init_state. simpl.
  assert (∀ ns st, length (unvisited (fold_left init_node ns st))
                   <= length (unvisited st) + length ns)%nat as H.
  { induction ns as [| n ns IH]; intros st; simpl; [lia |].
    specialize (IH (init_node st n)). simpl in IH.
    assert (length (set_add (node_id n) (unvisited st))
            <= S (length (unvisited st)))%nat.
    { unfold set_add. case_bool_decide; [lia |]. rewrite length_app. simpl. lia. }
    lia. }
  specialize (H (graph_nodes g) (mkState [] ∅ ∅)). simpl in H. lia.
Qed.

(** ** Choice of the current node (lines 25-33) *)

Lemma pick_min_ok dist seen acc y :
  scan_ok dist seen acc → scan_ok dist (seen ++ [y]) (pick_min dist acc y).
Proof.
  intros [Hlb Hc]. unfold pick_min.
  destruct (dist !! y) as [d |] eqn:Hy.
  - destruct (num_lt d (snd acc)) eqn:Hlt.
    + split; simpl.
      * intros z dz Hz Hdz. apply elem_of_app in Hz as [Hz | Hz].
        -- eapply num_le_trans; [by apply num_lt_le | by eapply Hlb].
        -- apply list_elem_of_singleton in Hz. subst z.
           assert (dz = d) as -> by congruence. apply num_le_refl.
      * split_and!; [apply elem_of_app; right; by apply list_elem_of_singleton
                    | done | by eapply num_lt_finite].
    + split.
      * intros z dz Hz Hdz. apply elem_of_app in Hz as [Hz | Hz]; [by eapply Hlb |].
        apply list_elem_of_singleton in Hz. subst z.
        assert (dz = d) as -> by congruence. by apply num_lt_false_le.
      * destruct (fst acc); [| done].
        destruct Hc as (? & ? & ?). split_and!; [apply elem_of_app; by left | done..].
  - split.
    + intros z dz Hz Hdz. apply elem_of_app in Hz as [Hz | Hz]; [by eapply Hlb |].
      apply list_elem_of_singleton in Hz. subst z. congruence.
    + destruct (fst acc); [| done].
      destruct Hc as (? & ? & ?). split_and!; [apply elem_of_app; by left | done..].
Qed.

Lemma pick_fold_ok dist l : ∀ seen acc,
  scan_ok dist seen acc → scan_ok dist (seen ++ l) (fold_left (pick_min dist) l acc).
Proof.
  induction l as [| y l IH]; intros seen acc H; simpl.
  - by rewrite app_nil_r.
  - replace (seen ++ y :: l) with ((seen ++ [y]) ++ l) by (by rewrite <- app_assoc).
    apply IH. by apply pick_min_ok.
Qed.

Lemma select_min_ok dist unv : scan_ok dist unv (select_min dist unv).
Proof.
  apply (pick_fold_ok dist unv [] (None, Infinity)).
  split; simpl; [| done]. intros y dy Hy. by apply elem_of_nil in Hy.
Qed.

Lemma select_min_some dist unv u :
  fst (select_min dist unv) = Some u →
  u ∈ unv ∧ ∃ d, dist !! u = Some d ∧ d ≠ Infinity ∧
    ∀ y dy, y ∈ unv → dist !! y = Some dy → num_le d dy.
Proof.
  intros Hu. destruct (select_min_ok dist unv) as [Hlb Hc].
  rewrite Hu in Hc. destruct Hc as (Hin & Hd & Hfin).
  split; [done |]. by exists (snd (select_min dist unv)).
Qed.

Lemma select_min_none dist unv :
  fst (select_min dist unv) = None →
  ∀ y dy, y ∈ unv → dist !! y = Some dy → dy = Infinity.
Proof.
  intros Hu y dy Hy Hdy. destruct (select_min_ok dist unv) as [Hlb Hc].
  rewrite Hu in Hc. specialize (Hlb y dy Hy Hdy). rewrite Hc in Hlb.
  by apply num_le_infinity.
Qed.

(** ** Path reconstruction (lines 64-69) *)

Lemma chain_last prev v p : chain prev v p → last p = Some v.
Proof. induction 1; [done | by rewrite last_snoc]. Qed.

Lemma chain_agree prev prev' v p :
  chain prev v p → (∀ x, x ∈ p → prev' !! x = prev !! x) → chain prev' v p.
Proof.
  induction 1 as [v Hv | v u p Hv Hc IH]; intros Hag.
  - apply chain_root. rewrite Hag; [done | by apply list_elem_of_singleton].
  - apply chain_link with u.
    + rewrite Hag; [done |]. apply elem_of_app. right. by apply list_elem_of_singleton.
    + apply IH. intros x Hx. apply Hag. apply elem_of_app. by left.
Qed.

Lemma reconstruct_chain prev v p :
  chain prev v p →
  ∀ fuel acc, (length p <= fuel)%nat →
    reconstruct fuel prev (Ref v) acc = Some (p ++ acc).
Proof.
  induction 1 as [v Hv | v u p Hv Hc IH]; intros fuel acc Hf.
  - destruct fuel as [| f]; [simpl in Hf; lia |].
    simpl. unfold get_previous. rewrite Hv. by destruct f.
  - rewrite length_app in Hf. simpl in Hf.
    destruct fuel as [| f]; [lia |].
    simpl. unfold get_previous. rewrite Hv.
    rewrite IH by lia. by rewrite <- app_assoc.
Qed.

Lemma reconstruct_undefined prev v fuel acc :
  prev !! v = None → reconstruct fuel prev (Ref v) acc = None.
Proof.
  intros Hv. destruct fuel as [| f]; [done |].
  simpl. unfold get_previous. rewrite Hv. by destruct f.
Qed.

(** ** Paths and walks *)

Lemma is_path_head_in g p es x : is_path g p es → head p = Some x → x ∈ node_ids g.
Proof. destruct p as [| a p]; simpl; [done |]. intros [Ha _] [= <-]. done. Qed.

Lemma is_path_snoc g p es x y e :
  is_path g p es → last p = Some x → e ∈ graph_edges g → joins e x y →
  y ∈ node_ids g → is_path g (p ++ [y]) (es ++ [e]).
Proof.
  revert es. induction p as [| a p IH]; intros es Hp Hl He Hj Hy; [done |].
  destruct p as [| b p].
  - simpl in Hp. destruct Hp as [Ha ->]. simpl in Hl. injection Hl as ->.
    simpl. done.
  - destruct es as [| e0 es]; [simpl in Hp; tauto |].
    destruct Hp as (Ha & He0 & Hj0 & Hp).
    change (is_path g (a :: (b :: p) ++ [y]) (e0 :: es ++ [e])).
    split; [done |]. split; [done |]. split; [done |].
    apply IH; done.
Qed.

Lemma path_cost_snoc es e :
  path_cost (es ++ [e]) = num_add (path_cost es) (edge_weight e).
Proof. unfold path_cost. by rewrite fold_left_app. Qed.

Lemma path_reach_from g s t q : ∀ es x W0,
  reach g s x W0 → is_path g q es → head q = Some x → last q = Some t →
  reach g s t (fold_left (λ acc e, num_add acc (edge_weight e)) es W0).
Proof.
  induction q as [| a q IH]; intros es x W0 Hr Hp Hh Hl; [done |].
  simpl in Hh. injection Hh as ->.
  destruct q as [| b q].
  - simpl in Hp. destruct Hp as [_ ->]. simpl in Hl. injection Hl as ->. done.
  - destruct es as [| e es]; [simpl in Hp; tauto |].
    destruct Hp as (Hx & He & Hj & Hp).
    assert (b ∈ node_ids g) as Hb by (eapply is_path_head_in; [exact Hp | done]).
    simpl. apply (IH es b); [by eapply reach_step | done..].
Qed.

Lemma path_reach g s t q es :
  is_path g q es → head q = Some s → last q = Some t → reach g s t (path_cost es).
Proof.
  intros Hp Hh Hl. apply (path_reach_from g s t q es s); [apply reach_start | done..].
Qed.

Lemma reach_in g s v W : s ∈ node_ids g → reach g s v W → v ∈ node_ids g.
Proof. intros Hs. by destruct 1. Qed.

(** ** The loop invariant *)

Lemma neighbor_of_joins u e y : joins e u y → neighbor_of u e = Some y.
Proof.
  unfold neighbor_of. intros [[Hf Ht] | [Ht Hf]].
  - rewrite Hf, Nat.eqb_refl. by rewrite Ht.
  - destruct (Nat.eqb_spec (edge_from e) u) as [Heq | Hne].
    + congruence.
    + rewrite Ht, Nat.eqb_refl. by rewrite Hf.
Qed.

Lemma neighbor_of_some u e y : neighbor_of u e = Some y → joins e u y.
Proof.
  unfold neighbor_of, joins.
  destruct (Nat.eqb_spec (edge_from e) u); [intros [= <-]; tauto |].
  destruct (Nat.eqb_spec (edge_to e) u); [intros [= <-]; tauto | done].
Qed.

Section DijkstraInvariant.

Variables (g : graph) (s : nat).
Hypothesis Hnonneg : nonneg_weights g.
Hypothesis Hs : s ∈ node_ids g.

Lemma weight_nonneg e : e ∈ graph_edges g → (0 <= edge_weight e)%Q.
Proof. intros He. unfold nonneg_weights in Hnonneg. by eapply Forall_forall in Hnonneg. Qed.

(** The cost of a walk is a non-negative double or [Infinity]. *)
Lemma reach_double v W : reach g s v W → double_nonneg W.
Proof.
  induction 1 as [| x y e W Hr IH He Hj Hy]; [apply double_nonneg_zero |].
  apply num_add_nonneg; [done | by apply weight_nonneg].
Qed.

Lemma inv_init : loop_inv g s None (init_state g s).
Proof.
  unfold loop_inv. constructor.
  - apply init_nodup.
  - intros v. by rewrite init_unvisited.
  - intros v Hv. rewrite init_distances. case_decide; [done |].
    by rewrite bool_decide_eq_true_2.
  - intros _ v. by rewrite init_unvisited.
  - rewrite init_distances, init_previous. rewrite decide_True by done.
    by rewrite bool_decide_eq_true_2.
  - intros v d. rewrite init_distances.
    case_decide; [intros [= <-]; apply double_nonneg_zero |].
    case_bool_decide; [by intros [= <-] | done].
  - intros v Hv Hne. left. rewrite init_distances, init_previous.
    rewrite decide_False by done. by rewrite bool_decide_eq_true_2.
  - intros v [Hv Hn]. by rewrite init_unvisited in Hn.
  - intros x e y [Hx Hn]. by rewrite init_unvisited in Hn.
  - intros x y dx dy [Hx Hn]. by rewrite init_unvisited in Hn.
  - done.
Qed.

Lemma visited_finite c rest unv dist prev v :
  Inv g s c rest unv dist prev → visited g unv v → ∃ d, dist !! v = Some (Fin d).
Proof.
  intros HI Hv.
  destruct (inv_chain _ _ _ _ _ _ _ HI v Hv) as (d & _ & _ & H & _). eauto.
Qed.

Lemma inv_relax u e0 rest unv dist prev :
  Inv g s (Some u) (e0 :: rest) unv dist prev →
  visited g unv u → e0 ∈ graph_edges g →
  Inv g s (Some u) rest unv
      (fst (relax u unv (dist, prev) e0)) (snd (relax u unv (dist, prev) e0)).
Proof.
  intros HI Hu He0.
  destruct (visited_finite _ _ _ _ _ u HI Hu) as [du Hdu].
  pose proof (weight_nonneg e0 He0) as Hw.
  destruct HI as [Hnd Hsub Hdom Hfresh Hsrc Hdbl Hlab Hch Hrel Hmono Hcur].
  pose proof (Hdbl u _ Hdu) as Hgu.
  pose proof (num_add_nonneg _ _ Hgu Hw) as Hgalt.
  pose proof (num_add_ge _ _ Hgu Hw) as Hge.
  set (alt := num_add (Fin du) (edge_weight e0)) in *.
  (* what is left to show when the tables do not change *)
  assert ((∀ y, joins e0 u y → y ∈ node_ids g →
             ∃ dy, dist !! y = Some dy ∧ num_le dy alt) →
          Inv g s (Some u) rest unv dist prev) as Hsame.
  { intros Hnew. constructor; try done.
    intros x e y Hx He Hj Hy.
    destruct (Hrel x e y Hx He Hj Hy) as [Hl | [Hc Hin]]; [by left |].
    apply elem_of_cons in Hin as [-> | Hin]; [| by right].
    injection Hc as <-. left.
    destruct (Hnew y Hj Hy) as (dy & Hdy & Hle). exists (Fin du), dy. done. }
  unfold relax. simpl.
  destruct (neighbor_of u e0) as [y |] eqn:Hn.
  2: { apply Hsame. intros y Hj _. apply neighbor_of_joins in Hj. congruence. }
  case_bool_decide as Hyu.
  2: { apply Hsame. intros y' Hj Hy'. apply neighbor_of_joins in Hj.
       assert (y' = y) as -> by congruence.
       destruct (Hdom y Hy') as [dy Hdy]. exists dy. split; [done |].
       eapply num_le_trans; [eapply (Hcur u y (Fin du) dy); done | done]. }
  assert (y ∈ node_ids g) as Hy by by apply Hsub.
  destruct (Hdom y Hy) as [dn Hdy]. rewrite Hdu, Hdy. fold alt.
  destruct (num_lt alt dn) eqn:Hlt.
  2: { apply Hsame. intros y' Hj Hy'. apply neighbor_of_joins in Hj.
       assert (y' = y) as -> by congruence.
       exists dn. split; [done |]. by apply num_lt_false_le. }
  cbn [fst snd].
  destruct (double_nonneg_finite alt Hgalt (num_lt_finite _ _ Hlt)) as [qa Hqa].
  assert (∀ x, visited g unv x → x ≠ y) as Hvy.
  { intros x [_ Hx] ->. done. }
  assert (y ≠ s) as Hys.
  { intros ->. destruct Hu as [Hu1 Hu2]. apply Hu2. by apply Hfresh. }
  pose proof (Hvy u Hu) as Huy.
  constructor.
  - done.
  - done.
  - intros v Hv. destruct (decide (v = y)) as [-> |].
    + rewrite lookup_insert_eq. eauto.
    + rewrite lookup_insert_ne by done. by apply Hdom.
  - done.
  - rewrite !lookup_insert_ne by done. done.
  - intros v d. destruct (decide (v = y)) as [-> |].
    + rewrite lookup_insert_eq. by intros [= <-].
    + rewrite lookup_insert_ne by done. apply Hdbl.
  - intros v Hv Hvs. destruct (decide (v = y)) as [-> | Hne].
    + right. exists u, (Fin du), e0, qa. rewrite !lookup_insert_eq.
      rewrite lookup_insert_ne by done.
      split_and!; try done; [by apply neighbor_of_some | by rewrite <- Hqa].
    + rewrite !lookup_insert_ne by done.
      destruct (Hlab v Hv Hvs)
        as [Hl | (u' & du' & e' & q' & H1 & H2 & H3 & H4 & H5 & H6 & H7)];
        [by left | right].
      exists u', du', e', q'. rewrite lookup_insert_ne by (apply not_eq_sym; by apply Hvy).
      done.
  - intros v Hv.
    destruct (Hch v Hv) as (d & p & es & H1 & H2 & H3 & H4 & H5 & H6 & H7 & H8).
    exists d, p, es. rewrite lookup_insert_ne by (apply not_eq_sym; by apply Hvy).
    split_and!; try done.
    eapply chain_agree; [exact H2 |]. intros x Hx.
    rewrite lookup_insert_ne; [done |]. apply not_eq_sym, Hvy. by apply H4.
  - intros x e y' Hx He Hj Hy'.
    pose proof (Hvy x Hx) as Hxy.
    destruct (Hrel x e y' Hx He Hj Hy') as [(dx & dy & H1 & H2 & H3) | [Hc Hin]].
    + left. destruct (decide (y' = y)) as [-> | Hne].
      * exists dx, alt.
        rewrite lookup_insert_eq, lookup_insert_ne by done.
        split_and!; try done.
        assert (dy = dn) as -> by congruence.
        eapply num_le_trans; [by apply num_lt_le | done].
      * exists dx, dy. rewrite !lookup_insert_ne by done. done.
    + apply elem_of_cons in Hin as [-> | Hin]; [| by right].
      injection Hc as <-. left. apply neighbor_of_joins in Hj.
      assert (y' = y) as -> by congruence.
      exists (Fin du), alt.
      rewrite lookup_insert_eq, lookup_insert_ne by done.
      split_and!; try done. apply num_le_refl.
  - intros x y' dx dy Hx Hy' Hdx Hdy'.
    rewrite lookup_insert_ne in Hdx by (apply not_eq_sym; by apply Hvy).
    destruct (decide (y' = y)) as [-> | Hne].
    + rewrite lookup_insert_eq in Hdy'. injection Hdy' as <-.
      eapply num_le_trans; [eapply (Hcur u x (Fin du) dx); done | done].
    + rewrite lookup_insert_ne in Hdy' by done. by eapply Hmono.
  - intros u' y' du' dy' [= <-] Hy' Hdu' Hdy'.
    rewrite lookup_insert_ne in Hdu' by done.
    rewrite lookup_insert_ne in Hdy' by (apply not_eq_sym; by apply Hvy).
    by eapply Hcur.
Qed.

Lemma inv_relax_fold u unv : ∀ es dist prev,
  (∀ e, e ∈ es → e ∈ graph_edges g) → visited g unv u →
  Inv g s (Some u) es unv dist prev →
  Inv g s (Some u) [] unv
      (fst (fold_left (relax u unv) es (dist, prev)))
      (snd (fold_left (relax u unv) es (dist, prev))).
Proof.
  induction es as [| e0 es IH]; intros dist prev Hes Hu HI; [done |].
  simpl. destruct (relax u unv (dist, prev) e0) as [dist' prev'] eqn:Hr.
  apply IH; [intros e He; apply Hes; by right | done |].
  pose proof (inv_relax u e0 es unv dist prev HI Hu) as H.
  rewrite Hr in H. apply H. apply Hes. by left.
Qed.

(** The state just after [unvisited.delete(currentNode)]. *)
Lemma inv_select c u unv dist prev :
  Inv g s c [] unv dist prev → fst (select_min dist unv) = Some u →
  Inv g s (Some u) (graph_edges g) (set_delete u unv) dist prev ∧
  visited g (set_delete u unv) u.
Proof.
  intros HI Hsel.
  destruct (select_min_some dist unv u Hsel) as (Huin & mu & Hdu & Hfin & Hmin).
  destruct HI as [Hnd Hsub Hdom Hfresh Hsrc Hdbl Hlab Hch Hrel Hmono Hcur].
  assert (visited g (set_delete u unv) u) as Hvu.
  { split; [by apply Hsub |]. rewrite elem_of_set_delete. tauto. }
  assert (∀ x, visited g (set_delete u unv) x → x = u ∨ visited g unv x) as Hold.
  { intros x [Hx Hn]. destruct (decide (x = u)) as [-> | Hne]; [by left |].
    right. split; [done |]. intros Hin. apply Hn. by apply elem_of_set_delete. }
  assert (∀ x, visited g unv x → visited g (set_delete u unv) x) as Hnew.
  { intros x [Hx Hn]. split; [done |]. rewrite elem_of_set_delete. tauto. }
  assert (s ∉ set_delete u unv) as Hsd.
  { rewrite elem_of_set_delete. intros [Hne Hin].
    destruct (Hlab u (Hsub u Huin) (not_eq_sym Hne))
      as [[Hinf _] | (u' & _ & _ & _ & _ & [Hu' Hn'] & _)]; [congruence |].
    apply Hn'. by apply Hfresh. }
  split; [| done]. constructor.
  - by apply NoDup_set_delete.
  - intros v Hv. apply elem_of_set_delete in Hv as [_ Hv]. by apply Hsub.
  - done.
  - done.
  - done.
  - done.
  - intros v Hv Hvs.
    destruct (Hlab v Hv Hvs) as [Hl | (u' & du' & e' & q' & H1 & H2 & H3)]; [by left |].
    right. exists u', du', e', q'. split_and!; try tauto. by apply Hnew.
  - intros v Hv. destruct (Hold v Hv) as [-> | Hv'].
    + destruct (decide (u = s)) as [-> | Hus].
      * exists 0%Q, [s], []. destruct Hsrc as [Hs1 Hs2].
        split_and!; try done.
        -- by apply chain_root.
        -- apply NoDup_singleton.
        -- intros x Hx. apply list_elem_of_singleton in Hx. by subst.
      * destruct (Hlab u (Hsub u Huin) Hus)
          as [[Hinf _] | (u' & du' & e' & q' & H1 & H2 & H3 & H4 & H5 & H6 & H7)];
          [congruence |].
        destruct (Hch u' H2) as (d & p & es & C1 & C2 & C3 & C4 & C5 & C6 & C7 & C8).
        assert (du' = Fin d) as -> by congruence.
        exists q', (p ++ [u]), (es ++ [e']).
        split_and!.
        -- done.
        -- by apply chain_link with u'.
        -- apply NoDup_app. split_and!; [done | | apply NoDup_singleton].
           intros x Hx Hxu. apply list_elem_of_singleton in Hxu. subst x.
           destruct (C4 u Hx) as [_ Hn]. done.
        -- intros x Hx. apply elem_of_app in Hx as [Hx | Hx].
           ++ apply Hnew. by apply C4.
           ++ apply list_elem_of_singleton in Hx. by subst.
        -- destruct p; [done | done].
        -- by rewrite last_snoc.
        -- eapply is_path_snoc; try done. by apply Hsub.
        -- by rewrite path_cost_snoc, C8.
    + destruct (Hch v Hv') as (d & p & es & C1 & C2 & C3 & C4 & C5 & C6 & C7 & C8).
      exists d, p, es. split_and!; try done. intros x Hx. apply Hnew. by apply C4.
  - intros x e y Hx He Hj Hy. destruct (Hold x Hx) as [-> | Hx'].
    + right. done.
    + destruct (Hrel x e y Hx' He Hj Hy) as [Hl | [_ Hin]]; [by left |].
      by apply elem_of_nil in Hin.
  - intros x y dx dy Hx Hy Hdx Hdy.
    apply elem_of_set_delete in Hy as [Hyu Hy].
    destruct (Hold x Hx) as [-> | Hx'].
    + assert (dx = mu) as -> by congruence. by eapply Hmin.
    + by eapply Hmono.
  - intros u' y du' dy [= <-] Hy Hdu' Hdy.
    destruct (Hold y Hy) as [-> | Hy'].
    + assert (dy = du') as -> by congruence. apply num_le_refl.
    + by eapply Hmono.
Qed.

Lemma inv_visit c u st :
  loop_inv g s c st → fst (select_min (distances st) (unvisited st)) = Some u →
  loop_inv g s (Some u) (visit g u st).
Proof.
  intros HI Hsel. destruct (inv_select c u _ _ _ HI Hsel) as [HI' Hu].
  unfold loop_inv, visit. cbn [unvisited distances previous].
  by apply inv_relax_fold.
Qed.

(** Every walk from the source costs at least the label of the node it
    ends in, if that node was visited, and at least the minimum [m] over the
    unvisited nodes otherwise. *)
Lemma walk_lower_bound c st m v W :
  loop_inv g s c st →
  (∀ y dy, y ∈ unvisited st → distances st !! y = Some dy → num_le m dy) →
  (m = Infinity ∨ ∃ u0, u0 ∈ unvisited st ∧ distances st !! u0 = Some m) →
  reach g s v W →
  (visited g (unvisited st) v →
     ∃ d, distances st !! v = Some d ∧ num_le d W) ∧
  (v ∈ unvisited st → num_le m W).
Proof.
  intros HI Hlb Hatt Hr.
  destruct HI as [Hnd Hsub Hdom Hfresh Hsrc Hdbl Hlab Hch Hrel Hmono Hcur].
  induction Hr as [| x y e W Hr IH He Hj Hy].
  - destruct Hsrc as [Hs0 _]. split.
    + intros _. exists (Fin 0%Q). split; [done | apply num_le_refl].
    + intros Hin. by eapply Hlb.
  - pose proof (weight_nonneg e He) as Hw.
    pose proof (reach_double x W Hr) as HW.
    pose proof (num_add_ge W _ HW Hw) as Hge.
    destruct IH as [IHv IHu].
    assert (x ∈ node_ids g) as Hx by exact (reach_in g s x W Hs Hr).
    destruct (decide (x ∈ unvisited st)) as [Hxu | Hxv].
    + (* the walk was outside the visited set already *)
      specialize (IHu Hxu).
      assert (num_le m (num_add W (edge_weight e))) as Hm
        by (by eapply num_le_trans).
      split; [| done].
      intros Hyv. destruct (Hdom y Hy) as [dy Hdy].
      exists dy. split; [done |].
      destruct Hatt as [-> | (u0 & Hu0 & Hdu0)].
      * apply num_le_infinity in Hm. rewrite Hm. by destruct dy.
      * eapply num_le_trans; [exact (Hmono y u0 dy m Hyv Hu0 Hdy Hdu0) | done].
    + assert (visited g (unvisited st) x) as Hxvis by done.
      destruct (IHv Hxvis) as (dx & Hdx & Hle).
      destruct (Hrel x e y Hxvis He Hj Hy)
        as [(dx' & dy & H1 & H2 & H3) | [_ Hin]]; [| by apply elem_of_nil in Hin].
      assert (dx' = dx) as -> by congruence.
      assert (num_le dy (num_add W (edge_weight e))) as Hdy.
      { eapply num_le_trans; [exact H3 |].
        apply num_add_mono; [by eapply Hdbl | done | done]. }
      split.
      * intros Hyv. by exists dy.
      * intros Hyu. eapply num_le_trans; [by eapply Hlb | done].
Qed.

Variable t : nat.
Hypothesis Ht : t ∈ node_ids g.

(** The main loop ends, on one of its two [break]s, with the destination
    still unvisited. *)
Lemma main_loop_spec : ∀ fuel c st,
  loop_inv g s c st → t ∈ unvisited st → (length (unvisited st) <= fuel)%nat →
  ∃ c' st', main_loop fuel g t st = Some st' ∧ loop_inv g s c' st' ∧
    t ∈ unvisited st' ∧
    (fst (select_min (distances st') (unvisited st')) = Some t ∨
     fst (select_min (distances st') (unvisited st')) = None).
Proof.
  induction fuel as [| f IH]; intros c st HI Htu Hlen.
  - destruct (unvisited st); [by apply elem_of_nil in Htu | simpl in Hlen; lia].
  - simpl. destruct (unvisited st) as [| a l] eqn:Hunv; [by apply elem_of_nil in Htu |].
    rewrite <- Hunv in *.
    destruct (fst (select_min (distances st) (unvisited st))) as [u |] eqn:Hsel.
    + destruct (Nat.eqb_spec u t) as [-> | Hne].
      * exists c, st. split_and!; auto.
      * destruct (select_min_some _ _ _ Hsel) as (Hu & _).
        apply (IH (Some u)).
        -- by apply inv_visit with c.
        -- simpl. apply elem_of_set_delete. split; [by apply not_eq_sym | done].
        -- simpl. pose proof (length_set_delete u _ Hu). lia.
    + exists c, st. split_and!; auto.
Qed.

Lemma chain_length_bound (p : list nat) :
  NoDup p → (∀ x, x ∈ p → x ∈ node_ids g) →
  (length p <= length (graph_nodes g))%nat.
Proof.
  intros Hnd Hsub.
  replace (length (graph_nodes g)) with (length (node_ids g))
    by (unfold node_ids; apply length_map).
  apply submseteq_length, NoDup_submseteq; done.
Qed.

(** The [previous] links from the destination end in [null], through
    visited nodes only. *)
Lemma final_chain c st :
  loop_inv g s c st →
  ∃ p, chain (previous st) t p ∧ NoDup p ∧
       ∀ x, x ∈ p → x = t ∨ visited g (unvisited st) x.
Proof.
  intros HI.
  destruct (decide (t ∈ unvisited st)) as [Htu | Htv].
  2: { destruct (inv_chain _ _ _ _ _ _ _ HI t) as (d & p & es & _ & C2 & C3 & C4 & _);
         [done |].
       exists p. split_and!; [done | done |]. intros x Hx. right. by apply C4. }
  destruct (decide (t = s)) as [-> | Hts].
  { exists [s]. destruct (inv_source _ _ _ _ _ _ _ HI) as [_ Hp].
    split_and!; [by apply chain_root | apply NoDup_singleton |].
    intros x Hx. apply list_elem_of_singleton in Hx. by left. }
  destruct (inv_label _ _ _ _ _ _ _ HI t Ht Hts)
    as [[_ Hp] | (u & du & e & q & H1 & H2 & _)].
  - exists [t]. split_and!; [by apply chain_root | apply NoDup_singleton |].
    intros x Hx. apply list_elem_of_singleton in Hx. by left.
  - destruct (inv_chain _ _ _ _ _ _ _ HI u H2) as (d & p & es & _ & C2 & C3 & C4 & _).
    exists (p ++ [t]). split_and!.
    + by apply chain_link with u.
    + apply NoDup_app. split_and!; [done | | apply NoDup_singleton].
      intros x Hx Hxt. apply list_elem_of_singleton in Hxt. subst x.
      destruct (C4 t Hx) as [_ Hn]. done.
    + intros x Hx. apply elem_of_app in Hx as [Hx | Hx].
      * right. by apply C4.
      * apply list_elem_of_singleton in Hx. by left.
Qed.

(** What the reconstruction yields once the main loop has stopped. *)
Lemma early_result c st fuel :
  loop_inv g s c st → t ∈ unvisited st →
  (fst (select_min (distances st) (unvisited st)) = Some t ∨
   fst (select_min (distances st) (unvisited st)) = None) →
  (length (graph_nodes g) <= fuel)%nat →
  ∃ p, reconstruct fuel (previous st) (Ref t) [] = Some p ∧
    ((length p = 1%nat ∧ (s = t ∨ ∀ W, reach g s t W → W = Infinity)) ∨
     ((1 < length p)%nat ∧ s ≠ t ∧ head p = Some s ∧ last p = Some t ∧
      ∃ es, is_path g p es ∧ path_cost es ≠ Infinity ∧
            ∀ W, reach g s t W → num_le (path_cost es) W)).
Proof.
  intros HI Htu Hsel Hfuel.
  destruct (final_chain c st HI) as (p & Hc & Hnd & Hvis).
  exists p. split.
  { rewrite (reconstruct_chain _ _ _ Hc) by
      (etrans; [apply chain_length_bound; [done |] | done];
       intros x Hx; destruct (Hvis x Hx) as [-> | [Hx' _]]; done).
    by rewrite app_nil_r. }
  clear Hvis Hnd.
  destruct (decide (s = t)) as [<- | Hts].
  { left. destruct (inv_source _ _ _ _ _ _ _ HI) as [_ Hp].
    inversion Hc; subst; [tauto | congruence]. }
  destruct (inv_label _ _ _ _ _ _ _ HI t Ht (not_eq_sym Hts))
    as [[Hd Hp] | (u & du & e & q & H1 & H2 & H3 & H4 & H5 & H6 & H7)].
  - left. split; [inversion Hc; subst; [done | congruence] |].
    right. intros W Hr.
    destruct Hsel as [Hsel | Hsel].
    + destruct (select_min_some _ _ _ Hsel) as (_ & d & Hq & Hfin & _). congruence.
    + destruct (walk_lower_bound c st Infinity t W HI) as [_ Hlow]; [| by left | done |].
      * intros y dy Hy Hdy. by rewrite (select_min_none _ _ Hsel y dy Hy Hdy).
      * by apply num_le_infinity, Hlow.
  - right.
    destruct (inv_chain _ _ _ _ _ _ _ HI u H2)
      as (d & p' & es & C1 & C2 & C3 & C4 & C5 & C6 & C7 & C8).
    assert (du = Fin d) as -> by congruence.
    assert (p = p' ++ [t]) as ->.
    { assert (chain (previous st) t (p' ++ [t])) as Hc' by by apply chain_link with u.
      pose proof (reconstruct_chain _ _ _ Hc (length p + length (p' ++ [t])) []) as E1.
      pose proof (reconstruct_chain _ _ _ Hc' (length p + length (p' ++ [t])) []) as E2.
      specialize (E1 ltac:(lia)). specialize (E2 ltac:(lia)).
      rewrite E1 in E2. rewrite !app_nil_r in E2. by injection E2. }
    assert (path_cost (es ++ [e]) = Fin q) as Hcost by (by rewrite path_cost_snoc, C8).
    split_and!.
    + rewrite length_app. simpl. destruct p'; [done | simpl; lia].
    + done.
    + destruct p'; done.
    + by rewrite last_snoc.
    + exists (es ++ [e]). split; [by eapply is_path_snoc |].
      rewrite Hcost. split; [done |].
      intros W Hr.
      destruct Hsel as [Hsel | Hsel].
      * destruct (select_min_some _ _ _ Hsel) as (_ & d' & Hq & _ & Hmin).
        assert (d' = Fin q) as -> by congruence.
        destruct (walk_lower_bound c st (Fin q) t W HI)
          as [_ Hlow]; [done | right; eauto | done |].
        by apply Hlow.
      * pose proof (select_min_none _ _ Hsel t _ Htu H7). done.
Qed.

(** [dijkstra] returns.  A returned path costs no more than any walk
    between the two ends, and [null] means that the two ends coincide or
    that every walk between them costs [Infinity]. *)
Lemma dijkstra_result fuel :
  (length (graph_nodes g) <= fuel)%nat →
  (dijkstra fuel g s t = Some None ∧ (s = t ∨ ∀ W, reach g s t W → W = Infinity)) ∨
  (∃ p, dijkstra fuel g s t = Some (Some p) ∧ s ≠ t ∧
        head p = Some s ∧ last p = Some t ∧
        ∃ es, is_path g p es ∧ path_cost es ≠ Infinity ∧
              ∀ W, reach g s t W → num_le (path_cost es) W).
Proof.
  intros Hfuel. unfold dijkstra.
  destruct (main_loop_spec fuel None (init_state g s))
    as (c & st & Hloop & HI & Htu & Hsel).
  { apply inv_init. }
  { by apply init_unvisited. }
  { pose proof (init_length g s). lia. }
  rewrite Hloop.
  destruct (early_result c st fuel HI Htu Hsel Hfuel) as (p & Hrec & Hp).
  rewrite Hrec.
  destruct Hp as [[Hlen Hno] | (Hlen & Hp)].
  - left. rewrite Hlen. simpl. done.
  - right. exists p. apply Nat.ltb_lt in Hlen. rewrite Hlen. done.
Qed.

(** *** The loop without the early exit *)

Lemma relax_frozen u unv tabs e v :
  v ∉ unv →
  fst (relax u unv tabs e) !! v = fst tabs !! v ∧
  snd (relax u unv tabs e) !! v = snd tabs !! v.
Proof.
  intros Hv. unfold relax.
  destruct (neighbor_of u e) as [y |]; [| done].
  case_bool_decide as Hy; [| done].
  destruct (fst tabs !! u); [| done].
  destruct (fst tabs !! y); [| done].
  destruct (num_lt _ _); [| done].
  simpl. rewrite !lookup_insert_ne; [done | |]; intros ->; done.
Qed.

Lemma relax_fold_frozen u unv v :
  v ∉ unv → ∀ es tabs,
  fst (fold_left (relax u unv) es tabs) !! v = fst tabs !! v ∧
  snd (fold_left (relax u unv) es tabs) !! v = snd tabs !! v.
Proof.
  intros Hv. induction es as [| e es IH]; intros tabs; [done |].
  simpl. destruct (IH (relax u unv tabs e)) as [-> ->].
  by apply relax_frozen.
Qed.

Lemma visit_frozen u st v :
  v ∉ set_delete u (unvisited st) →
  previous (visit g u st) !! v = previous st !! v.
Proof.
  intros Hv. unfold visit. cbn [previous].
  by destruct (relax_fold_frozen u _ v Hv (graph_edges g) (distances st, previous st)).
Qed.

Lemma exhaustive_frozen : ∀ fuel st st',
  main_loop_exhaustive fuel g st = Some st' →
  ∀ v, v ∉ unvisited st → previous st' !! v = previous st !! v.
Proof.
  induction fuel as [| f IH]; intros st st' Hrun v Hv; simpl in Hrun.
  - destruct (unvisited st); [by injection Hrun as <- | done].
  - destruct (unvisited st) as [| a l] eqn:Hunv; [by injection Hrun as <- |].
    rewrite <- Hunv in *.
    destruct (fst (select_min (distances st) (unvisited st))) as [u |];
      [| by injection Hrun as <-].
    assert (v ∉ set_delete u (unvisited st)) as Hv'.
    { rewrite elem_of_set_delete. tauto. }
    rewrite (IH _ _ Hrun v) by done. by apply visit_frozen.
Qed.

Lemma exhaustive_terminates : ∀ fuel st,
  (length (unvisited st) <= fuel)%nat → is_Some (main_loop_exhaustive fuel g st).
Proof.
  induction fuel as [| f IH]; intros st Hlen; simpl.
  - destruct (unvisited st); [eauto | simpl in Hlen; lia].
  - destruct (unvisited st) as [| a l] eqn:Hunv; [eauto |].
    rewrite <- Hunv in *.
    destruct (fst (select_min (distances st) (unvisited st))) as [u |] eqn:Hsel;
      [| eauto].
    destruct (select_min_some _ _ _ Hsel) as (Hu & _).
    apply IH. simpl. pose proof (length_set_delete u _ Hu). lia.
Qed.

(** Both loops take the same steps until the destination is chosen; what
    the exhaustive loop does after that leaves the links of the visited
    nodes and of the destination alone. *)
Lemma exhaustive_simulation : ∀ fuel c st st1 st2,
  loop_inv g s c st → t ∈ unvisited st →
  main_loop fuel g t st = Some st1 →
  main_loop_exhaustive fuel g st = Some st2 →
  ∃ c', loop_inv g s c' st1 ∧
    ∀ v, v = t ∨ visited g (unvisited st1) v →
         previous st2 !! v = previous st1 !! v.
Proof.
  induction fuel as [| f IH]; intros c st st1 st2 HI Htu H1 H2; simpl in H1, H2.
  - destruct (unvisited st); [by apply elem_of_nil in Htu | done].
  - destruct (unvisited st) as [| a l] eqn:Hunv; [by apply elem_of_nil in Htu |].
    rewrite <- Hunv in *.
    destruct (fst (select_min (distances st) (unvisited st))) as [u |] eqn:Hsel.
    + destruct (Nat.eqb_spec u t) as [-> | Hne].
      * injection H1 as <-. exists c. split; [done |].
        intros v Hv.
        assert (v ∉ set_delete t (unvisited st)) as Hv'.
        { rewrite elem_of_set_delete. destruct Hv as [-> | [_ Hn]]; tauto. }
        rewrite (exhaustive_frozen _ _ _ H2 v) by done.
        by apply visit_frozen.
      * apply (IH (Some u) (visit g u st)); try done.
        -- by apply inv_visit with c.
        -- simpl. apply elem_of_set_delete. split; [by apply not_eq_sym | done].
    + injection H1 as <-. injection H2 as <-. exists c. done.
Qed.

Lemma dijkstra_exhaustive_same fuel :
  (length (graph_nodes g) <= fuel)%nat →
  dijkstra_exhaustive fuel g s t = dijkstra fuel g s t.
Proof.
  intros Hfuel. unfold dijkstra, dijkstra_exhaustive.
  assert (length (unvisited (init_state g s)) <= fuel)%nat as Hlen
    by (pose proof (init_length g s); lia).
  assert (t ∈ unvisited (init_state g s)) as Htu by by apply init_unvisited.
  destruct (main_loop_spec fuel None (init_state g s) inv_init Htu Hlen)
    as (c0 & st1 & H1 & _).
  destruct (exhaustive_terminates fuel (init_state g s) Hlen) as [st2 H2].
  rewrite H1, H2.
  destruct (exhaustive_simulation fuel None _ st1 st2 inv_init Htu H1 H2)
    as (c & HI & Hag).
  destruct (final_chain c st1 HI) as (p & Hc & Hnd & Hvis).
  assert (chain (previous st2) t p) as Hc2.
  { eapply chain_agree; [exact Hc |]. intros x Hx. apply Hag.
    by apply Hvis. }
  assert (length p <= fuel)%nat as Hp.
  { etrans; [apply chain_length_bound; [done |] | done].
    intros x Hx. destruct (Hvis x Hx) as [-> | [Hx' _]]; done. }
  by rewrite (reconstruct_chain _ _ _ Hc fuel [] Hp),
             (reconstruct_chain _ _ _ Hc2 fuel [] Hp).
Qed.

End DijkstraInvariant.

(** ** The shortest-path solver *)

(** When its destination is not a node of the graph, [previous[endNodeId]]
    is [undefined] and the reconstruction loop never ends. *)
Lemma dijkstra_unknown_destination (g : graph) (s t fuel : nat) :
  t ∉ node_ids g → dijkstra fuel g s t = None.
Proof.
  intros Ht. unfold dijkstra.
  destruct (main_loop fuel g t (init_state g s)) as [st |] eqn:Hloop; [| done].
  assert (previous st !! t = None) as Hp.
  { assert (previous (init_state g s) !! t = None) as H0.
    { rewrite init_previous. by rewrite bool_decide_eq_false_2. }
    assert (t ∉ unvisited (init_state g s)) as Hu by by rewrite init_unvisited.
    revert Hloop H0 Hu. generalize (init_state g s) as st0.
    induction fuel as [| f IH]; intros st0 Hrun H0 Hu; simpl in Hrun.
    - destruct (unvisited st0); [by injection Hrun as <- | done].
    - destruct (unvisited st0) as [| a l] eqn:Hunv; [by injection Hrun as <- |].
      rewrite <- Hunv in *.
      destruct (fst (select_min (distances st0) (unvisited st0))) as [u |];
        [| by injection Hrun as <-].
      destruct (Nat.eqb u t); [by injection Hrun as <- |].
      assert (t ∉ set_delete u (unvisited st0)) as Hu'.
      { rewrite elem_of_set_delete. tauto. }
      apply (IH _ Hrun); [| done].
      by rewrite visit_frozen. }
  by rewrite reconstruct_undefined.
Qed.

(** On a graph without nodes no destination is known: called directly,
    [dijkstra] does not return. *)
Lemma dijkstra_empty_graph (g : graph) (s t fuel : nat) :
  graph_nodes g = [] → dijkstra fuel g s t = None.
Proof.
  intros Hnodes. apply dijkstra_unknown_destination.
  unfold node_ids. rewrite Hnodes. apply not_elem_of_nil.
Qed.

Example dijkstra_sample_route :
  dijkstra 4 sample_graph 0 3 = Some (Some [0; 1; 2; 3]%nat).
Proof. vm_compute. reflexivity. Qed.

Example dijkstra_sample_avoids_shortcut :
  dijkstra 4 sample_graph 0 2 = Some (Some [0; 1; 2]%nat).
Proof. vm_compute. reflexivity. Qed.

(** A triangle of unit weights: the direct edge is taken. *)
Example dijkstra_triangle :
  dijkstra 3 (mkGraph [sample_node 0; sample_node 1; sample_node 2]
                      [sample_edge 0 1 0 1; sample_edge 1 2 0 1;
                       sample_edge 2 0 0 1]) 0 2
  = Some (Some [0; 2]%nat).
Proof. vm_compute. reflexivity. Qed.

Example dijkstra_sample_unreachable :
  dijkstra 5 (mkGraph (graph_nodes sample_graph ++ [sample_node 4])
                      (graph_edges sample_graph)) 0 4 = Some None.
Proof. vm_compute. reflexivity. Qed.

(** The sum of two doubles is rounded: 0.1 + 0.2 is 0.30000000000000004,
    so the detour over node 1 does not undercut the street from 0 to 2. *)
Example dijkstra_detour_tie :
  dijkstra 3 detour_graph 0 2 = Some (Some [0; 2]%nat).
Proof. vm_compute. reflexivity. Qed.

(** 1e308 + 1e308 is [Infinity], which is not below the [Infinity] node 2
    starts with: node 2 is never labelled. *)
Example dijkstra_heavy_overflow :
  dijkstra 3 heavy_graph 0 2 = Some None.
Proof. vm_compute. reflexivity. Qed.

(** 1e16 + 1 and 1e16 + 0.5 are both 1e16: from 0 to 2 the two sides of
    [square_graph] tie and the first one found is kept; from 2 to 0 the
    side over 3 is labelled first. *)
Example dijkstra_square_there_and_back :
  dijkstra 4 square_graph 0 2 = Some (Some [0; 1; 2]%nat) ∧
  dijkstra 4 square_graph 2 0 = Some (Some [2; 3; 0]%nat).
Proof. split; vm_compute; reflexivity. Qed.

Lemma sample_graph_nonneg : nonneg_weights sample_graph.
Proof. repeat constructor; simpl; unfold Qle; simpl; lia. Defined.

(** C1, as the code has it.  For a graph with non-negative edge weights and
    two of its node ids, [dijkstra] returns; a returned path starts at
    [startNodeId], ends at [endNodeId], joins consecutive nodes by edges of
    the graph, and the weights of these edges, added up in doubles from the
    start on as the solver adds them, come to no more than those of any
    other path between the two nodes added up in the same way; when no path
    exists the result is [null]. *)
Theorem dijkstra_cheapest_in_doubles (g : graph) (s t fuel : nat) :
  nonneg_weights g → s ∈ node_ids g → t ∈ node_ids g →
  (length (graph_nodes g) <= fuel)%nat →
  ∃ r, dijkstra fuel g s t = Some r ∧
    (∀ p, r = Some p → cheapest_in_doubles g s t p) ∧
    ((∀ q es, ¬ walk_between g s t q es) → r = None).
Proof.
  intros Hw Hs Ht Hfuel.
  destruct (dijkstra_result g s Hw Hs t Ht fuel Hfuel)
    as [[Hr _] | (p & Hr & Hne & Hh & Hl & es & Hp & _ & Hopt)].
  - exists None. split_and!; done.
  - exists (Some p). split_and!; [done | |].
    + intros p' [= <-]. exists es. split; [done |].
      intros q es' (Hq & Hqh & Hql).
      apply Hopt. by apply (path_reach g s t q).
    + intros Hno. by destruct (Hno p es).
Qed.

Lemma dijkstra_cheapest_in_doubles_witness :
  ∃ r, dijkstra 4 sample_graph 0 3 = Some r ∧
    (∀ p, r = Some p → cheapest_in_doubles sample_graph 0 3 p) ∧
    ((∀ q es, ¬ walk_between sample_graph 0 3 q es) → r = None).
Proof.
  apply dijkstra_cheapest_in_doubles.
  - exact sample_graph_nonneg.
  - by_compute.
  - by_compute.
  - simpl. lia.
Defined.

(** Between nodes 0 and 2 of [detour_graph], whose weights are not
    negative, [dijkstra] returns the street [0; 2] of weight
    0.30000000000000004, although the weights 0.1 and 0.2 of the detour over
    node 1 sum to less: in doubles 0.1 + 0.2 is 0.30000000000000004, which
    is not below the label that node 2 has already. *)
Lemma detour_sum_is_smaller :
  nonneg_weights detour_graph ∧
  dijkstra 3 detour_graph 0 2 = Some (Some [0; 2]%nat) ∧
  ¬ cheapest_between detour_graph 0 2 [0; 2]%nat.
Proof.
  split_and!.
  - repeat constructor; simpl; unfold Qle; simpl; lia.
  - vm_compute. reflexivity.
  - intros (es & (Hp & _ & _) & Hmin).
    destruct es as [| e es]; [simpl in Hp; tauto |].
    destruct Hp as (_ & He & Hj & _ & ->).
    specialize (Hmin [0; 1; 2]%nat
      [sample_edge 0 1 0 (3602879701896397 # 36028797018963968);
       sample_edge 1 2 0 (3602879701896397 # 18014398509481984)]).
    assert (e = sample_edge 0 2 0 (5404319552844596 # 18014398509481984)) as ->.
    { unfold detour_graph in He. cbn [graph_edges] in He.
      rewrite !elem_of_cons, elem_of_nil in He.
      destruct He as [-> | [-> | [-> | []]]]; [done | |];
        destruct Hj as [[? ?] | [? ?]]; simpl in *; lia. }
    assert ((total_weight [sample_edge 0 2 0 (5404319552844596 # 18014398509481984)]
             <= total_weight
                  [sample_edge 0 1 0 (3602879701896397 # 36028797018963968);
                   sample_edge 1 2 0 (3602879701896397 # 18014398509481984)])%Q)
      as Hle.
    { apply Hmin. split_and!; [| done | done].
      simpl. unfold joins. simpl.
      split_and!; try done; try by_compute; try (by left);
        rewrite !elem_of_cons; auto. }
    vm_compute in Hle. by apply Hle.
Qed.

(** C2. With the same node id of the graph as start and as end, [dijkstra]
    returns [null]: the one-node path is not returned. *)
Theorem dijkstra_same_node (g : graph) (n fuel : nat) :
  n ∈ node_ids g → (1 <= fuel)%nat → dijkstra fuel g n n = Some None.
Proof.
  intros Hn Hfuel. destruct fuel as [| f]; [lia |].
  assert (n ∈ unvisited (init_state g n)) as Hu by by apply init_unvisited.
  assert (distances (init_state g n) !! n = Some (Fin 0%Q)) as Hd.
  { rewrite init_distances. by rewrite decide_True. }
  assert (∀ u d, distances (init_state g n) !! u = Some d → d ≠ Infinity → u = n)
    as Hfin.
  { intros u d Hd' Hne. rewrite init_distances in Hd'. case_decide; [done |].
    case_bool_decide; congruence. }
  assert (previous (init_state g n) !! n = Some None) as Hp.
  { rewrite init_previous. by rewrite bool_decide_eq_true_2. }
  unfold dijkstra. revert Hu Hd Hfin Hp. generalize (init_state g n) as st.
  intros st Hu Hd Hfin Hp. cbn [main_loop].
  destruct (unvisited st) as [| a l] eqn:Hunv; [by apply elem_of_nil in Hu |].
  rewrite <- Hunv in *.
  destruct (fst (select_min (distances st) (unvisited st))) as [u |] eqn:Hsel.
  - destruct (select_min_some _ _ _ Hsel) as (Huin & d & Hq & Hne & _).
    rewrite (Hfin u d Hq Hne), Nat.eqb_refl.
    cbn [reconstruct]. unfold get_previous. rewrite Hp. by destruct f.
  - by pose proof (select_min_none _ _ Hsel n _ Hu Hd).
Qed.

Lemma dijkstra_same_node_witness : dijkstra 1 sample_graph 2 2 = Some None.
Proof.
  apply dijkstra_same_node.
  - by_compute.
  - lia.
Defined.

(** C8. For a graph with non-negative edge weights and two of its node ids,
    [dijkstra], which leaves the main loop as soon as the destination is the
    chosen minimum, returns, and returns what the same loop run to
    exhaustion returns. *)
Theorem early_exit_same_result (g : graph) (s t fuel : nat) :
  nonneg_weights g → s ∈ node_ids g → t ∈ node_ids g →
  (length (graph_nodes g) <= fuel)%nat →
  is_Some (dijkstra fuel g s t) ∧
  dijkstra_exhaustive fuel g s t = dijkstra fuel g s t.
Proof.
  intros Hw Hs Ht Hfuel. split.
  - destruct (dijkstra_result g s Hw Hs t Ht fuel Hfuel) as [[Hr _] | (p & Hr & _)];
      rewrite Hr; eauto.
  - by apply dijkstra_exhaustive_same.
Qed.

Lemma early_exit_same_result_witness :
  is_Some (dijkstra 4 sample_graph 0 2) ∧
  dijkstra_exhaustive 4 sample_graph 0 2 = dijkstra 4 sample_graph 0 2.
Proof.
  apply early_exit_same_result.
  - exact sample_graph_nonneg.
  - by_compute.
  - by_compute.
  - simpl. lia.
Defined.

(** ** Neighborhood classifier and risk scorer *)

Lemma first_containing_proper `{Platform} (x y x' y' : Q) (fs : list feature) :
  (x == x')%Q → (y == y')%Q →
  first_containing (x, y) fs = first_containing (x', y') fs.
Proof.
  intros Hx Hy. induction fs as [| f fs IH]; [done |].
  simpl. rewrite (booleanPointInPolygon_proper x y x' y' _ Hx Hy).
  by rewrite IH.
Qed.

Lemma safety_factor_nonneg (name : string) (v : Q) :
  neighborhoodSafetyFactors !! name = Some v → (0 <= v)%Q.
Proof.
  intros Hv. apply elem_of_list_to_map_2 in Hv.
  repeat (apply elem_of_cons in Hv as [[= -> ->] | Hv]; [unfold Qle; simpl; lia |]).
  by apply elem_of_nil in Hv.
Qed.

Lemma or_else_nonneg (a : option Q) (b : Q) :
  (∀ v, a = Some v → (0 <= v)%Q) → (0 <= b)%Q → (0 <= or_else a b)%Q.
Proof.
  intros Ha Hb. unfold or_else. destruct a as [v |]; [| done].
  destruct (Qeq_bool v 0); [done | by apply Ha].
Qed.

Lemma fraction_nonneg (h : Q) : (0 <= h - inject_Z (Qfloor h))%Q.
Proof. pose proof (Qfloor_le h). lra. Qed.

Lemma Qfloor_nonneg (x : Q) : (0 <= x)%Q → (0 <= Qfloor x)%Z.
Proof. intros Hx. by apply (Qfloor_resp_le 0 x). Qed.

(** C3. For every coordinate pair the score of [getCrimeLevel] is an integer
    between 0 and 14, and coordinates that are equal as numbers get the same
    score. *)
Theorem getCrimeLevel_range `{Platform} (lat lng : Q) :
  (0 <= getCrimeLevel lat lng <= 14)%Z ∧
  ∀ lat' lng', (lat' == lat)%Q → (lng' == lng)%Q →
    getCrimeLevel lat' lng' = getCrimeLevel lat lng.
Proof.
  split.
  - unfold getCrimeLevel.
    set (f := or_else _ _).
    set (h := Qabs _).
    assert (0 <= f)%Q as Hf.
    { apply or_else_nonneg; [apply safety_factor_nonneg |].
      unfold Qle; vm_compute; discriminate. }
    pose proof (fraction_nonneg h) as Hp.
    assert (0 <= Qfloor ((h - inject_Z (Qfloor h)) * 8 * f))%Z as Hb.
    { apply Qfloor_nonneg. apply Qmult_le_0_compat; [| done].
      apply Qmult_le_0_compat; [done |]. unfold Qle; simpl; lia. }
    lia.
  - intros lat' lng' Hlat Hlng. unfold getCrimeLevel, getNeighborhoodForPoint.
    rewrite (first_containing_proper lng' lat' lng lat _ Hlng Hlat).
    set (f := or_else _ _).
    assert (Qabs (Math_sin (lat' * 1000) * Math_cos (lng' * 1000))
            == Qabs (Math_sin (lat * 1000) * Math_cos (lng * 1000)))%Q as Hh.
    { apply Qabs_wd.
      rewrite (Math_sin_proper (lat' * 1000) (lat * 1000))%Q by (by rewrite Hlat).
      rewrite (Math_cos_proper (lng' * 1000) (lng * 1000))%Q by (by rewrite Hlng).
      reflexivity. }
    f_equal. apply Qfloor_comp. rewrite (Qfloor_comp _ _ Hh).
    apply Qmult_comp; [| reflexivity]. apply Qmult_comp; [| reflexivity].
    apply Qplus_comp; [exact Hh | reflexivity].
Qed.

Lemma getCrimeLevel_range_witness :
  (0 <= @getCrimeLevel sample_platform (413 # 10) (-729 # 10) <= 14)%Z ∧
  @getCrimeLevel sample_platform (826 # 20) (-729 # 10) =
  @getCrimeLevel sample_platform (413 # 10) (-729 # 10).
Proof.
  destruct (@getCrimeLevel_range sample_platform (413 # 10) (-729 # 10))
    as [Hr Hsame].
  split; [exact Hr |].
  apply Hsame; reflexivity.
Defined.

(** C10. [getNeighborhoodForPoint] never answers "Downtown": the table gives
    "Downtown" the boundary of "Yale Campus", which comes first in the
    first-match scan, so a point inside the boundary of "Downtown" is
    classified "Yale Campus". *)
Theorem downtown_never_returned `{Platform} (lat lng : Q) :
  getNeighborhoodForPoint lat lng ≠ "Downtown" ∧
  is_Some (polygon_of "Downtown") ∧
  polygon_of "Downtown" = polygon_of "Yale Campus" ∧
  (feature_name <$> head neighborhoodPolygons) = Some "Yale Campus" ∧
  ∀ poly, polygon_of "Downtown" = Some poly →
          booleanPointInPolygon (lng, lat) poly = true →
          getNeighborhoodForPoint lat lng = "Yale Campus".
Proof.
  split_and!.
  - unfold getNeighborhoodForPoint, neighborhoodPolygons, first_containing.
    cbn [feature_coordinates feature_name].
    destruct (booleanPointInPolygon (lng, lat) _) eqn:Hyale; [done |].
    repeat (destruct (booleanPointInPolygon (lng, lat) _); [done |]).
    done.
  - by eexists.
  - reflexivity.
  - reflexivity.
  - intros poly [= <-] Hin.
    unfold getNeighborhoodForPoint, neighborhoodPolygons, first_containing.
    cbn [feature_coordinates feature_name]. by rewrite Hin.
Qed.

Lemma downtown_never_returned_witness :
  @getNeighborhoodForPoint sample_platform (413080 # 10000) (-729280 # 10000)
  = "Yale Campus".
Proof.
  destruct (@downtown_never_returned sample_platform
              (413080 # 10000) (-729280 # 10000)) as (_ & _ & _ & _ & Hin).
  eapply Hin; reflexivity.
Defined.

(** ** The graph builder *)

Lemma first_seen_fold (l : list Z) : ∀ acc,
  (NoDup acc → NoDup (fold_left (λ acc x, set_add x acc) l acc)) ∧
  (∀ x, x ∈ fold_left (λ acc x, set_add x acc) l acc ↔ x ∈ acc ∨ x ∈ l).
Proof.
  induction l as [| a l IH]; intros acc; simpl.
  - split; [done |]. intros x. rewrite elem_of_nil. tauto.
  - destruct (IH (set_add a acc)) as [IH1 IH2]. split.
    + intros Hnd. by apply IH1, NoDup_set_add.
    + intros x. rewrite IH2, elem_of_set_add, elem_of_cons. tauto.
Qed.

Lemma NoDup_first_seen (l : list Z) : NoDup (first_seen l).
Proof. apply first_seen_fold, NoDup_nil_2. Qed.

Lemma elem_of_first_seen (l : list Z) (x : Z) : x ∈ first_seen l ↔ x ∈ l.
Proof.
  unfold first_seen. destruct (first_seen_fold l []) as [_ H].
  rewrite H, elem_of_nil. tauto.
Qed.

Lemma first_seen_snoc (l : list Z) (a : Z) :
  first_seen (l ++ [a]) = set_add a (first_seen l).
Proof. unfold first_seen. by rewrite fold_left_app. Qed.

Section NodePass.

Variable osmNodes : gmap Z (Q * Q).

Lemma nodes_ok_known (seen : list Z) (st : nstate) (a : Z) :
  nodes_ok osmNodes seen st →
  (a ∈ map node_osmId (ns_nodes st) ↔ is_Some (ns_nodeMap st !! a)).
Proof.
  intros [Hc Hn Hm Ho]. split.
  - intros Ha. apply list_elem_of_In, in_map_iff in Ha as (n & <- & Hin).
    apply list_elem_of_In, list_elem_of_lookup in Hin as [i Hi].
    destruct (Hn i n Hi) as (_ & H & _). eauto.
  - intros [i Hi]. destruct (Hm a i Hi) as (n & Hn' & <-).
    apply list_elem_of_In, in_map, list_elem_of_In.
    apply list_elem_of_lookup. eauto.
Qed.

Lemma nodes_ok_init : nodes_ok osmNodes [] (mkNState [] ∅ O).
Proof. constructor; simpl; try done. Qed.

Lemma add_node_ok (seen : list Z) (st : nstate) (a : Z) :
  nodes_ok osmNodes seen st →
  nodes_ok osmNodes (seen ++ [a]) (add_node osmNodes st a).
Proof.
  intros HI. pose proof (nodes_ok_known seen st a HI) as Hknown.
  destruct HI as [Hc Hn Hm Ho].
  unfold add_node.
  destruct (ns_nodeMap st !! a) as [i |] eqn:Hma.
  { constructor; try done. rewrite filter_app, Ho.
    rewrite filter_cons, filter_nil. case_decide; [| by rewrite app_nil_r].
    rewrite first_seen_snoc. unfold set_add.
    rewrite bool_decide_eq_true_2; [done |].
    rewrite <- elem_of_first_seen in Hknown |- *. rewrite <- Ho.
    apply Hknown. eauto. }
  destruct (osmNodes !! a) as [[lat lon] |] eqn:Hoa.
  2: { constructor; try done. rewrite filter_app, Ho.
       rewrite filter_cons, filter_nil. case_decide as Hd; [| by rewrite app_nil_r].
       rewrite Hoa in Hd. by destruct Hd. }
  assert (a ∉ map node_osmId (ns_nodes st)) as Hfresh.
  { rewrite Hknown. by intros [? ?]. }
  constructor; simpl.
  - rewrite length_app. simpl. lia.
  - intros i n Hi. apply lookup_app_Some in Hi as [Hi | [Hlen Hi]].
    + destruct (Hn i n Hi) as (H1 & H2 & H3). split_and!; [done | | done].
      rewrite lookup_insert_ne; [done |]. intros ->. apply Hfresh.
      apply list_elem_of_In, in_map, list_elem_of_In.
      apply list_elem_of_lookup. eauto.
    + destruct (i - length (ns_nodes st))%nat as [| k] eqn:Hk; [| done].
      simpl in Hi. injection Hi as <-. simpl.
      assert (i = length (ns_nodes st)) as -> by lia.
      rewrite lookup_insert_eq. rewrite Hc. done.
  - intros b i Hb. destruct (decide (a = b)) as [<- | Hne].
    + rewrite lookup_insert_eq in Hb. injection Hb as <-.
      exists (mkNode (ns_counter st) lat lon a). split; [| done].
      rewrite Hc, lookup_app_r by lia. by rewrite Nat.sub_diag.
    + rewrite lookup_insert_ne in Hb by done.
      destruct (Hm b i Hb) as (n & Hn' & Hosm). exists n. split; [| done].
      by apply lookup_app_l_Some.
  - rewrite map_app, filter_app, Ho. simpl.
    rewrite filter_cons, filter_nil. rewrite decide_True by (by rewrite Hoa).
    rewrite first_seen_snoc. unfold set_add.
    rewrite bool_decide_eq_false_2; [done |].
    by rewrite <- Ho.
Qed.

Lemma add_way_nodes_ok (w : way) : ∀ seen st,
  nodes_ok osmNodes seen st →
  nodes_ok osmNodes (seen ++ way_nodes w) (add_way_nodes osmNodes st w).
Proof.
  unfold add_way_nodes. induction (way_nodes w) as [| a l IH]; intros seen st HI.
  - by rewrite app_nil_r.
  - simpl. replace (seen ++ a :: l) with ((seen ++ [a]) ++ l)
      by (by rewrite <- app_assoc).
    apply IH. by apply add_node_ok.
Qed.

Lemma build_nodes_fold_ok (ways : list way) : ∀ seen st,
  nodes_ok osmNodes seen st →
  nodes_ok osmNodes (seen ++ concat (map way_nodes ways))
           (fold_left (add_way_nodes osmNodes) ways st).
Proof.
  induction ways as [| w ways IH]; intros seen st HI; simpl.
  - by rewrite app_nil_r.
  - rewrite app_assoc. apply IH. by apply add_way_nodes_ok.
Qed.

Lemma build_nodes_ok (ways : list way) :
  nodes_ok osmNodes (concat (map way_nodes ways)) (build_nodes osmNodes ways).
Proof. apply (build_nodes_fold_ok ways [] _ nodes_ok_init). Qed.

Lemma nodes_ok_resolved (seen : list Z) (st : nstate) (a : Z) :
  nodes_ok osmNodes seen st → a ∈ seen → is_Some (osmNodes !! a) →
  ∃ i n, ns_nodeMap st !! a = Some i ∧ ns_nodes st !! i = Some n ∧
         node_id n = i ∧ node_osmId n = a.
Proof.
  intros HI Ha Hres.
  assert (is_Some (ns_nodeMap st !! a)) as [i Hi].
  { apply (nodes_ok_known seen st a HI).
    rewrite (nok_order _ _ _ HI), elem_of_first_seen, list_elem_of_filter. done. }
  destruct (nok_map _ _ _ HI a i Hi) as (n & Hn & Hosm).
  destruct (nok_node _ _ _ HI i n Hn) as (Hid & _).
  eauto 10.
Qed.

End NodePass.

Section EdgePass.

Context `{Platform}.
Variable osmNodes : gmap Z (Q * Q).
Variable st : nstate.

Lemma add_edge_some (w : way) (a b : Z) (edges edges' : list edge) :
  add_edge osmNodes st w a b edges = Some edges' →
  edges' = edges ∨ ∃ e, edges' = edges ++ [e] ∧ built_edge st w a b e.
Proof.
  unfold add_edge.
  destruct (osmNodes !! a); [| intros [= <-]; by left].
  destruct (osmNodes !! b); [| intros [= <-]; by left].
  destruct (ns_nodeMap st !! a) as [fromId |] eqn:Ha; [| done].
  destruct (ns_nodeMap st !! b) as [toId |] eqn:Hb; [| done].
  destruct (ns_nodes st !! fromId) as [fromNode |] eqn:Hf; [| done].
  destruct (ns_nodes st !! toId) as [toNode |] eqn:Ht; [| done].
  intros [= <-]. right. eexists. split; [done |].
  exists fromNode, toNode. simpl. done.
Qed.

Lemma add_way_edges_some (w : way) : ∀ ids edges edges',
  add_way_edges osmNodes st w ids edges = Some edges' →
  ∀ e, e ∈ edges' →
    e ∈ edges ∨
    ∃ i a b, ids !! i = Some a ∧ ids !! S i = Some b ∧ built_edge st w a b e.
Proof.
  induction ids as [| a rest IH]; intros edges edges' Hrun e He.
  - injection Hrun as <-. by left.
  - destruct rest as [| b rest]; [injection Hrun as <-; by left |].
    cbn [add_way_edges] in Hrun.
    destruct (add_edge osmNodes st w a b edges) as [edges1 |] eqn:Hadd; [| done].
    destruct (IH edges1 edges' Hrun e He) as [He1 | (i & x & y & Hx & Hy & Hb)].
    + destruct (add_edge_some w a b edges edges1 Hadd) as [-> | (e0 & -> & Hb)];
        [by left |].
      apply elem_of_app in He1 as [He1 | He1]; [by left |].
      apply list_elem_of_singleton in He1. subst e0.
      right. exists 0%nat, a, b. done.
    + right. exists (S i), x, y. done.
Qed.

Lemma add_all_edges_some : ∀ ways edges edges',
  add_all_edges osmNodes st ways edges = Some edges' →
  ∀ e, e ∈ edges' →
    e ∈ edges ∨
    ∃ w i a b, w ∈ ways ∧ way_nodes w !! i = Some a ∧
               way_nodes w !! S i = Some b ∧ built_edge st w a b e.
Proof.
  induction ways as [| w ways IH]; intros edges edges' Hrun e He; simpl in Hrun.
  - injection Hrun as <-. by left.
  - destruct (add_way_edges osmNodes st w (way_nodes w) edges) as [edges1 |] eqn:Hw;
      [| done].
    destruct (IH edges1 edges' Hrun e He) as [He1 | (w' & i & a & b & Hw' & Hrest)].
    + destruct (add_way_edges_some w _ _ _ Hw e He1) as [? | (i & a & b & Hrest)];
        [by left |].
      right. exists w, i, a, b. split; [by left | done].
    + right. exists w', i, a, b. split; [by right | done].
Qed.

Variable seen : list Z.
Hypothesis Hok : nodes_ok osmNodes seen st.

Lemma add_edge_total (w : way) (a b : Z) (edges : list edge) :
  a ∈ seen → b ∈ seen → is_Some (add_edge osmNodes st w a b edges).
Proof.
  intros Ha Hb. unfold add_edge.
  destruct (osmNodes !! a) eqn:Hoa; [| eauto].
  destruct (osmNodes !! b) eqn:Hob; [| eauto].
  destruct (nodes_ok_resolved osmNodes seen st a Hok Ha) as (i & n & -> & -> & _);
    [by rewrite Hoa |].
  destruct (nodes_ok_resolved osmNodes seen st b Hok Hb) as (j & m & -> & -> & _);
    [by rewrite Hob |].
  eauto.
Qed.

Lemma add_way_edges_total (w : way) : ∀ ids edges,
  (∀ a, a ∈ ids → a ∈ seen) →
  is_Some (add_way_edges osmNodes st w ids edges).
Proof.
  induction ids as [| a rest IH]; intros edges Hin; [by eexists |].
  destruct rest as [| b rest]; [by eexists |].
  cbn [add_way_edges].
  destruct (add_edge_total w a b edges) as [edges1 ->].
  - apply Hin. by left.
  - apply Hin. right. by left.
  - apply IH. intros x Hx. apply Hin. by right.
Qed.

Lemma add_all_edges_total : ∀ ways edges,
  (∀ w a, w ∈ ways → a ∈ way_nodes w → a ∈ seen) →
  is_Some (add_all_edges osmNodes st ways edges).
Proof.
  induction ways as [| w ways IH]; intros edges Hin; simpl; [by eexists |].
  destruct (add_way_edges_total w (way_nodes w) edges) as [edges1 ->].
  - intros a Ha. apply (Hin w a); [by left | done].
  - apply IH. intros w' a Hw' Ha. apply (Hin w' a); [by right | done].
Qed.

End EdgePass.

(** The construction never raises: every graph is built. *)
Lemma loadStreetData_total `{Platform} (elements : list element) :
  is_Some (loadStreetData elements).
Proof.
  unfold loadStreetData.
  destruct (add_all_edges_total (collect_nodes elements)
              (build_nodes (collect_nodes elements) (collect_ways elements))
              (concat (map way_nodes (collect_ways elements)))
              (build_nodes_ok _ _) (collect_ways elements) []) as [edges ->];
    [| by eexists].
  intros w a Hw Ha. apply list_elem_of_In, in_concat.
  exists (way_nodes w). split; [apply in_map | ]; by apply list_elem_of_In.
Qed.

(** What [loadStreetData] returns, in terms of the two passes. *)
Lemma loadStreetData_some `{Platform} (elements : list element) (g : graph) :
  loadStreetData elements = Some g →
  let osmNodes := collect_nodes elements in
  let ways := collect_ways elements in
  let st := build_nodes osmNodes ways in
  graph_nodes g = ns_nodes st ∧
  nodes_ok osmNodes (concat (map way_nodes ways)) st ∧
  ∀ e, e ∈ graph_edges g →
    ∃ w i a b, w ∈ ways ∧ way_nodes w !! i = Some a ∧
               way_nodes w !! S i = Some b ∧ built_edge st w a b e.
Proof.
  unfold loadStreetData. intros Hload. cbn zeta.
  destruct (add_all_edges _ _ _ _) as [edges |] eqn:Hedges; [| done].
  injection Hload as <-. simpl. split_and!; [done | apply build_nodes_ok |].
  intros e He.
  destruct (add_all_edges_some _ _ _ _ _ Hedges e He) as [Hnil | Hb]; [| done].
  by apply elem_of_nil in Hnil.
Qed.

(** C4. In every graph that the graph builder produces, the weight of every
    edge is its risk score plus 100 times the Haversine distance
    ([getDistance], in kilometers) between its two end nodes. *)
Theorem edge_weight_formula `{Platform} (elements : list element) (g : graph) :
  loadStreetData elements = Some g →
  ∀ e, e ∈ graph_edges g →
  ∃ fromNode toNode,
    graph_nodes g !! edge_from e = Some fromNode ∧
    graph_nodes g !! edge_to e = Some toNode ∧
    edge_weight e =
      (inject_Z (edge_crimes e) +
       getDistance (node_lat fromNode) (node_lng fromNode)
                   (node_lat toNode) (node_lng toNode) * 100)%Q.
Proof.
  intros Hload e He.
  destruct (loadStreetData_some elements g Hload) as (Hnodes & _ & Hedges).
  destruct (Hedges e He)
    as (w & i & a & b & _ & _ & _ & fromNode & toNode & _ & _ & Hf & Ht & _ & Hw).
  exists fromNode, toNode. rewrite Hnodes. done.
Qed.

Lemma edge_weight_formula_witness :
  @loadStreetData sample_platform sample_elements = Some sample_built ∧
  ∀ e, e ∈ graph_edges sample_built →
  ∃ fromNode toNode,
    graph_nodes sample_built !! edge_from e = Some fromNode ∧
    graph_nodes sample_built !! edge_to e = Some toNode ∧
    edge_weight e =
      (inject_Z (edge_crimes e) +
       @getDistance sample_platform (node_lat fromNode) (node_lng fromNode)
                    (node_lat toNode) (node_lng toNode) * 100)%Q.
Proof.
  split; [vm_compute; reflexivity |].
  apply (@edge_weight_formula sample_platform sample_elements).
  vm_compute. reflexivity.
Defined.

(** C5, as the code has it.  In every graph that the graph builder produces
    both end node ids of every edge are ids of nodes of that graph; the two
    ends differ whenever no way names the same OSM node twice in a row. *)
Theorem edge_endpoints_exist `{Platform} (elements : list element) (g : graph) :
  loadStreetData elements = Some g →
  ∀ e, e ∈ graph_edges g →
  (∃ fromNode toNode,
     graph_nodes g !! edge_from e = Some fromNode ∧
     node_id fromNode = edge_from e ∧
     graph_nodes g !! edge_to e = Some toNode ∧
     node_id toNode = edge_to e) ∧
  ((∀ w, w ∈ collect_ways elements → no_repeat (way_nodes w)) →
   edge_from e ≠ edge_to e).
Proof.
  intros Hload e He.
  destruct (loadStreetData_some elements g Hload) as (Hnodes & Hok & Hedges).
  destruct (Hedges e He)
    as (w & i & a & b & Hw & Ha & Hb & fromNode & toNode & Hma & Hmb & Hf & Ht & _).
  destruct (nok_node _ _ _ Hok _ _ Hf) as (Hidf & _).
  destruct (nok_node _ _ _ Hok _ _ Ht) as (Hidt & _).
  split.
  - exists fromNode, toNode. rewrite Hnodes. done.
  - intros Hnr Heq. apply (Hnr w Hw i a b Ha Hb).
    destruct (nok_map _ _ _ Hok a _ Hma) as (n & Hn & <-).
    destruct (nok_map _ _ _ Hok b _ Hmb) as (m & Hm & <-).
    rewrite Heq in Hn. congruence.
Qed.

Lemma sample_ways_no_repeat :
  ∀ w, w ∈ collect_ways sample_elements → no_repeat (way_nodes w).
Proof.
  intros w Hw. vm_compute in Hw.
  repeat (apply elem_of_cons in Hw as [-> | Hw]);
    [| | by apply elem_of_nil in Hw];
    intros [| [| [| i]]] a b Ha Hb; simpl in *; congruence.
Qed.

Lemma edge_endpoints_exist_witness :
  @loadStreetData sample_platform sample_elements = Some sample_built ∧
  ∀ e, e ∈ graph_edges sample_built →
  (∃ fromNode toNode,
     graph_nodes sample_built !! edge_from e = Some fromNode ∧
     node_id fromNode = edge_from e ∧
     graph_nodes sample_built !! edge_to e = Some toNode ∧
     node_id toNode = edge_to e) ∧
  edge_from e ≠ edge_to e.
Proof.
  split; [vm_compute; reflexivity |].
  intros e He.
  destruct (@edge_endpoints_exist sample_platform sample_elements sample_built)
    with (e := e) as [Hends Hdistinct]; [vm_compute; reflexivity | exact He |].
  split; [exact Hends |]. apply Hdistinct. exact sample_ways_no_repeat.
Defined.

(** A way that names one OSM node twice in a row yields an edge from a node
    to itself. *)
Lemma stutter_self_loop :
  @loadStreetData sample_platform stutter_elements = Some stutter_built ∧
  map node_id (graph_nodes stutter_built) = [0%nat] ∧
  map (λ e, (edge_from e, edge_to e)) (graph_edges stutter_built)
    = [(0%nat, 0%nat)] ∧
  ¬ (∀ e, e ∈ graph_edges stutter_built → edge_from e ≠ edge_to e).
Proof.
  split_and!; [vm_compute; reflexivity.. |].
  intros Hall.
  assert (∃ e, graph_edges stutter_built = [e] ∧ edge_from e = edge_to e)
    as (e & He & Heq) by (eexists; split; reflexivity).
  apply (Hall e); [rewrite He; by left | exact Heq].
Qed.

(** C9. The nodes of a built graph are, in order, the distinct OSM ids that
    the ways refer to and the response resolves, each at its first
    occurrence across the ways in input order; no OSM id has two nodes; and
    the node at index [i] has id [i]. *)
Theorem node_ids_dense_first_seen `{Platform} (elements : list element) (g : graph) :
  loadStreetData elements = Some g →
  map node_osmId (graph_nodes g) =
    first_seen (resolved_ids (collect_nodes elements) (collect_ways elements)) ∧
  NoDup (map node_osmId (graph_nodes g)) ∧
  (∀ a, a ∈ map node_osmId (graph_nodes g) ↔
        a ∈ resolved_ids (collect_nodes elements) (collect_ways elements)) ∧
  (∀ i n, graph_nodes g !! i = Some n → node_id n = i).
Proof.
  intros Hload.
  destruct (loadStreetData_some elements g Hload) as (Hnodes & Hok & _).
  rewrite Hnodes. pose proof (nok_order _ _ _ Hok) as Ho.
  unfold resolved_ids. split_and!.
  - done.
  - rewrite Ho. apply NoDup_first_seen.
  - intros a. by rewrite Ho, elem_of_first_seen.
  - intros i n Hi. by destruct (nok_node _ _ _ Hok i n Hi).
Qed.

Lemma node_ids_dense_first_seen_witness :
  @loadStreetData sample_platform sample_elements = Some sample_built ∧
  map node_osmId (graph_nodes sample_built) = [101; 102; 103]%Z ∧
  map node_id (graph_nodes sample_built) = [0; 1; 2]%nat.
Proof.
  assert (@loadStreetData sample_platform sample_elements = Some sample_built)
    as Hload by (vm_compute; reflexivity).
  destruct (@node_ids_dense_first_seen sample_platform sample_elements
              sample_built Hload) as (Horder & _).
  split_and!; [exact Hload | | vm_compute; reflexivity].
  rewrite Horder. vm_compute. reflexivity.
Defined.

(** ** The route summary *)

Lemma route_totals_cons `{Platform} (g : graph) (a b : nat) (rest : list nat)
    (acc : Z * Q) :
  route_totals g (a :: b :: rest) acc =
  match graph_nodes g !! a, graph_nodes g !! b with
  | Some fromNode, Some toNode =>
      route_totals g (b :: rest)
        (match find_edge g a b with
         | Some e => (fst acc + edge_crimes e)%Z
         | None => fst acc
         end,
         (snd acc + getDistance (node_lat fromNode) (node_lng fromNode)
                                (node_lat toNode) (node_lng toNode))%Q)
  | _, _ => None
  end.
Proof. reflexivity. Qed.

Lemma traversed_risks_cons (g : graph) (a b : nat) (rest : list nat) :
  traversed_risks g (a :: b :: rest) =
  match find_edge g a b with
  | Some e => edge_crimes e :: traversed_risks g (b :: rest)
  | None => traversed_risks g (b :: rest)
  end.
Proof. reflexivity. Qed.

Lemma route_totals_crimes `{Platform} (g : graph) : ∀ path acc tc td,
  route_totals g path acc = Some (tc, td) →
  tc = (fst acc + sum_risks (traversed_risks g path))%Z.
Proof.
  induction path as [| a rest IH]; intros acc tc td Hrun.
  - injection Hrun as ->. unfold sum_risks. simpl. lia.
  - destruct rest as [| b rest].
    + injection Hrun as ->. unfold sum_risks. simpl. lia.
    + rewrite route_totals_cons in Hrun. rewrite traversed_risks_cons.
      destruct (graph_nodes g !! a); [| done].
      destruct (graph_nodes g !! b); [| done].
      apply IH in Hrun. cbn [fst] in Hrun.
      destruct (find_edge g a b); unfold sum_risks in *;
        cbn [fold_right] in *; lia.
Qed.

Lemma route_summary_fields `{Platform} (g : graph) (path : list nat) (r : route_info) :
  route_summary g path = RouteShown r →
  route_path r = path ∧
  route_segments r = (length path - 1)%nat ∧
  route_crime_score r = sum_risks (traversed_risks g path) ∧
  route_avg r = (inject_Z (route_crime_score r) /
                 inject_Z (Z.of_nat (length path) - 1))%Q ∧
  safetyRating r = fst (classify (route_avg r)).
Proof.
  unfold route_summary.
  destruct (path_coords g path); [| done].
  destruct (route_totals g path (0%Z, 0%Q)) as [[tc td] |] eqn:Htot; [| done].
  intros [= <-]. simpl. split_and!; try done.
  by rewrite (route_totals_crimes g path _ _ _ Htot).
Qed.

Lemma findSafestRoute_shown `{Platform} (fuel : nat) (app : app_state) (r : route_info) :
  findSafestRoute fuel app = RouteShown r →
  ∃ startNode endNode path,
    dijkstra fuel (app_graph app) (node_id startNode) (node_id endNode)
      = Some (Some path) ∧
    route_summary (app_graph app) path = RouteShown r.
Proof.
  unfold findSafestRoute.
  destruct (startPoint app) as [sp |]; [| done].
  destruct (endPoint app) as [ep |]; [| done].
  destruct (Nat.eqb _ _); [done |].
  destruct (findNearestNode _ (fst sp) (snd sp)) as [startNode |]; [| done].
  destruct (findNearestNode _ (fst ep) (snd ep)) as [endNode |]; [| done].
  destruct (dijkstra _ _ _ _) as [[path |] |] eqn:Hd; [| done | done].
  intros Hsum. exists startNode, endNode, path. done.
Qed.

Lemma classify_tiers (avg : Q) :
  ((avg <= 2)%Q → fst (classify avg) = "Very Safe") ∧
  ((2 < avg)%Q → (avg <= 5)%Q → fst (classify avg) = "Safe") ∧
  ((5 < avg)%Q → (avg <= 8)%Q → fst (classify avg) = "Moderate") ∧
  ((8 < avg)%Q → fst (classify avg) = "Caution Advised").
Proof.
  unfold classify.
  destruct (Qle_bool avg 2) eqn:H2; [apply Qle_bool_iff in H2 |];
  destruct (Qle_bool avg 5) eqn:H5; try apply Qle_bool_iff in H5;
  destruct (Qle_bool avg 8) eqn:H8; try apply Qle_bool_iff in H8;
  simpl; split_and!; intros; try done; try lra;
  exfalso;
  repeat match goal with
  | Hb : Qle_bool ?a ?b = false |- _ =>
      assert (¬ (a <= b)%Q) by (rewrite <- Qle_bool_iff; congruence); clear Hb
  end; lra.
Qed.

(** C6. The safety rating is the four-tier step function of the mean risk
    per segment, each upper bound included; [findSafestRoute] applies it to
    the sum of the risks of the traversed edges divided by the number of
    segments; and a route of three segments whose edges have the risks 1, 4
    and 10 has mean 5 and the rating "Safe". *)
Theorem safety_classification `{Platform} :
  (∀ avg : Q,
     ((avg <= 2)%Q → fst (classify avg) = "Very Safe") ∧
     ((2 < avg)%Q → (avg <= 5)%Q → fst (classify avg) = "Safe") ∧
     ((5 < avg)%Q → (avg <= 8)%Q → fst (classify avg) = "Moderate") ∧
     ((8 < avg)%Q → fst (classify avg) = "Caution Advised")) ∧
  (∀ fuel app r, findSafestRoute fuel app = RouteShown r →
     safetyRating r = fst (classify (route_avg r)) ∧
     route_avg r =
       (inject_Z (sum_risks (traversed_risks (app_graph app) (route_path r))) /
        inject_Z (Z.of_nat (length (route_path r)) - 1))%Q) ∧
  (∀ fuel app r, findSafestRoute fuel app = RouteShown r →
     traversed_risks (app_graph app) (route_path r) = [1; 4; 10]%Z →
     length (route_path r) = 4%nat →
     (route_avg r == 5)%Q ∧ safetyRating r = "Safe").
Proof.
  assert (∀ fuel app r, findSafestRoute fuel app = RouteShown r →
     safetyRating r = fst (classify (route_avg r)) ∧
     route_avg r =
       (inject_Z (sum_risks (traversed_risks (app_graph app) (route_path r))) /
        inject_Z (Z.of_nat (length (route_path r)) - 1))%Q) as Hmean.
  { intros fuel app r Hshown.
    destruct (findSafestRoute_shown fuel app r Hshown) as (sn & en & path & _ & Hsum).
    destruct (route_summary_fields _ _ _ Hsum) as (-> & _ & <- & Havg & Hrate).
    done. }
  split_and!; [apply classify_tiers | exact Hmean |].
  intros fuel app r Hshown Hrisks Hlen.
  destruct (Hmean fuel app r Hshown) as [Hrate Havg].
  rewrite Hrisks, Hlen in Havg.
  assert (route_avg r == 5)%Q as H5 by (rewrite Havg; reflexivity).
  split; [exact H5 |].
  rewrite Hrate. destruct (classify_tiers (route_avg r)) as (_ & Hsafe & _).
  apply Hsafe; rewrite H5; unfold Qlt, Qle; simpl; lia.
Qed.

Lemma safety_classification_witness :
  ∃ r, @findSafestRoute sample_platform 4 sample_app = RouteShown r ∧
       route_path r = [0; 1; 2; 3]%nat ∧
       (route_avg r == 5)%Q ∧ safetyRating r = "Safe".
Proof.
  eexists. split; [vm_compute; reflexivity |].
  split; [reflexivity |].
  destruct (@safety_classification sample_platform) as (_ & _ & Hscenario).
  apply (Hscenario 4%nat sample_app); vm_compute; reflexivity.
Defined.

(** ** The empty graph *)

(** C7. Without ways the graph builder produces the graph with no nodes and
    no edges; a route query on a graph without nodes ends in the alert
    "Street data not loaded yet. Please wait...", which is not the alert
    "No route found!" of a failed search, and it does so before the
    nearest-node lookup and [dijkstra] are called, whatever fuel these would
    have; the nearest-node lookup on such a graph finds no node. *)
Theorem empty_graph_rejected `{Platform} :
  (∀ elements, collect_ways elements = [] →
     loadStreetData elements = Some (mkGraph [] [])) ∧
  (∀ fuel app sp ep,
     startPoint app = Some sp → endPoint app = Some ep →
     graph_nodes (app_graph app) = [] →
     findSafestRoute fuel app = Alert "Street data not loaded yet. Please wait...") ∧
  Alert "Street data not loaded yet. Please wait..." ≠ Alert "No route found!" ∧
  (∀ g lat lng, graph_nodes g = [] → findNearestNode g lat lng = None).
Proof.
  split_and!.
  - intros elements Hways. unfold loadStreetData. rewrite Hways. done.
  - intros fuel app sp ep Hsp Hep Hnodes. unfold findSafestRoute.
    by rewrite Hsp, Hep, Hnodes.
  - done.
  - intros g lat lng Hnodes. unfold findNearestNode. by rewrite Hnodes.
Qed.

Lemma empty_graph_rejected_witness :
  @loadStreetData sample_platform [] = Some (mkGraph [] []) ∧
  @findSafestRoute sample_platform 0
     (mkApp (mkGraph [] []) (Some (0, 0)%Q) (Some (3, 0)%Q))
  = Alert "Street data not loaded yet. Please wait...".
Proof.
  destruct (@empty_graph_rejected sample_platform) as (Hbuild & Hquery & _).
  split.
  - apply Hbuild. reflexivity.
  - eapply Hquery; reflexivity.
Defined.

(** * Further properties of the code *)

(** ** Nearest-node lookup *)

Lemma nearer_ok `{Platform} (lat lng : Q) (seen : list node)
    (acc : num * option node) (n : node) :
  near_ok lat lng seen acc → near_ok lat lng (seen ++ [n]) (nearer lat lng acc n).
Proof.
  unfold near_ok, nearer, measurable.
  destruct (getDistance_NaN lat lng (node_lat n) (node_lng n)) eqn:Hnan;
    cbn [negb andb].
  { (* the distance to [n] is NaN: nothing changes *)
    destruct (snd acc) as [n0 |].
    - intros (i & Hi & Hm0 & Hacc & Hmin). exists i.
      split_and!; [by apply lookup_app_l_Some | done | done |].
      intros j m Hj Hm. apply lookup_app_Some in Hj as [Hj | [Hlen Hj]];
        [by apply Hmin |].
      apply list_lookup_singleton_Some in Hj as [_ <-]. congruence.
    - intros [Hall Hacc]. split; [| done].
      intros m Hm. apply elem_of_app in Hm as [Hm | Hm]; [by apply Hall |].
      apply list_elem_of_singleton in Hm as ->. congruence. }
  destruct acc as [d [n0 |]]; cbn [fst snd].
  - intros (i & Hi & Hm0 & -> & Hmin). cbn [num_lt].
    destruct (Qle_bool _ _) eqn:Hle; cbn [negb fst snd].
    + apply Qle_bool_iff in Hle. exists i.
      split_and!; [by apply lookup_app_l_Some | done | done |].
      intros j m Hj Hm. apply lookup_app_Some in Hj as [Hj | [Hlen Hj]];
        [by apply Hmin |].
      apply list_lookup_singleton_Some in Hj as [_ <-].
      split; [done |]. intros Hji. apply lookup_lt_Some in Hi. lia.
    + assert (getDistance lat lng (node_lat n) (node_lng n)
              < getDistance lat lng (node_lat n0) (node_lng n0))%Q as Hlt.
      { apply Qnot_le_lt. intros Hc. apply Qle_bool_iff in Hc. congruence. }
      exists (length seen). split_and!.
      * rewrite lookup_app_r by lia. by rewrite Nat.sub_diag.
      * done.
      * done.
      * intros j m Hj Hm. apply lookup_app_Some in Hj as [Hj | [Hlen Hj]].
        -- destruct (Hmin j m Hj Hm) as [Hle' _]. split; [lra |]. intros _. lra.
        -- apply list_lookup_singleton_Some in Hj as [Hj <-].
           split; [lra |]. lia.
  - intros [Hall ->]. cbn [num_lt fst snd]. exists (length seen). split_and!.
    + rewrite lookup_app_r by lia. by rewrite Nat.sub_diag.
    + done.
    + done.
    + intros j m Hj Hm. apply lookup_app_Some in Hj as [Hj | [Hlen Hj]].
      * destruct (Hall m); [by eapply list_elem_of_lookup_2 | done].
      * apply list_lookup_singleton_Some in Hj as [Hj <-]. split; [lra | lia].
Qed.

Lemma nearer_fold_ok `{Platform} (lat lng : Q) (l : list node) : ∀ seen acc,
  near_ok lat lng seen acc →
  near_ok lat lng (seen ++ l) (fold_left (nearer lat lng) l acc).
Proof.
  induction l as [| n l IH]; intros seen acc Hok; simpl.
  - by rewrite app_nil_r.
  - replace (seen ++ n :: l) with ((seen ++ [n]) ++ l) by (by rewrite <- app_assoc).
    apply IH. by apply nearer_ok.
Qed.

Lemma findNearestNode_ok `{Platform} (g : graph) (lat lng : Q) :
  near_ok lat lng (graph_nodes g)
    (fold_left (nearer lat lng) (graph_nodes g) (Infinity, None)).
Proof.
  apply (nearer_fold_ok lat lng (graph_nodes g) [] (Infinity, None)).
  split; [| done]. intros m Hm. by apply elem_of_nil in Hm.
Qed.


(** On [sample_platform] the term [a] of [getDistance] is the square of half
    the difference in latitude, in radians.  From latitude 117 it exceeds 1
    for the nodes at latitudes 0, 1 and 2, whose distances are [NaN] and are
    passed over; from latitude 200 it does so for every node of
    [sample_graph], no node is found, and [findSafestRoute] fails on
    [startNode.id]. *)
Example findNearestNode_skips_NaN :
  @findNearestNode sample_platform sample_graph 117 0 = Some (sample_node 3).
Proof. vm_compute. reflexivity. Qed.

Example findNearestNode_all_NaN :
  @findNearestNode sample_platform sample_graph 200 0 = None ∧
  @findSafestRoute sample_platform 4
    (mkApp sample_graph (Some (200, 0)%Q) (Some (0, 0)%Q)) = TypeError.
Proof. split; vm_compute; reflexivity. Qed.

(** ** Risk scorer and classifier *)

Lemma first_containing_cases `{Platform} (pt : Q * Q) (fs : list feature) :
  (first_containing pt fs = "default" ∧
   ∀ f, f ∈ fs → booleanPointInPolygon pt (feature_coordinates f) = false) ∨
  (∃ i f, fs !! i = Some f ∧ first_containing pt fs = feature_name f ∧
          booleanPointInPolygon pt (feature_coordinates f) = true ∧
          ∀ j f', (j < i)%nat → fs !! j = Some f' →
                  booleanPointInPolygon pt (feature_coordinates f') = false).
Proof.
  induction fs as [| f fs IH]; simpl.
  - left. split; [done |]. intros f Hf. by apply elem_of_nil in Hf.
  - destruct (booleanPointInPolygon pt (feature_coordinates f)) eqn:Hin.
    + right. exists 0%nat, f. split_and!; [done | done | done |]. intros j f' Hj. lia.
    + destruct IH as [[Hd Hall] | (i & f0 & Hi & Hname & Hin0 & Hbefore)].
      * left. split; [done |]. intros f' Hf'.
        apply elem_of_cons in Hf' as [-> | Hf']; [done | by apply Hall].
      * right. exists (S i), f0. split_and!; [done | done | done |].
        intros [| j] f' Hj Hf'; simpl in Hf'; [by injection Hf' as <- |].
        apply (Hbefore j f'); [lia | done].
Qed.

(** X2. [getNeighborhoodForPoint] answers with the name of the first feature
    of the table whose polygon contains the point, and with "default"
    exactly when no polygon contains it. *)
Theorem getNeighborhoodForPoint_first_match `{Platform} (lat lng : Q) :
  (getNeighborhoodForPoint lat lng = "default" ↔
   ∀ f, f ∈ neighborhoodPolygons →
        booleanPointInPolygon (lng, lat) (feature_coordinates f) = false) ∧
  ∀ i f, neighborhoodPolygons !! i = Some f →
    booleanPointInPolygon (lng, lat) (feature_coordinates f) = true →
    (∀ j f', (j < i)%nat → neighborhoodPolygons !! j = Some f' →
             booleanPointInPolygon (lng, lat) (feature_coordinates f') = false) →
    getNeighborhoodForPoint lat lng = feature_name f.
Proof.
  unfold getNeighborhoodForPoint.
  destruct (first_containing_cases (lng, lat) neighborhoodPolygons)
    as [[Hd Hall] | (i & f & Hi & Hname & Hin & Hbefore)].
  - split; [done |]. intros i f Hi Hin _.
    rewrite Hall in Hin; [done |]. apply list_elem_of_lookup. eauto.
  - split.
    + split.
      * intros Hd. rewrite Hname in Hd.
        exfalso. revert Hd. clear -Hi.
        do 7 (destruct i as [| i]; [injection Hi as <-; done |]). done.
      * intros Hall. rewrite Hall in Hin; [done |]. apply list_elem_of_lookup. eauto.
    + intros i' f' Hi' Hin' Hbefore'. rewrite Hname.
      destruct (Nat.lt_trichotomy i i') as [Hlt | [-> | Hgt]].
      * rewrite (Hbefore' i f Hlt Hi) in Hin. done.
      * congruence.
      * rewrite (Hbefore i' f' Hgt Hi') in Hin'. done.
Qed.

Lemma getNeighborhoodForPoint_witness :
  @getNeighborhoodForPoint plane_platform (413080 # 10000) (-729280 # 10000)
  = "default".
Proof.
  destruct (@getNeighborhoodForPoint_first_match plane_platform
              (413080 # 10000) (-729280 # 10000)) as [[_ Hdefault] _].
  apply Hdefault. reflexivity.
Defined.

Lemma safe_factor_bounds `{Platform} (lat lng : Q) :
  (0 < safe_factor_of (getNeighborhoodForPoint lat lng))%Q ∧
  (safe_factor_of (getNeighborhoodForPoint lat lng) <= 16 # 10)%Q.
Proof.
  unfold getNeighborhoodForPoint, neighborhoodPolygons, first_containing.
  cbn [feature_coordinates feature_name].
  repeat (destruct (booleanPointInPolygon (lng, lat) _);
          [split; [unfold Qlt | unfold Qle]; vm_compute; done |]).
  split; [unfold Qlt | unfold Qle]; vm_compute; done.
Qed.

Lemma crime_level_facts `{Platform} (lat lng : Q) :
  (inject_Z (getCrimeLevel lat lng)
   < 8 * safe_factor_of (getNeighborhoodForPoint lat lng))%Q ∧
  (0 <= getCrimeLevel lat lng <= 12)%Z ∧
  getCrimeLevel lat lng =
    Qfloor ((Qabs (Math_sin (lat * 1000) * Math_cos (lng * 1000))
             - inject_Z (Qfloor (Qabs (Math_sin (lat * 1000) * Math_cos (lng * 1000)))))
            * 8 * safe_factor_of (getNeighborhoodForPoint lat lng))%Q.
Proof.
  destruct (safe_factor_bounds lat lng) as [Hpos Hle].
  unfold getCrimeLevel. fold (safe_factor_of (getNeighborhoodForPoint lat lng)).
  set (f := safe_factor_of _) in *.
  set (h := Qabs _).
  pose proof (Qfloor_le h) as Hfl. pose proof (Qlt_floor h) as Hfu.
  rewrite inject_Z_plus in Hfu.
  set (pr := (h - inject_Z (Qfloor h))%Q).
  assert (0 <= pr)%Q as Hp0 by (unfold pr; lra).
  assert (pr < 1)%Q as Hp1
    by (unfold pr; change (inject_Z 1) with 1%Q in Hfu; lra).
  assert (pr * 8 * f < 8 * f)%Q as Hprod.
  { apply Qmult_lt_compat_r; [done | lra]. }
  pose proof (Qfloor_le (pr * 8 * f)) as Hb.
  assert (Qfloor (pr * 8 * f) <= 12)%Z as H12.
  { assert (inject_Z (Qfloor (pr * 8 * f)) < inject_Z 13)%Q as Hlt.
    { apply Qle_lt_trans with (pr * 8 * f)%Q; [done |].
      apply Qlt_le_trans with (8 * f)%Q; [done |].
      apply Qle_trans with (8 * (16 # 10))%Q; [lra | unfold Qle; simpl; lia]. }
    rewrite <- Zlt_Qlt in Hlt. lia. }
  assert (0 <= Qfloor (pr * 8 * f))%Z as H0.
  { apply Qfloor_nonneg. apply Qmult_le_0_compat; [| lra].
    apply Qmult_le_0_compat; [done | lra]. }
  rewrite Z.min_r by lia. split_and!; [lra | lia | lia | done].
Qed.

(** X3. The score of [getCrimeLevel] stays below eight times the safety
    factor of the zone of the point, and never exceeds 12: with the
    configured tables the cap at 14 is never reached. *)
Theorem getCrimeLevel_below_factor `{Platform} (lat lng : Q) :
  (inject_Z (getCrimeLevel lat lng)
   < 8 * safe_factor_of (getNeighborhoodForPoint lat lng))%Q ∧
  (0 <= getCrimeLevel lat lng <= 12)%Z ∧
  getCrimeLevel lat lng =
    Qfloor ((Qabs (Math_sin (lat * 1000) * Math_cos (lng * 1000))
             - inject_Z (Qfloor (Qabs (Math_sin (lat * 1000) * Math_cos (lng * 1000)))))
            * 8 * safe_factor_of (getNeighborhoodForPoint lat lng))%Q.
Proof. apply crime_level_facts. Qed.

Lemma neighborhood_not_downtown `{Platform} (lat lng : Q) :
  getNeighborhoodForPoint lat lng ≠ "Downtown".
Proof.
  unfold getNeighborhoodForPoint, neighborhoodPolygons, first_containing.
  cbn [feature_coordinates feature_name].
  destruct (booleanPointInPolygon (lng, lat) _) eqn:Hyale; [done |].
  repeat (destruct (booleanPointInPolygon (lng, lat) _); [done |]).
  done.
Qed.

Lemma getCrimeColor_classify (crimes : Z) :
  getCrimeColor crimes = snd (classify (inject_Z crimes)).
Proof.
  unfold getCrimeColor, classify, Qle_bool. simpl.
  rewrite !Z.mul_1_r.
  destruct (Z.leb crimes 2), (Z.leb crimes 5), (Z.leb crimes 8); done.
Qed.

(** X4. An edge and a route are coloured alike: for an integer score the
    colour of [getCrimeColor] is the colour the route rating gives the same
    mean; the line width grows with the tier, from 2 to 5 pixels; and the
    popup calls "Safe", "Moderate", "Unsafe", "Very Unsafe" what the route
    rating calls "Very Safe", "Safe", "Moderate", "Caution Advised". *)
Theorem edge_tiers_match_route_tiers (crimes : Z) :
  getCrimeColor crimes = snd (classify (inject_Z crimes)) ∧
  (getCrimeWidth crimes = 2 ↔ fst (classify (inject_Z crimes)) = "Very Safe") ∧
  (getCrimeWidth crimes = 3 ↔ fst (classify (inject_Z crimes)) = "Safe") ∧
  (getCrimeWidth crimes = 4 ↔ fst (classify (inject_Z crimes)) = "Moderate") ∧
  (getCrimeWidth crimes = 5 ↔ fst (classify (inject_Z crimes)) = "Caution Advised") ∧
  (popup_safety crimes = "Safe" ↔ fst (classify (inject_Z crimes)) = "Very Safe") ∧
  (popup_safety crimes = "Moderate" ↔ fst (classify (inject_Z crimes)) = "Safe") ∧
  (popup_safety crimes = "Unsafe" ↔ fst (classify (inject_Z crimes)) = "Moderate") ∧
  (popup_safety crimes = "Very Unsafe" ↔
   fst (classify (inject_Z crimes)) = "Caution Advised") ∧
  ∀ crimes', (crimes <= crimes')%Z → getCrimeWidth crimes <= getCrimeWidth crimes'.
Proof.
  split; [apply getCrimeColor_classify |].
  unfold getCrimeWidth, popup_safety, classify, Qle_bool. simpl.
  rewrite !Z.mul_1_r.
  destruct (Z.leb_spec crimes 2), (Z.leb_spec crimes 5), (Z.leb_spec crimes 8);
    try lia; simpl; (split_and!; [done.. |]);
    intros crimes' Hle;
    destruct (Z.leb_spec crimes' 2), (Z.leb_spec crimes' 5), (Z.leb_spec crimes' 8);
    lia.
Qed.

(** ** The graph builder, further *)

Lemma street_name_nonempty (w : way) : street_name w ≠ "".
Proof.
  unfold street_name. destruct (way_tags w !! "name") as [n |]; [| done].
  by case_bool_decide.
Qed.

Section EdgePassSegments.

Context `{Platform}.
Variable osmNodes : gmap Z (Q * Q).
Variable st : nstate.
Variable seen : list Z.
Hypothesis Hok : nodes_ok osmNodes seen st.

Lemma add_edge_segment (w : way) (a b : Z) (segs : list (way * (Z * Z)))
    (edges edges' : list edge) :
  Forall2 (edge_for (ns_nodes st)) segs edges →
  add_edge osmNodes st w a b edges = Some edges' →
  Forall2 (edge_for (ns_nodes st))
    (segs ++ filter (λ seg, is_Some (osmNodes !! fst (snd seg)) ∧
                            is_Some (osmNodes !! snd (snd seg))) [(w, (a, b))])
    edges'.
Proof.
  intros Hsegs. unfold add_edge. rewrite filter_cons, filter_nil. cbn [fst snd].
  destruct (osmNodes !! a) eqn:Hoa.
  2: { intros [= <-]. rewrite decide_False by (by intros [[? ?] _]).
       by rewrite app_nil_r. }
  destruct (osmNodes !! b) eqn:Hob.
  2: { intros [= <-]. rewrite decide_False by (by intros [_ [? ?]]).
       by rewrite app_nil_r. }
  rewrite decide_True by (split; eauto).
  destruct (ns_nodeMap st !! a) as [fromId |] eqn:Ha; [| done].
  destruct (ns_nodeMap st !! b) as [toId |] eqn:Hb; [| done].
  destruct (ns_nodes st !! fromId) as [fromNode |] eqn:Hf; [| done].
  destruct (ns_nodes st !! toId) as [toNode |] eqn:Ht; [| done].
  intros [= <-]. apply Forall2_app; [done |]. constructor; [| constructor].
  destruct (nok_map _ _ _ Hok a fromId Ha) as (n & Hn & Hna).
  destruct (nok_map _ _ _ Hok b toId Hb) as (m & Hm & Hmb).
  exists fromNode, toNode. cbn. split_and!; try done; congruence.
Qed.

Lemma add_way_edges_segments (w : way) : ∀ ids segs edges edges',
  Forall2 (edge_for (ns_nodes st)) segs edges →
  add_way_edges osmNodes st w ids edges = Some edges' →
  Forall2 (edge_for (ns_nodes st))
    (segs ++ filter (λ seg, is_Some (osmNodes !! fst (snd seg)) ∧
                            is_Some (osmNodes !! snd (snd seg)))
                    (map (pair w) (way_pairs ids)))
    edges'.
Proof.
  induction ids as [| a rest IH]; intros segs edges edges' Hsegs Hrun.
  - injection Hrun as <-. simpl. by rewrite filter_nil, app_nil_r.
  - destruct rest as [| b rest].
    + injection Hrun as <-. simpl. by rewrite filter_nil, app_nil_r.
    + cbn [add_way_edges] in Hrun.
      destruct (add_edge osmNodes st w a b edges) as [edges1 |] eqn:Hadd; [| done].
      pose proof (add_edge_segment w a b segs edges edges1 Hsegs Hadd) as H1.
      pose proof (IH _ _ _ H1 Hrun) as H2.
      change (way_pairs (a :: b :: rest)) with ((a, b) :: way_pairs (b :: rest)).
      rewrite map_cons.
      change ((w, (a, b)) :: map (pair w) (way_pairs (b :: rest)))
        with ([(w, (a, b))] ++ map (pair w) (way_pairs (b :: rest))).
      rewrite filter_app, app_assoc. exact H2.
Qed.

Lemma add_all_edges_segments : ∀ ways segs edges edges',
  Forall2 (edge_for (ns_nodes st)) segs edges →
  add_all_edges osmNodes st ways edges = Some edges' →
  Forall2 (edge_for (ns_nodes st))
    (segs ++ filter (λ seg, is_Some (osmNodes !! fst (snd seg)) ∧
                            is_Some (osmNodes !! snd (snd seg)))
               (concat (map (λ w, map (pair w) (way_pairs (way_nodes w))) ways)))
    edges'.
Proof.
  induction ways as [| w ways IH]; intros segs edges edges' Hsegs Hrun;
    simpl in Hrun.
  - injection Hrun as <-. simpl. by rewrite filter_nil, app_nil_r.
  - destruct (add_way_edges osmNodes st w (way_nodes w) edges) as [edges1 |] eqn:Hw;
      [| done].
    pose proof (add_way_edges_segments w _ _ _ _ Hsegs Hw) as H1.
    pose proof (IH _ _ _ H1 Hrun) as H2.
    simpl. rewrite filter_app, app_assoc. exact H2.
Qed.

End EdgePassSegments.

Lemma loadStreetData_segments `{Platform} (elements : list element) (g : graph) :
  loadStreetData elements = Some g →
  Forall2 (edge_for (graph_nodes g))
    (resolved_segments (collect_nodes elements) (collect_ways elements))
    (graph_edges g).
Proof.
  unfold loadStreetData. intros Hload.
  destruct (add_all_edges _ _ _ _) as [edges |] eqn:Hedges; [| done].
  injection Hload as <-. simpl.
  apply (add_all_edges_segments _ _ _ (build_nodes_ok _ _) _ [] [] edges);
    [constructor | done].
Qed.

(** X5. The edge pass makes exactly one edge for each pair of consecutive
    node references of a way whose two OSM ids have coordinates, in input
    order, and none for the other pairs; the edge joins the nodes of these
    two ids, and carries the way's id and name (or "Unnamed Street") and
    the risk score and zone of the midpoint of its ends. *)
Theorem edges_follow_segments `{Platform} (elements : list element) (g : graph) :
  loadStreetData elements = Some g →
  Forall2 (edge_for (graph_nodes g))
    (resolved_segments (collect_nodes elements) (collect_ways elements))
    (graph_edges g) ∧
  length (graph_edges g) =
    length (resolved_segments (collect_nodes elements) (collect_ways elements)).
Proof.
  intros Hload. pose proof (loadStreetData_segments elements g Hload) as Hsegs.
  split; [done |]. symmetry. by eapply Forall2_length.
Qed.

Lemma edges_follow_segments_witness :
  @loadStreetData sample_platform sample_elements = Some sample_built ∧
  map (λ seg, (way_id (fst seg), snd seg))
      (resolved_segments (collect_nodes sample_elements)
                         (collect_ways sample_elements))
    = [(7, (101, 102)); (7, (102, 103)); (8, (103, 101))]%Z ∧
  length (graph_edges sample_built) = 3%nat.
Proof.
  assert (@loadStreetData sample_platform sample_elements = Some sample_built)
    as Hload by (vm_compute; reflexivity).
  destruct (@edges_follow_segments sample_platform sample_elements sample_built Hload)
    as [_ Hlen].
  split_and!; [exact Hload | vm_compute; reflexivity |].
  rewrite Hlen. vm_compute. reflexivity.
Defined.

(** X6. In a built graph every edge has a risk score from 0 to 12, a zone
    name other than "Downtown" and a street name that is not empty. *)
Theorem built_edge_fields `{Platform} (elements : list element) (g : graph) :
  loadStreetData elements = Some g →
  ∀ e, e ∈ graph_edges g →
    (0 <= edge_crimes e <= 12)%Z ∧
    edge_neighborhood e ≠ "Downtown" ∧
    edge_streetName e ≠ "".
Proof.
  intros Hload e He.
  pose proof (loadStreetData_segments elements g Hload) as Hsegs.
  apply list_elem_of_lookup in He as [i Hi].
  destruct (Forall2_lookup_r _ _ _ _ _ Hsegs Hi) as (seg & _ & Hfor).
  destruct Hfor as (nf & nt & _ & _ & _ & _ & Hcr & Hnb & _ & Hname).
  split; [| split].
  - rewrite Hcr. apply crime_level_facts.
  - rewrite Hnb. apply neighborhood_not_downtown.
  - rewrite Hname. apply street_name_nonempty.
Qed.

Lemma built_edge_fields_witness :
  @loadStreetData sample_platform sample_elements = Some sample_built ∧
  ∀ e, e ∈ graph_edges sample_built →
    (0 <= edge_crimes e <= 12)%Z ∧
    edge_neighborhood e ≠ "Downtown" ∧
    edge_streetName e ≠ "".
Proof.
  split; [vm_compute; reflexivity |].
  apply (@built_edge_fields sample_platform sample_elements).
  vm_compute. reflexivity.
Defined.

(** X7. If [getDistance] is never negative, no edge of a built graph has a
    negative weight, so that [dijkstra] is used within its assumption. *)
Theorem built_weights_nonneg `{Platform} (elements : list element) (g : graph) :
  (∀ lat1 lng1 lat2 lng2, (0 <= getDistance lat1 lng1 lat2 lng2)%Q) →
  loadStreetData elements = Some g →
  nonneg_weights g.
Proof.
  intros Hdist Hload. apply Forall_forall. intros e He.
  destruct (loadStreetData_some elements g Hload) as (_ & _ & Hedges).
  destruct (Hedges e He)
    as (w & i & a & b & _ & _ & _ & nf & nt & _ & _ & _ & _ & Hcr & Hw).
  rewrite Hw, Hcr.
  destruct (crime_level_facts ((node_lat nf + node_lat nt) / 2)
                              ((node_lng nf + node_lng nt) / 2)) as (_ & [H0 _] & _).
  specialize (Hdist (node_lat nf) (node_lng nf) (node_lat nt) (node_lng nt)).
  rewrite Zle_Qle in H0. change (inject_Z 0) with 0%Q in H0. lra.
Qed.

Lemma plane_distance_nonneg (lat1 lng1 lat2 lng2 : Q) :
  (0 <= @getDistance plane_platform lat1 lng1 lat2 lng2)%Q.
Proof.
  unfold getDistance. cbn [Math_sin Math_cos Math_sqrt Math_atan2 Math_PI plane_platform].
  set (x := ((lat2 - lat1) * (355 # 113) / 180 / 2)%Q).
  assert (0 <= x * x)%Q as Hsq by nra.
  lra.
Defined.

Lemma built_weights_nonneg_witness : nonneg_weights plane_built.
Proof.
  apply (@built_weights_nonneg plane_platform sample_elements).
  - exact plane_distance_nonneg.
  - vm_compute. reflexivity.
Defined.

Lemma collect_nodes_last (elements : list element) (a : Z) (v : Q * Q) :
  collect_nodes elements !! a = Some v →
  ∃ i el, elements !! i = Some el ∧ el_type el = "node" ∧ el_id el = a ∧
    v = (el_lat el, el_lon el) ∧
    ∀ j el', (i < j)%nat → elements !! j = Some el' →
             ¬ (el_type el' = "node" ∧ el_id el' = a).
Proof.
  unfold collect_nodes. induction elements as [| el elements IH] using rev_ind.
  - simpl. by rewrite lookup_empty.
  - rewrite fold_left_app. simpl. unfold collect_node at 1.
    case_bool_decide as Htype.
    + destruct (decide (el_id el = a)) as [<- | Hne].
      * rewrite lookup_insert_eq. intros [= <-].
        exists (length elements), el. split_and!; try done.
        -- rewrite lookup_app_r by lia. by rewrite Nat.sub_diag.
        -- intros j el' Hj Hel'. apply lookup_lt_Some in Hel'.
           rewrite length_app in Hel'. simpl in Hel'. lia.
      * rewrite lookup_insert_ne by done. intros Hv.
        destruct (IH Hv) as (i & el0 & Hi & H1 & H2 & H3 & Hlater).
        exists i, el0. split_and!; try done; [by apply lookup_app_l_Some |].
        intros j el' Hj Hel'. apply lookup_app_Some in Hel' as [Hel' | [Hlen Hel']].
        -- by apply (Hlater j el').
        -- apply list_lookup_singleton_Some in Hel' as [_ <-]. tauto.
    + intros Hv. destruct (IH Hv) as (i & el0 & Hi & H1 & H2 & H3 & Hlater).
      exists i, el0. split_and!; try done; [by apply lookup_app_l_Some |].
      intros j el' Hj Hel'. apply lookup_app_Some in Hel' as [Hel' | [Hlen Hel']].
      * by apply (Hlater j el').
      * apply list_lookup_singleton_Some in Hel' as [_ <-]. tauto.
Qed.

Lemma collect_ways_spec (elements : list element) : ∀ acc w,
  w ∈ fold_left collect_way elements acc →
  w ∈ acc ∨
  ∃ el ns, el ∈ elements ∧ el_type el = "way" ∧ el_nodes el = Some ns ∧
           (1 < length ns)%nat ∧ way_id w = el_id el ∧ way_nodes w = ns.
Proof.
  induction elements as [| el elements IH]; intros acc w Hw; simpl in Hw.
  - by left.
  - destruct (IH _ w Hw) as [Hacc | (el0 & ns & Hin & Hrest)].
    + unfold collect_way in Hacc. case_bool_decide as Htype; [| by left].
      destruct (el_nodes el) as [ns |] eqn:Hns; [| by left].
      destruct (Nat.ltb_spec 1 (length ns)) as [Hlen | Hlen]; [| by left].
      apply elem_of_app in Hacc as [Hacc | Hacc]; [by left |].
      apply list_elem_of_singleton in Hacc. subst w. right.
      exists el, ns. split_and!; try done. by left.
    + right. exists el0, ns. split; [by right | done].
Qed.

(** X8. Every node of a built graph is referenced by a way element of the
    response that has two references or more, and has the coordinates of
    the last node element of the response with its OSM id. *)
Theorem built_node_origin `{Platform} (elements : list element) (g : graph) :
  loadStreetData elements = Some g →
  ∀ n, n ∈ graph_nodes g →
    (∃ el ns, el ∈ elements ∧ el_type el = "way" ∧ el_nodes el = Some ns ∧
              (1 < length ns)%nat ∧ node_osmId n ∈ ns) ∧
    (∃ i el, elements !! i = Some el ∧ el_type el = "node" ∧
             el_id el = node_osmId n ∧
             node_lat n = el_lat el ∧ node_lng n = el_lon el ∧
             ∀ j el', (i < j)%nat → elements !! j = Some el' →
                      ¬ (el_type el' = "node" ∧ el_id el' = node_osmId n)).
Proof.
  intros Hload n Hn.
  destruct (loadStreetData_some elements g Hload) as (Hnodes & Hok & _).
  rewrite Hnodes in Hn. split.
  - assert (node_osmId n ∈ map node_osmId
              (ns_nodes (build_nodes (collect_nodes elements) (collect_ways elements))))
      as Hin by (apply list_elem_of_In, in_map; by apply list_elem_of_In).
    rewrite (nok_order _ _ _ Hok), elem_of_first_seen, list_elem_of_filter in Hin.
    destruct Hin as [_ Hin].
    apply list_elem_of_In, in_concat in Hin as (l & Hl & Hnl).
    apply in_map_iff in Hl as (w & <- & Hw).
    apply list_elem_of_In in Hw, Hnl.
    destruct (collect_ways_spec elements [] w Hw)
      as [Hnil | (el & ns & Hel & Ht & Hns & Hlen & _ & Hwn)];
      [by apply elem_of_nil in Hnil |].
    exists el, ns. rewrite Hwn in Hnl. done.
  - apply list_elem_of_lookup in Hn as [k Hk].
    destruct (nok_node _ _ _ Hok k n Hk) as (_ & _ & Hosm).
    destruct (collect_nodes_last elements _ _ Hosm)
      as (i & el & Hi & Ht & Hid & Hv & Hlater).
    injection Hv as Hlat Hlon.
    exists i, el. done.
Qed.

Lemma built_node_origin_witness :
  @loadStreetData sample_platform sample_elements = Some sample_built ∧
  ∀ n, n ∈ graph_nodes sample_built →
    (∃ el ns, el ∈ sample_elements ∧ el_type el = "way" ∧ el_nodes el = Some ns ∧
              (1 < length ns)%nat ∧ node_osmId n ∈ ns) ∧
    (∃ i el, sample_elements !! i = Some el ∧ el_type el = "node" ∧
             el_id el = node_osmId n ∧
             node_lat n = el_lat el ∧ node_lng n = el_lon el ∧
             ∀ j el', (i < j)%nat → sample_elements !! j = Some el' →
                      ¬ (el_type el' = "node" ∧ el_id el' = node_osmId n)).
Proof.
  split; [vm_compute; reflexivity |].
  apply (@built_node_origin sample_platform sample_elements).
  vm_compute. reflexivity.
Defined.

Lemma collect_node_irrelevant (acc : gmap Z (Q * Q)) (el : element) :
  el_type el ≠ "node" → collect_node acc el = acc.
Proof. intros Hne. unfold collect_node. by rewrite bool_decide_eq_false_2. Qed.

Lemma collect_way_irrelevant (acc : list way) (el : element) :
  ¬ (el_type el = "way" ∧ (1 < length (default [] (el_nodes el)))%nat) →
  collect_way acc el = acc.
Proof.
  intros Hne. unfold collect_way. case_bool_decide as Htype; [| done].
  destruct (el_nodes el) as [ns |]; [| done]. simpl in Hne.
  destruct (Nat.ltb_spec 1 (length ns)); [tauto | done].
Qed.

Lemma collect_nodes_filter (P : element → Prop) `{∀ el, Decision (P el)}
    (elements : list element) :
  (∀ el, el_type el = "node" → P el) →
  ∀ acc, fold_left collect_node (filter P elements) acc
         = fold_left collect_node elements acc.
Proof.
  intros HP. induction elements as [| el elements IH]; intros acc; [done |].
  rewrite filter_cons. case_decide as Hel; simpl; [apply IH |].
  rewrite IH. f_equal. symmetry. apply collect_node_irrelevant.
  intros Ht. by apply Hel, HP.
Qed.

Lemma collect_ways_filter (P : element → Prop) `{∀ el, Decision (P el)}
    (elements : list element) :
  (∀ el, el_type el = "way" ∧ (1 < length (default [] (el_nodes el)))%nat → P el) →
  ∀ acc, fold_left collect_way (filter P elements) acc
         = fold_left collect_way elements acc.
Proof.
  intros HP. induction elements as [| el elements IH]; intros acc; [done |].
  rewrite filter_cons. case_decide as Hel; simpl; [apply IH |].
  rewrite IH. f_equal. symmetry. apply collect_way_irrelevant.
  intros Ht. by apply Hel, HP.
Qed.

(** X9. The graph depends only on the node elements and on the way elements
    with two references or more: dropping every other element of the
    response, or listing the ways before the nodes instead of after them,
    gives the same graph. *)
Theorem loadStreetData_reads_nodes_and_ways `{Platform} (elements : list element) :
  loadStreetData (filter relevant elements) = loadStreetData elements ∧
  ∀ nodes_part ways_part,
    Forall (λ el, el_type el ≠ "way") nodes_part →
    Forall (λ el, el_type el ≠ "node") ways_part →
    loadStreetData (ways_part ++ nodes_part)
    = loadStreetData (nodes_part ++ ways_part).
Proof.
  split.
  - unfold loadStreetData, collect_nodes, collect_ways.
    rewrite (collect_nodes_filter relevant) by (intros el Ht; by left).
    rewrite (collect_ways_filter relevant) by (intros el Ht; by right).
    done.
  - intros nodes_part ways_part Hn Hw.
    assert (∀ l acc, Forall (λ el, el_type el ≠ "node") l →
                     fold_left collect_node l acc = acc) as Hskip_nodes.
    { induction l as [| el l IH]; intros acc Hl; [done |].
      apply Forall_cons in Hl as [Hel Hl]. simpl.
      rewrite collect_node_irrelevant by done. by apply IH. }
    assert (∀ l acc, Forall (λ el, el_type el ≠ "way") l →
                     fold_left collect_way l acc = acc) as Hskip_ways.
    { induction l as [| el l IH]; intros acc Hl; [done |].
      apply Forall_cons in Hl as [Hel Hl]. simpl.
      rewrite collect_way_irrelevant by tauto. by apply IH. }
    unfold loadStreetData, collect_nodes, collect_ways.
    rewrite !fold_left_app.
    rewrite (Hskip_nodes ways_part ∅ Hw).
    rewrite (Hskip_nodes ways_part _ Hw).
    rewrite (Hskip_ways nodes_part [] Hn).
    rewrite (Hskip_ways nodes_part _ Hn).
    done.
Qed.

Lemma loadStreetData_reads_nodes_and_ways_witness :
  @loadStreetData sample_platform (drop 3 sample_elements ++ take 3 sample_elements)
  = @loadStreetData sample_platform (take 3 sample_elements ++ drop 3 sample_elements).
Proof.
  destruct (@loadStreetData_reads_nodes_and_ways sample_platform sample_elements)
    as [_ Hswap].
  apply Hswap; repeat constructor; simpl; discriminate.
Defined.

(** ** Drawing the streets *)

Lemma draw_edges_spec (g : graph) : ∀ es layers lines,
  draw_edges g es layers = Some lines →
  ∃ new, lines = layers ++ new ∧ Forall2 (λ e l, draw_edge g e = Some l) es new.
Proof.
  induction es as [| e es IH]; intros layers lines Hrun; simpl in Hrun.
  - injection Hrun as <-. exists []. by rewrite app_nil_r.
  - destruct (draw_edge g e) as [line |] eqn:Hline; [| done].
    destruct (IH _ _ Hrun) as (new & -> & Hnew).
    exists (line :: new). rewrite <- app_assoc. split; [done |]. by constructor.
Qed.

Lemma draw_edges_total (g : graph) : ∀ es layers,
  (∀ e, e ∈ es → is_Some (draw_edge g e)) → is_Some (draw_edges g es layers).
Proof.
  induction es as [| e es IH]; intros layers Hall; simpl; [by eexists |].
  destruct (Hall e) as [line ->]; [by left |].
  apply IH. intros e' He'. apply Hall. by right.
Qed.

Lemma draw_edges_fails (g : graph) : ∀ es layers e,
  e ∈ es → draw_edge g e = None → draw_edges g es layers = None.
Proof.
  induction es as [| e0 es IH]; intros layers e He Hnone;
    [by apply elem_of_nil in He |].
  simpl. apply elem_of_cons in He as [<- | He]; [by rewrite Hnone |].
  destruct (draw_edge g e0); [| done]. by apply (IH _ e).
Qed.

Lemma draw_edge_some (g : graph) (e : edge) :
  is_Some (draw_edge g e) ↔
  is_Some (graph_nodes g !! edge_from e) ∧ is_Some (graph_nodes g !! edge_to e).
Proof.
  unfold draw_edge.
  destruct (graph_nodes g !! edge_from e), (graph_nodes g !! edge_to e);
    split; try (intros [? ?]; done); try (intros [[? ?] [? ?]]; done); eauto.
Qed.

(** X10. [visualizeStreets] fails exactly when some edge has an end id that
    is no index of [graph.nodes]; otherwise it draws one line per edge, in
    order, between the coordinates of the two end nodes, with the colour and
    the width of the edge's risk score.  On a built graph it never fails. *)
Theorem visualizeStreets_lines `{Platform} (g : graph) :
  (is_Some (visualizeStreets g) ↔
   ∀ e, e ∈ graph_edges g →
        is_Some (graph_nodes g !! edge_from e) ∧
        is_Some (graph_nodes g !! edge_to e)) ∧
  (∀ lines, visualizeStreets g = Some lines →
     Forall2 (λ e l,
       (node_lat <$> graph_nodes g !! edge_from e) = Some (fst (line_from l)) ∧
       (node_lng <$> graph_nodes g !! edge_from e) = Some (snd (line_from l)) ∧
       (node_lat <$> graph_nodes g !! edge_to e) = Some (fst (line_to l)) ∧
       (node_lng <$> graph_nodes g !! edge_to e) = Some (snd (line_to l)) ∧
       line_color l = getCrimeColor (edge_crimes e) ∧
       line_weight l = getCrimeWidth (edge_crimes e) ∧
       popup_label l = popup_safety (edge_crimes e))
       (graph_edges g) lines) ∧
  (∀ elements, loadStreetData elements = Some g → is_Some (visualizeStreets g)).
Proof.
  assert (is_Some (visualizeStreets g) ↔
          ∀ e, e ∈ graph_edges g →
               is_Some (graph_nodes g !! edge_from e) ∧
               is_Some (graph_nodes g !! edge_to e)) as Hiff.
  { unfold visualizeStreets. split.
    - intros [lines Hlines] e He. apply draw_edge_some.
      destruct (draw_edge g e) eqn:Hd; [eauto |].
      by rewrite (draw_edges_fails g _ [] e He Hd) in Hlines.
    - intros Hall. apply draw_edges_total. intros e He.
      by apply draw_edge_some, Hall. }
  split_and!; [exact Hiff | |].
  - intros lines Hlines. unfold visualizeStreets in Hlines.
    destruct (draw_edges_spec g _ _ _ Hlines) as (new & -> & Hnew). simpl.
    eapply Forall2_impl; [exact Hnew |].
    intros e l Hd. unfold draw_edge in Hd.
    destruct (graph_nodes g !! edge_from e) as [nf |]; [| done].
    destruct (graph_nodes g !! edge_to e) as [nt |]; [| done].
    injection Hd as <-. simpl. done.
  - intros elements Hload. apply Hiff. intros e He.
    destruct (loadStreetData_some elements g Hload) as (Hnodes & _ & Hedges).
    destruct (Hedges e He)
      as (w & i & a & b & _ & _ & _ & nf & nt & _ & _ & Hf & Ht & _).
    rewrite Hnodes, Hf, Ht. eauto.
Qed.

Lemma visualizeStreets_lines_witness :
  is_Some (visualizeStreets sample_built) ∧
  (length <$> visualizeStreets sample_built) = Some 3%nat.
Proof.
  destruct (@visualizeStreets_lines sample_platform sample_built)
    as (_ & _ & Hbuilt).
  split; [| vm_compute; reflexivity].
  apply (Hbuilt sample_elements). vm_compute. reflexivity.
Defined.

(** ** The figures of [debugGraph] *)

Lemma list_min_spec (xs : list Z) : ∀ x,
  list_min x xs ∈ x :: xs ∧ ∀ y, y ∈ x :: xs → (list_min x xs <= y)%Z.
Proof.
  unfold list_min. induction xs as [| a xs IH]; intros x; simpl.
  - split; [by left |]. intros y Hy. apply list_elem_of_singleton in Hy. lia.
  - destruct (IH (Z.min x a)) as [Hin Hle]. split.
    + apply elem_of_cons in Hin as [Hin | Hin].
      * rewrite Hin. destruct (Z.min_spec x a) as [[_ ->] | [_ ->]];
          [by left | right; by left].
      * right. by right.
    + intros y Hy. apply elem_of_cons in Hy as [-> | Hy].
      * specialize (Hle (Z.min x a) ltac:(by left)). lia.
      * apply elem_of_cons in Hy as [-> | Hy].
        -- specialize (Hle (Z.min x a) ltac:(by left)). lia.
        -- apply Hle. by right.
Qed.

Lemma list_max_spec (xs : list Z) : ∀ x,
  list_max x xs ∈ x :: xs ∧ ∀ y, y ∈ x :: xs → (y <= list_max x xs)%Z.
Proof.
  unfold list_max. induction xs as [| a xs IH]; intros x; simpl.
  - split; [by left |]. intros y Hy. apply list_elem_of_singleton in Hy. lia.
  - destruct (IH (Z.max x a)) as [Hin Hle]. split.
    + apply elem_of_cons in Hin as [Hin | Hin].
      * rewrite Hin. destruct (Z.max_spec x a) as [[_ ->] | [_ ->]];
          [right; by left | by left].
      * right. by right.
    + intros y Hy. apply elem_of_cons in Hy as [-> | Hy].
      * specialize (Hle (Z.max x a) ltac:(by left)). lia.
      * apply elem_of_cons in Hy as [-> | Hy].
        -- specialize (Hle (Z.max x a) ltac:(by left)). lia.
        -- apply Hle. by right.
Qed.

Lemma sum_between (lo hi : Z) (l : list Z) : ∀ acc,
  (∀ y, y ∈ l → lo <= y <= hi)%Z →
  (acc + Z.of_nat (length l) * lo <= fold_left Z.add l acc
   <= acc + Z.of_nat (length l) * hi)%Z.
Proof.
  induction l as [| a l IH]; intros acc Hall; simpl fold_left.
  - simpl. lia.
  - specialize (IH (acc + a)%Z ltac:(intros y Hy; apply Hall; by right)).
    specialize (Hall a ltac:(by left)).
    rewrite length_cons, Nat2Z.inj_succ. lia.
Qed.

(** X11. [debugGraph] reports crime figures exactly for a graph with edges;
    the minimum and the maximum are the scores of edges of the graph, every
    score lies between them, and so does the average. *)
Theorem crime_statistics_bounds (g : graph) :
  (crime_statistics g = None ↔ graph_edges g = []) ∧
  ∀ mn mx avg, crime_statistics g = Some (mn, mx, avg) →
    (∃ e, e ∈ graph_edges g ∧ edge_crimes e = mn) ∧
    (∃ e, e ∈ graph_edges g ∧ edge_crimes e = mx) ∧
    (∀ e, e ∈ graph_edges g → mn <= edge_crimes e <= mx)%Z ∧
    (inject_Z mn <= avg)%Q ∧ (avg <= inject_Z mx)%Q.
Proof.
  unfold crime_statistics. split.
  - destruct (graph_edges g); simpl; split; done.
  - intros mn mx avg Hstat.
    destruct (map edge_crimes (graph_edges g)) as [| c cs] eqn:Hmap; [done |].
    injection Hstat as <- <- <-.
    destruct (list_min_spec cs c) as [Hmin_in Hmin].
    destruct (list_max_spec cs c) as [Hmax_in Hmax].
    rewrite <- Hmap in Hmin_in, Hmin, Hmax_in, Hmax.
    assert (∀ z, z ∈ map edge_crimes (graph_edges g) →
                 ∃ e, e ∈ graph_edges g ∧ edge_crimes e = z) as Hpre.
    { intros z Hz. apply list_elem_of_In, in_map_iff in Hz as (e & He & Hin).
      exists e. split; [by apply list_elem_of_In | done]. }
    assert (∀ e, e ∈ graph_edges g →
                 (list_min c cs <= edge_crimes e <= list_max c cs)%Z) as Hall.
    { intros e He. split; [apply Hmin | apply Hmax];
        apply list_elem_of_In, in_map; by apply list_elem_of_In. }
    split_and!; [by apply Hpre | by apply Hpre | exact Hall | |].
    + apply Qle_shift_div_l; [by simpl |].
      rewrite <- inject_Z_mult, <- Zle_Qle.
      pose proof (sum_between (list_min c cs) (list_max c cs) (c :: cs) 0) as Hs.
      change (fold_left Z.add (c :: cs) 0%Z) with (fold_left Z.add cs (0 + c)%Z) in Hs.
      change (length (c :: cs)) with (S (length cs)) in Hs.
      destruct Hs as [Hs _]; [| lia].
      intros y Hy. rewrite <- Hmap in Hy. split; [by apply Hmin | by apply Hmax].
    + apply Qle_shift_div_r; [by simpl |].
      rewrite <- inject_Z_mult, <- Zle_Qle.
      pose proof (sum_between (list_min c cs) (list_max c cs) (c :: cs) 0) as Hs.
      change (fold_left Z.add (c :: cs) 0%Z) with (fold_left Z.add cs (0 + c)%Z) in Hs.
      change (length (c :: cs)) with (S (length cs)) in Hs.
      destruct Hs as [_ Hs]; [| lia].
      intros y Hy. rewrite <- Hmap in Hy. split; [by apply Hmin | by apply Hmax].
Qed.

(** ** The shortest-path solver, further *)

(** X12. For two node ids of a graph with non-negative weights, [dijkstra]
    returns [null] exactly when the two ids are equal or every path between
    them costs [Infinity], its weights added up in doubles from the start
    on; that is so, in particular, when no path joins them. *)
Theorem dijkstra_null_iff (g : graph) (s t fuel : nat) :
  nonneg_weights g → s ∈ node_ids g → t ∈ node_ids g →
  (length (graph_nodes g) <= fuel)%nat →
  ∃ r, dijkstra fuel g s t = Some r ∧
    (r = None ↔
     s = t ∨ ∀ q es, walk_between g s t q es → path_cost es = Infinity).
Proof.
  intros Hw Hs Ht Hfuel.
  destruct (dijkstra_result g s Hw Hs t Ht fuel Hfuel)
    as [[Hr Hwhy] | (p & Hr & Hne & Hh & Hl & es & Hp & Hfin & _)].
  - exists None. split; [done |]. split; [| done]. intros _.
    destruct Hwhy as [-> | Hno]; [by left | right].
    intros q es (Hq & Hqh & Hql).
    apply Hno. by apply (path_reach g s t q).
  - exists (Some p). split; [done |]. split; [done |].
    intros [-> | Hno]; [done |]. exfalso. apply Hfin. by apply (Hno p).
Qed.

Lemma dijkstra_null_iff_witness :
  ∃ r, dijkstra 4 sample_graph 3 0 = Some r ∧
    (r = None ↔
     3%nat = 0%nat ∨
     ∀ q es, walk_between sample_graph 3 0 q es → path_cost es = Infinity).
Proof.
  apply dijkstra_null_iff.
  - exact sample_graph_nonneg.
  - by_compute.
  - by_compute.
  - simpl. lia.
Defined.

Lemma dijkstra_path_nodes (g : graph) (s t fuel : nat) (p : list nat) :
  nonneg_weights g → s ∈ node_ids g → t ∈ node_ids g →
  (length (graph_nodes g) <= fuel)%nat →
  dijkstra fuel g s t = Some (Some p) →
  NoDup p ∧ (∀ x, x ∈ p → x ∈ node_ids g) ∧ (1 < length p)%nat.
Proof.
  intros Hw Hs Ht Hfuel Hrun. unfold dijkstra in Hrun.
  destruct (main_loop_spec g s Hw Hs t fuel None (init_state g s))
    as (c & st & Hloop & HI & _).
  { by apply inv_init. }
  { by apply init_unvisited. }
  { pose proof (init_length g s). lia. }
  rewrite Hloop in Hrun.
  destruct (final_chain g s t Ht c st HI) as (p0 & Hc & Hnd & Hvis).
  assert (∀ x, x ∈ p0 → x ∈ node_ids g) as Hin.
  { intros x Hx. destruct (Hvis x Hx) as [-> | [Hx' _]]; done. }
  rewrite (reconstruct_chain _ _ _ Hc fuel [])
    in Hrun by (etrans; [by apply chain_length_bound | done]).
  rewrite app_nil_r in Hrun.
  destruct (Nat.ltb_spec 1 (length p0)); [| done].
  injection Hrun as <-. done.
Qed.

(** X13. A path that [dijkstra] returns visits no node twice, consists of
    node ids of the graph, and has at least two and at most as many nodes as
    the graph. *)
Theorem dijkstra_path_simple (g : graph) (s t fuel : nat) (p : list nat) :
  nonneg_weights g → s ∈ node_ids g → t ∈ node_ids g →
  (length (graph_nodes g) <= fuel)%nat →
  dijkstra fuel g s t = Some (Some p) →
  NoDup p ∧ (∀ x, x ∈ p → x ∈ node_ids g) ∧
  (2 <= length p <= length (graph_nodes g))%nat.
Proof.
  intros Hw Hs Ht Hfuel Hrun.
  destruct (dijkstra_path_nodes g s t fuel p Hw Hs Ht Hfuel Hrun)
    as (Hnd & Hin & Hlen).
  split_and!; [done | done | lia |]. by apply chain_length_bound.
Qed.

Lemma dijkstra_path_simple_witness :
  NoDup [0; 1; 2; 3]%nat ∧ (∀ x, x ∈ [0; 1; 2; 3]%nat → x ∈ node_ids sample_graph) ∧
  (2 <= length [0; 1; 2; 3]%nat <= length (graph_nodes sample_graph))%nat.
Proof.
  apply (dijkstra_path_simple sample_graph 0 3 4).
  - exact sample_graph_nonneg.
  - by_compute.
  - by_compute.
  - simpl. lia.
  - vm_compute. reflexivity.
Defined.

Lemma neighbor_of_flip (u : nat) (e : edge) :
  neighbor_of u (flip_edge e) = neighbor_of u e.
Proof.
  unfold neighbor_of, flip_edge. simpl.
  destruct (Nat.eqb_spec (edge_to e) u), (Nat.eqb_spec (edge_from e) u);
    congruence.
Qed.

Lemma relax_flip (u : nat) (unv : list nat) tabs (e : edge) :
  relax u unv tabs (flip_edge e) = relax u unv tabs e.
Proof. unfold relax. by rewrite neighbor_of_flip. Qed.

Lemma relax_fold_reorient (turn : edge → bool) (u : nat) (unv : list nat) :
  ∀ es tabs,
  fold_left (relax u unv) (map (λ e, if turn e then flip_edge e else e) es) tabs
  = fold_left (relax u unv) es tabs.
Proof.
  induction es as [| e es IH]; intros tabs; [done |].
  simpl. destruct (turn e); [rewrite relax_flip |]; apply IH.
Qed.

Lemma visit_reorient (turn : edge → bool) (g : graph) (u : nat) (st : dstate) :
  visit (reorient turn g) u st = visit g u st.
Proof.
  unfold visit, reorient. cbn [graph_edges]. by rewrite relax_fold_reorient.
Qed.

Lemma main_loop_reorient (turn : edge → bool) (g : graph) (t : nat) :
  ∀ fuel st, main_loop fuel (reorient turn g) t st = main_loop fuel g t st.
Proof.
  induction fuel as [| f IH]; intros st; simpl; [done |].
  destruct (unvisited st); [done |].
  destruct (fst (select_min _ _)); [| done].
  destruct (Nat.eqb _ _); [done |]. by rewrite visit_reorient, IH.
Qed.

(** X14. [dijkstra] treats every edge as two-way: exchanging [from] and [to]
    of any edges of the graph does not change what it returns, with or
    without enough fuel. *)
Theorem dijkstra_ignores_direction (turn : edge → bool) (g : graph)
    (s t fuel : nat) :
  dijkstra fuel (reorient turn g) s t = dijkstra fuel g s t.
Proof.
  unfold dijkstra. rewrite main_loop_reorient.
  replace (init_state (reorient turn g) s) with (init_state g s) by done.
  done.
Qed.

Lemma main_loop_unreachable_start (g : graph) (s t fuel : nat) :
  s ∉ node_ids g →
  main_loop (S fuel) g t (init_state g s) = Some (init_state g s).
Proof.
  intros Hs.
  assert (∀ u d, u ∈ unvisited (init_state g s) →
                 distances (init_state g s) !! u = Some d → d = Infinity) as Hinf.
  { intros u d Hu Hd. apply init_unvisited in Hu. rewrite init_distances in Hd.
    case_decide; [by subst |]. case_bool_decide; congruence. }
  revert Hinf. generalize (init_state g s) as st. intros st Hinf.
  cbn [main_loop]. destruct (unvisited st) as [| a l] eqn:Hunv; [done |].
  rewrite <- Hunv in *.
  destruct (fst (select_min (distances st) (unvisited st))) as [u |] eqn:Hsel;
    [| done].
  destruct (select_min_some _ _ _ Hsel) as (Hu & d & Hd & Hne & _).
  by destruct (Hne (Hinf u d Hu Hd)).
Qed.

(** X15. Ids that are no nodes of the graph: with an unknown destination
    [dijkstra] never returns, whatever the fuel; with an unknown start and a
    known destination it returns [null]. *)
Theorem dijkstra_unknown_ids (g : graph) (s t : nat) :
  (t ∉ node_ids g → ∀ fuel, dijkstra fuel g s t = None) ∧
  (s ∉ node_ids g → t ∈ node_ids g →
   ∀ fuel, (1 <= fuel)%nat → dijkstra fuel g s t = Some None).
Proof.
  split.
  - intros Ht fuel. by apply dijkstra_unknown_destination.
  - intros Hs Ht fuel Hfuel. destruct fuel as [| f]; [lia |].
    unfold dijkstra. rewrite main_loop_unreachable_start by done.
    cbn [reconstruct]. unfold get_previous. rewrite init_previous.
    rewrite bool_decide_eq_true_2 by done. by destruct f.
Qed.

Lemma dijkstra_unknown_ids_witness :
  dijkstra 9 sample_graph 0 7 = None ∧ dijkstra 1 sample_graph 7 0 = Some None.
Proof.
  destruct (dijkstra_unknown_ids sample_graph 0 7) as [Hdest _].
  destruct (dijkstra_unknown_ids sample_graph 7 0) as [_ Hstart].
  split.
  - apply Hdest. apply (bool_decide_unpack _). vm_compute. exact I.
  - apply Hstart; [apply (bool_decide_unpack _); vm_compute; exact I | by_compute | lia].
Defined.

Lemma relax_unusable (g : graph) (u : nat) (unv : list nat) tabs (e : edge) :
  u ∈ node_ids g → u ∉ unv → (∀ v, v ∈ unv → v ∈ node_ids g) →
  ¬ usable_edge g e → relax u unv tabs e = tabs.
Proof.
  intros Hu Hun Hsub Hbad. unfold relax.
  destruct (neighbor_of u e) as [y |] eqn:Hn; [| done].
  case_bool_decide as Hy; [| done].
  exfalso. apply Hbad. apply neighbor_of_some in Hn.
  assert (y ∈ node_ids g) as Hyg by by apply Hsub.
  assert (y ≠ u) as Hne by (by intros ->).
  unfold usable_edge.
  destruct Hn as [[-> ->] | [-> ->]]; split_and!; done.
Qed.

Lemma visit_usable_part (g : graph) (u : nat) (st : dstate) :
  u ∈ node_ids g → (∀ v, v ∈ unvisited st → v ∈ node_ids g) →
  visit (usable_part g) u st = visit g u st.
Proof.
  intros Hu Hsub. unfold visit, usable_part. cbn [graph_edges].
  assert (u ∉ set_delete u (unvisited st)) as Hun
    by (rewrite elem_of_set_delete; tauto).
  assert (∀ v, v ∈ set_delete u (unvisited st) → v ∈ node_ids g) as Hsub'.
  { intros v Hv. apply elem_of_set_delete in Hv as [_ Hv]. by apply Hsub. }
  assert (∀ es tabs,
    fold_left (relax u (set_delete u (unvisited st))) (filter (usable_edge g) es) tabs
    = fold_left (relax u (set_delete u (unvisited st))) es tabs) as Hfold.
  { induction es as [| e es IH]; intros tabs; [done |].
    rewrite filter_cons. case_decide as He; simpl; [apply IH |].
    rewrite (relax_unusable g u _ tabs e Hu Hun Hsub' He). apply IH. }
  by rewrite Hfold.
Qed.

Lemma main_loop_usable_part (g : graph) (t : nat) : ∀ fuel st,
  (∀ v, v ∈ unvisited st → v ∈ node_ids g) →
  main_loop fuel (usable_part g) t st = main_loop fuel g t st.
Proof.
  induction fuel as [| f IH]; intros st Hsub; simpl; [done |].
  destruct (unvisited st) as [| a l] eqn:Hunv; [done |]. rewrite <- Hunv in *.
  destruct (fst (select_min (distances st) (unvisited st))) as [u |] eqn:Hsel;
    [| done].
  destruct (Nat.eqb u t); [done |].
  destruct (select_min_some _ _ _ Hsel) as (Hu & _).
  rewrite visit_usable_part by auto. apply IH.
  intros v Hv. simpl in Hv. apply elem_of_set_delete in Hv as [_ Hv]. by apply Hsub.
Qed.

(** X17. [dijkstra] never uses an edge from a node to itself or an edge with
    an end that is no node of the graph: removing all such edges does not
    change what it returns. *)
Theorem dijkstra_ignores_unusable_edges (g : graph) (s t fuel : nat) :
  dijkstra fuel (usable_part g) s t = dijkstra fuel g s t.
Proof.
  unfold dijkstra.
  replace (init_state (usable_part g) s) with (init_state g s) by done.
  rewrite main_loop_usable_part; [done |].
  intros v Hv. by apply init_unvisited in Hv.
Qed.

(** ** The route query, further *)

Lemma findNearestNode_in `{Platform} (g : graph) (lat lng : Q) (n : node) :
  findNearestNode g lat lng = Some n → n ∈ graph_nodes g.
Proof.
  pose proof (findNearestNode_ok g lat lng) as Hok.
  unfold findNearestNode, near_ok in *.
  intros Hn. rewrite Hn in Hok. destruct Hok as (i & Hi & _).
  apply list_elem_of_lookup. eauto.
Qed.


Lemma node_id_in (g : graph) (n : node) : n ∈ graph_nodes g → node_id n ∈ node_ids g.
Proof.
  intros Hn. unfold node_ids. apply list_elem_of_In, in_map. by apply list_elem_of_In.
Qed.

Lemma dijkstra_start_is_end (g : graph) (n fuel : nat) :
  n ∈ node_ids g → (1 <= fuel)%nat → dijkstra fuel g n n = Some None.
Proof.
  intros Hn Hfuel. destruct fuel as [| f]; [lia |].
  assert (n ∈ unvisited (init_state g n)) as Hu by by apply init_unvisited.
  assert (distances (init_state g n) !! n = Some (Fin 0%Q)) as Hd.
  { rewrite init_distances. by rewrite decide_True. }
  assert (∀ u d, distances (init_state g n) !! u = Some d → d ≠ Infinity → u = n)
    as Hfin.
  { intros u d Hd' Hne. rewrite init_distances in Hd'. case_decide; [done |].
    case_bool_decide; congruence. }
  assert (previous (init_state g n) !! n = Some None) as Hp.
  { rewrite init_previous. by rewrite bool_decide_eq_true_2. }
  unfold dijkstra. revert Hu Hd Hfin Hp. generalize (init_state g n) as st.
  intros st Hu Hd Hfin Hp. cbn [main_loop].
  destruct (unvisited st) as [| a l] eqn:Hunv; [by apply elem_of_nil in Hu |].
  rewrite <- Hunv in *.
  destruct (fst (select_min (distances st) (unvisited st))) as [u |] eqn:Hsel.
  - destruct (select_min_some _ _ _ Hsel) as (Huin & d & Hq & Hne & _).
    rewrite (Hfin u d Hq Hne), Nat.eqb_refl.
    cbn [reconstruct]. unfold get_previous. rewrite Hp. by destruct f.
  - by pose proof (select_min_none _ _ Hsel n _ Hu Hd).
Qed.

(** X18. When the start point and the end point have the same nearest node,
    [findSafestRoute] answers "No route found!", as it does for two points
    that no street connects. *)
Theorem route_between_same_node `{Platform} (fuel : nat) (app : app_state)
    (sp ep : Q * Q) (startNode endNode : node) :
  startPoint app = Some sp → endPoint app = Some ep →
  findNearestNode (app_graph app) (fst sp) (snd sp) = Some startNode →
  findNearestNode (app_graph app) (fst ep) (snd ep) = Some endNode →
  node_id startNode = node_id endNode →
  (1 <= fuel)%nat →
  findSafestRoute fuel app = Alert "No route found!".
Proof.
  intros Hsp Hep Hs He Hid Hfuel. unfold findSafestRoute.
  pose proof (findNearestNode_in _ _ _ _ Hs) as Hin.
  rewrite Hsp, Hep, Hs, He, <- Hid.
  destruct (graph_nodes (app_graph app)) eqn:Hnodes;
    [by apply elem_of_nil in Hin |].
  rewrite <- Hnodes in *. 
  replace (Nat.eqb (length (graph_nodes (app_graph app))) 0) with false
    by (rewrite Hnodes; done).
  rewrite dijkstra_start_is_end; [done | by apply node_id_in | done].
Qed.

Lemma route_between_same_node_witness :
  @findSafestRoute sample_platform 1
    (mkApp sample_graph (Some (2, 0)%Q) (Some (2, 0)%Q))
  = Alert "No route found!".
Proof.
  eapply (@route_between_same_node sample_platform 1
            (mkApp sample_graph (Some (2, 0)%Q) (Some (2, 0)%Q)));
    reflexivity.
Defined.






Lemma find_edge_in (g : graph) (a b : nat) (e : edge) :
  find_edge g a b = Some e → e ∈ graph_edges g.
Proof.
  unfold find_edge. intros Hf. apply find_some in Hf as [Hin _].
  by apply list_elem_of_In.
Qed.

Lemma traversed_risks_bounds (g : graph) (lo hi : Z) :
  (∀ e, e ∈ graph_edges g → lo <= edge_crimes e <= hi)%Z →
  ∀ path,
    (∀ c, c ∈ traversed_risks g path → lo <= c <= hi)%Z ∧
    (length (traversed_risks g path) <= length path - 1)%nat.
Proof.
  intros Hall. induction path as [| a rest IH]; [split; [intros c Hc | done];
    by apply elem_of_nil in Hc |].
  destruct rest as [| b rest].
  - split; [intros c Hc; by apply elem_of_nil in Hc | done].
  - rewrite traversed_risks_cons. destruct IH as [IHc IHl].
    destruct (find_edge g a b) as [e |] eqn:Hf.
    + split.
      * intros c Hc. apply elem_of_cons in Hc as [-> | Hc]; [| by apply IHc].
        apply Hall. by eapply find_edge_in.
      * simpl in *. lia.
    + split; [done |]. simpl in *. lia.
Qed.

Lemma sum_risks_bounds (lo hi : Z) (l : list Z) :
  (∀ c, c ∈ l → lo <= c <= hi)%Z →
  (Z.of_nat (length l) * lo <= sum_risks l <= Z.of_nat (length l) * hi)%Z.
Proof.
  unfold sum_risks. induction l as [| a l IH]; intros Hall; simpl fold_right.
  - simpl. lia.
  - specialize (IH ltac:(intros c Hc; apply Hall; by right)).
    specialize (Hall a ltac:(by left)).
    rewrite length_cons, Nat2Z.inj_succ. lia.
Qed.

Lemma built_crimes_range `{Platform} (elements : list element) (g : graph) (e : edge) :
  loadStreetData elements = Some g → e ∈ graph_edges g →
  (0 <= edge_crimes e <= 12)%Z.
Proof.
  intros Hload He.
  destruct (loadStreetData_some elements g Hload) as (_ & _ & Hedges).
  destruct (Hedges e He)
    as (w & i & a & b & _ & _ & _ & nf & nt & _ & _ & _ & _ & Hcr & _).
  rewrite Hcr. apply crime_level_facts.
Qed.

(** X20. On a built graph the crime score of a shown route lies between 0
    and 12 times its number of segments, so its mean risk per segment is at
    most 12. *)
Theorem route_crime_score_bounds `{Platform} (elements : list element)
    (fuel : nat) (app : app_state) (r : route_info) :
  loadStreetData elements = Some (app_graph app) →
  findSafestRoute fuel app = RouteShown r →
  (0 <= route_crime_score r <= 12 * Z.of_nat (route_segments r))%Z ∧
  (0 <= route_avg r)%Q ∧ (route_avg r <= 12)%Q.
Proof.
  intros Hload Hshown.
  destruct (findSafestRoute_shown fuel app r Hshown) as (sn & en & path & Hd & Hsum).
  destruct (route_summary_fields _ _ _ Hsum) as (Hpath & Hseg & Hscore & Havg & _).
  assert (1 < length path)%nat as Hlen.
  { unfold dijkstra in Hd. destruct (main_loop _ _ _ _); [| done].
    destruct (reconstruct _ _ _ _) as [p0 |]; [| done].
    destruct (Nat.ltb_spec 1 (length p0)); [| done]. by injection Hd as <-. }
  destruct (traversed_risks_bounds (app_graph app) 0 12
              (λ e He, built_crimes_range elements _ e Hload He) path) as [Hc Hl].
  pose proof (sum_risks_bounds 0 12 _ Hc) as Hs.
  rewrite <- Hscore in Hs.
  assert (0 <= route_crime_score r <= 12 * Z.of_nat (route_segments r))%Z as Hb
    by (rewrite Hseg; lia).
  split; [exact Hb |].
  rewrite Havg.
  assert (Z.of_nat (length path) - 1 = Z.of_nat (route_segments r))%Z as ->
    by (rewrite Hseg; lia).
  assert (0 < inject_Z (Z.of_nat (route_segments r)))%Q as Hpos.
  { change 0%Q with (inject_Z 0). rewrite <- Zlt_Qlt. rewrite Hseg. lia. }
  split.
  - apply Qle_shift_div_l; [done |]. rewrite Qmult_0_l.
    change 0%Q with (inject_Z 0). rewrite <- Zle_Qle. lia.
  - apply Qle_shift_div_r; [done |].
    change 12%Q with (inject_Z 12). rewrite <- inject_Z_mult, <- Zle_Qle. lia.
Qed.

Lemma route_crime_score_bounds_witness :
  ∃ r, @findSafestRoute plane_platform 3 plane_app = RouteShown r ∧
    (0 <= route_crime_score r <= 12 * Z.of_nat (route_segments r))%Z ∧
    (0 <= route_avg r)%Q ∧ (route_avg r <= 12)%Q.
Proof.
  eexists. split; [vm_compute; reflexivity |].
  apply (@route_crime_score_bounds plane_platform sample_elements 3 plane_app);
    vm_compute; reflexivity.
Defined.
